(** * Resilient email service: a shallow embedding of the dispatch engine

    The development embeds the TypeScript sources of the service:
    - [types.ts]          the request, status, attempt, provider, queue item
                          and configuration interfaces;
    - [RateLimiter.ts]    sliding-log admission control;
    - [CircuitBreaker.ts] failure-threshold gate with timed recovery;
    - [EmailQueue.ts]     bounded priority queue and its drain loop;
    - [EmailService.ts]   the orchestrator ([sendEmail], [queueEmail],
                          [processEmail], [clear], ...).

    Conventions.
    - [Date.now()] is a reading of a clock of type [Z] (milliseconds); the
      primitives take the reading as an argument [now].
    - Counters and capacities ([failures], [threshold], [max], [maxSize],
      [maxRetries], [retryCount]) are natural numbers; timestamps, durations
      that are compared with differences of timestamps, and priorities are
      integers.
    - JavaScript objects mutated in place are passed as explicit state: every
      method returns its result together with the updated object.
    - An [async] method is followed to its completion, one call at a time:
      the time spent in an awaited [send] or [sleep] moves the clock
      forward.
    - The background loop is started without [await].  On the way to its
      first sleep the loop runs its body once, so the first turn of the loop
      belongs to the call that starts it ([startQueueProcessing], or
      [queueEmail] on an engine whose loop is not running).  That turn too
      is followed to its completion; the JavaScript call returns earlier,
      when the turn reaches its first [await]: the entry is off the queue by
      then and its Status is [pending].  Every later turn of the loop is a
      transition of its own.
    - A promise that is rejected and an exception that is thrown are the
      same thing here: the call is said to throw.
    - [setTimeout] is the timer of Node.js, which replaces a delay below 1 ms
      or above 2^31 - 1 ms by 1 ms.
    - [Logger] calls only print and are left out. *)

From stdpp Require Import gmap strings list sorting.

Local Open Scope Z_scope.

(** ** types.ts *)

Module EmailRequest.
Inductive Priority := low | normal | high.

Record t := mk {
  id : string;
  to : string;
  subject : string;
  body : string;
  from : option string;
  cc : option (list string);
  bcc : option (list string);
  priority : option Priority;
  retryCount : option nat
}.
End EmailRequest.

Module EmailAttempt.
Record t := mk {
  provider : string;
  timestamp : Z;
  success : bool;
  error : option string;
  duration : Z
}.
End EmailAttempt.

Module EmailStatus.
Inductive State := pending | sent | failed | rate_limited | queued.

#[global] Instance State_eq_dec : EqDecision State.
Proof. solve_decision. Defined.

Record t := mk {
  status : State;
  provider : option string;
  error : option string;
  timestamp : Z;
  retryCount : nat;
  attempts : list EmailAttempt.t
}.

(** In-place updates of a Status object. *)
Definition push (a : EmailAttempt.t) (s : t) : t :=
  mk (status s) (provider s) (error s) (timestamp s) (retryCount s)
     (attempts s ++ [a]).

Definition set_status (x : State) (s : t) : t :=
  mk x (provider s) (error s) (timestamp s) (retryCount s) (attempts s).

Definition set_provider (p : string) (s : t) : t :=
  mk (status s) (Some p) (error s) (timestamp s) (retryCount s) (attempts s).

Definition set_error (e : string) (s : t) : t :=
  mk (status s) (provider s) (Some e) (timestamp s) (retryCount s) (attempts s).

Definition set_retryCount (n : nat) (s : t) : t :=
  mk (status s) (provider s) (error s) (timestamp s) n (attempts s).
End EmailStatus.

Module EmailQueueItem.
Record t := mk {
  email : EmailRequest.t;
  priority : Z;
  timestamp : Z;
  retryCount : nat
}.
End EmailQueueItem.

Module EmailServiceConfig.
Record t := mk {
  maxRetries : nat;
  retryDelayMs : Z;
  rateLimitMax : nat;
  rateLimitWindowMs : Z;
  circuitBreakerThreshold : nat;
  circuitBreakerTimeoutMs : Z;
  queueMaxSize : nat;
  queueProcessIntervalMs : Z
}.
End EmailServiceConfig.

(** ** utils/RateLimiter.ts *)

Module RateLimiter.
Record t := mk {
  requests : list Z;
  max : nat;
  interval : Z
}.

Definition new (max : nat) (interval : Z) : t := mk [] max interval.

(** [this.requests.filter(t => now - t < this.interval)] *)
Definition prune (now : Z) (rl : t) : list Z :=
  List.filter (fun t => now - t <? interval rl) (requests rl).

Definition allow (now : Z) (rl : t) : bool * t :=
  let kept := prune now rl in
  if (length kept <? max rl)%nat
  then (true, mk (kept ++ [now]) (max rl) (interval rl))
  else (false, mk kept (max rl) (interval rl)).

(** A run of [allow] calls, the k-th one issued [d_k] milliseconds after
    the previous one; returns the verdicts in call order. *)
Fixpoint run (now : Z) (gaps : list N) (rl : t) : list (Z * bool) * t :=
  match gaps with
  | [] => ([], rl)
  | d :: gaps' =>
      let now' := now + Z.of_N d in
      let '(ok, rl') := allow now' rl in
      let '(log, rl'') := run now' gaps' rl' in
      ((now', ok) :: log, rl'')
  end.

(** The timestamps of the admitted calls of a run. *)
Definition admitted (log : list (Z * bool)) : list Z :=
  List.map fst (List.filter snd log).

(** Number of timestamps inside the trailing window of length [w] that
    ends at [T], that is, with [T - w < t <= T]. *)
Definition in_window (w T : Z) (ts : list Z) : nat :=
  length (List.filter (fun t => (t <=? T) && (T - t <? w)) ts).

(** What a limiter knows after a call at [now]: [requests] is the part of
    the admitted timestamps [A] that lies inside the window of [now], it
    is within the cap, and no window holds more than [max] admitted
    timestamps. *)
Definition tracks (now : Z) (A : list Z) (rl : t) : Prop :=
  requests rl = List.filter (fun t => now - t <? interval rl) A
  ∧ (length (requests rl) ≤ max rl)%nat
  ∧ ∀ T, (in_window (interval rl) T A ≤ max rl)%nat.
End RateLimiter.

(** ** utils/CircuitBreaker.ts *)

Module CircuitBreaker.
Record t := mk {
  failures : nat;
  lastFailureTime : Z;
  threshold : nat;
  timeout : Z
}.

Definition new (threshold : nat) (timeout : Z) : t := mk 0 0 threshold timeout.

Definition reset (cb : t) : t :=
  mk 0 (lastFailureTime cb) (threshold cb) (timeout cb).

Definition isOpen (now : Z) (cb : t) : bool * t :=
  if (threshold cb <=? failures cb)%nat then
    if now - lastFailureTime cb <? timeout cb then (true, cb)
    else (false, reset cb)
  else (false, cb).

Definition recordFailure (now : Z) (cb : t) : t :=
  mk (S (failures cb)) now (threshold cb) (timeout cb).

(** Failures recorded one after the other, at the given clock readings. *)
Definition recordFailures (times : list Z) (cb : t) : t :=
  fold_left (fun b now => recordFailure now b) times cb.

(** Successive evaluations of [isOpen], at the given clock readings. *)
Fixpoint evaluations (times : list Z) (cb : t) : list bool * t :=
  match times with
  | [] => ([], cb)
  | now :: times' =>
      let '(o, cb') := isOpen now cb in
      let '(os, cb'') := evaluations times' cb' in
      (o :: os, cb'')
  end.
End CircuitBreaker.

(** ** Timers

    [setTimeout(callback, ms)] of Node.js: "when delay is larger than
    2147483647 or less than 1, the delay will be set to 1". *)

Definition TIMEOUT_MAX : Z := 2147483647.

Definition timerDelay (ms : Z) : Z :=
  if (1 <=? ms) && (ms <=? TIMEOUT_MAX) then ms else 1.

(** ** utils/EmailQueue.ts *)

Module EmailQueue.
Record t := mk {
  queue : list EmailQueueItem.t;
  processing : bool;
  maxSize : nat
}.

Definition new (maxSize : nat) : t := mk [] false maxSize.

Definition set_queue (l : list EmailQueueItem.t) (q : t) : t :=
  mk l (processing q) (maxSize q).

Definition set_processing (b : bool) (q : t) : t :=
  mk (queue q) b (maxSize q).

(** [Array.prototype.findIndex]; [None] stands for the result [-1]. *)
Fixpoint findIndex {A : Type} (f : A -> bool) (l : list A) : option nat :=
  match l with
  | [] => None
  | x :: l' => if f x then Some 0%nat else S <$> findIndex f l'
  end.

(** [l.splice(i, 0, x)] for an index [i] inside the array. *)
Definition splice_in {A : Type} (i : nat) (x : A) (l : list A) : list A :=
  take i l ++ x :: drop i l.

Definition enqueue (email : EmailRequest.t) (priority : Z) (now : Z) (q : t)
  : bool * t :=
  if (maxSize q <=? length (queue q))%nat then (false, q)
  else
    let item := EmailQueueItem.mk email priority now 0 in
    let insertIndex :=
      findIndex (fun qItem => EmailQueueItem.priority qItem <? priority) (queue q) in
    match insertIndex with
    | None => (true, set_queue (queue q ++ [item]) q)
    | Some i => (true, set_queue (splice_in i item (queue q)) q)
    end.

(** [this.queue.shift()] *)
Definition dequeue (q : t) : option EmailQueueItem.t * t :=
  match queue q with
  | [] => (None, q)
  | item :: rest => (Some item, set_queue rest q)
  end.

Definition size (q : t) : nat := length (queue q).
Definition isEmpty (q : t) : bool := (length (queue q) =? 0)%nat.
Definition isFull (q : t) : bool := (maxSize q <=? length (queue q))%nat.

Definition stopProcessing (q : t) : t := set_processing false q.
Definition clear (q : t) : t := set_queue [] q.

Record Stats := mkStats {
  stat_size : nat;
  stat_maxSize : nat;
  stat_processing : bool;
  oldestItem : option Z;
  newestItem : option Z
}.

Definition getStats (q : t) : Stats :=
  mkStats (length (queue q)) (maxSize q) (processing q)
    (EmailQueueItem.timestamp <$> head (queue q))
    (EmailQueueItem.timestamp <$> last (queue q)).

(** How the promise returned by the processing callback settles. *)
Inductive Settled := Resolved | Rejected.

(** The drain loop of [startProcessing].  The callback acts on a state [St]
    of which the queue is one component ([getq], [setq]); [now] reads the
    clock and [sleep] lets time pass.  [processCallback] is the field set by
    [setProcessCallback], [None] while no callback is registered. *)
Section Loop.
Context {St : Type}.
Variable getq : St -> t.
Variable setq : t -> St -> St.
Variable now : St -> Z.
Variable sleep : Z -> St -> St.
Variable processCallback : option (EmailRequest.t -> St -> Settled * St).

(** The body of the [while] loop up to the sleep. *)
Definition cycle (s : St) : St :=
  match processCallback with
  | Some callback =>
      if negb (isEmpty (getq s)) then
        match dequeue (getq s) with
        | (Some item, q1) =>
            match callback (EmailQueueItem.email item) (setq q1 s) with
            | (Resolved, s2) => s2
            | (Rejected, s2) =>
                if (EmailQueueItem.retryCount item <? 3)%nat then
                  (* item.retryCount++ *)
                  let item' :=
                    EmailQueueItem.mk (EmailQueueItem.email item)
                      (EmailQueueItem.priority item)
                      (EmailQueueItem.timestamp item)
                      (S (EmailQueueItem.retryCount item)) in
                  setq (snd (enqueue (EmailQueueItem.email item')
                               (EmailQueueItem.priority item') (now s2)
                               (getq s2))) s2
                else s2
            end
        | (None, q1) => setq q1 s
        end
      else s
  | None => s
  end.

(** [fuel] turns of [while (this.processing) { ...; await sleep }]. *)
Fixpoint loop (intervalMs : Z) (fuel : nat) (s : St) : St :=
  match fuel with
  | O => s
  | S fuel' =>
      if processing (getq s)
      then loop intervalMs fuel' (sleep intervalMs (cycle s))
      else s
  end.

(** [startProcessing] up to the first sleep of its loop: nothing happens
    when the loop is running already; otherwise the flag is raised and the
    body of the loop runs for the first time.  The turns that follow are
    those of [loop]. *)
Definition startProcessing (s : St) : St :=
  if processing (getq s) then s
  else cycle (setq (set_processing true (getq s)) s).
End Loop.

(** A queue on its own: the queue, the clock, and the requests handed to
    the callback so far (oldest first). *)
Record Standalone := mkStandalone {
  the_queue : t;
  the_clock : Z;
  delivered : list EmailRequest.t
}.

Definition sa_setq (q : t) (s : Standalone) : Standalone :=
  mkStandalone q (the_clock s) (delivered s).

(** [await new Promise(resolve => setTimeout(resolve, ms))] *)
Definition sa_sleep (ms : Z) (s : Standalone) : Standalone :=
  mkStandalone (the_queue s) (the_clock s + timerDelay ms) (delivered s).

(** A callback that records the delivery and settles as [r] says. *)
Definition sa_callback (r : EmailRequest.t -> Settled)
  (e : EmailRequest.t) (s : Standalone) : Settled * Standalone :=
  (r e, mkStandalone (the_queue s) (the_clock s) (delivered s ++ [e])).

Definition sa_loop (r : EmailRequest.t -> Settled) :=
  loop the_queue sa_setq the_clock sa_sleep (Some (sa_callback r)).

(** Descending priority order. *)
Definition sorted (l : list EmailQueueItem.t) : Prop :=
  Sorted (fun a b => EmailQueueItem.priority b <= EmailQueueItem.priority a) l.

(** The entries of one priority tier, in queue order. *)
Definition tier (p : Z) (l : list EmailQueueItem.t) : list EmailQueueItem.t :=
  List.filter (fun x => EmailQueueItem.priority x =? p) l.

(** Sequences of calls on a queue. *)
Inductive Call :=
| Enqueue (email : EmailRequest.t) (priority now : Z)
| Dequeue
| Clear.

Definition call (c : Call) (q : t) : t :=
  match c with
  | Enqueue email priority now => (enqueue email priority now q).2
  | Dequeue => (dequeue q).2
  | Clear => clear q
  end.

Definition calls (cs : list Call) (q : t) : t :=
  foldl (fun q c => call c q) q cs.

(** The id of the request at the head of the queue. *)
Definition next_id (q : t) : option string :=
  (fun item => EmailRequest.id (EmailQueueItem.email item)) <$> head (queue q).
End EmailQueue.

(** ** The provider capability of types.ts

    A provider talks to the outside world (network, random failures).  The
    outside world is a state of type [Ext] that [send] and [isHealthy]
    read and change; [send] also reports how many milliseconds went by
    while the call was awaited.  [isHealthy] is called without [await] and
    outside the [try] block of the pipeline: it returns a boolean, or it
    throws. *)

Module EmailProvider.
(** How the promise of [send] settles; [rejected] carries the message of
    the error thrown. *)
Inductive Outcome := resolved | rejected (message : string).

(** What a call of [isHealthy] does. *)
Inductive Health := reports (healthy : bool) | throws.

Record t {Ext : Type} := mk {
  name : string;
  send : EmailRequest.t -> Ext -> Outcome * N * Ext;
  isHealthy : Ext -> Health * Ext
}.
Arguments t : clear implicits.
End EmailProvider.

(** ** EmailService.ts *)

Module EmailService.

(** A call either returns a value or throws. *)
Inductive Completion (A : Type) := Returned (a : A) | Thrown.
Arguments Returned {A} a.
Arguments Thrown {A}.

(** [Partial<EmailServiceConfig>] *)
Record PartialConfig := mkPartial {
  p_maxRetries : option nat;
  p_retryDelayMs : option Z;
  p_rateLimitMax : option nat;
  p_rateLimitWindowMs : option Z;
  p_circuitBreakerThreshold : option nat;
  p_circuitBreakerTimeoutMs : option Z;
  p_queueMaxSize : option nat;
  p_queueProcessIntervalMs : option Z
}.

Definition noConfig : PartialConfig :=
  mkPartial None None None None None None None None.

(** The defaults of the constructor, overridden by the fields given. *)
Definition mergeConfig (c : PartialConfig) : EmailServiceConfig.t :=
  EmailServiceConfig.mk
    (default 3%nat (p_maxRetries c))
    (default 100 (p_retryDelayMs c))
    (default 10%nat (p_rateLimitMax c))
    (default 1000 (p_rateLimitWindowMs c))
    (default 3%nat (p_circuitBreakerThreshold c))
    (default 10000 (p_circuitBreakerTimeoutMs c))
    (default 1000%nat (p_queueMaxSize c))
    (default 100 (p_queueProcessIntervalMs c)).

Section Engine.
Context {Ext : Type}.

(** The clock and the outside world. *)
Record World := mkWorld { clock : Z; ext : Ext }.

Definition set_ext (x : Ext) (w : World) : World := mkWorld (clock w) x.

(** Time goes forward by [d] milliseconds. *)
Definition elapse (d : N) (w : World) : World :=
  mkWorld (clock w + Z.of_N d) (ext w).

(** [await this.sleep(ms)], a promise resolved by [setTimeout]. *)
Definition sleep (ms : Z) (w : World) : World :=
  elapse (Z.to_N (timerDelay ms)) w.

Record t := mk {
  providers : list (EmailProvider.t Ext);
  statusMap : gmap string EmailStatus.t;
  rateLimiter : RateLimiter.t;
  sentEmails : gset string;
  breakerMap : gmap string CircuitBreaker.t;
  queue : EmailQueue.t;
  config : EmailServiceConfig.t;
  processing : bool
}.

Definition set_statusMap (m : gmap string EmailStatus.t) (s : t) : t :=
  mk (providers s) m (rateLimiter s) (sentEmails s) (breakerMap s)
     (queue s) (config s) (processing s).

Definition set_rateLimiter (r : RateLimiter.t) (s : t) : t :=
  mk (providers s) (statusMap s) r (sentEmails s) (breakerMap s)
     (queue s) (config s) (processing s).

Definition set_sentEmails (x : gset string) (s : t) : t :=
  mk (providers s) (statusMap s) (rateLimiter s) x (breakerMap s)
     (queue s) (config s) (processing s).

Definition set_breakerMap (m : gmap string CircuitBreaker.t) (s : t) : t :=
  mk (providers s) (statusMap s) (rateLimiter s) (sentEmails s) m
     (queue s) (config s) (processing s).

Definition set_queue (q : EmailQueue.t) (s : t) : t :=
  mk (providers s) (statusMap s) (rateLimiter s) (sentEmails s)
     (breakerMap s) q (config s) (processing s).

Definition set_processing (b : bool) (s : t) : t :=
  mk (providers s) (statusMap s) (rateLimiter s) (sentEmails s)
     (breakerMap s) (queue s) (config s) b.

(** The constructor. *)
Definition new (providers : list (EmailProvider.t Ext)) (c : PartialConfig) : t :=
  let config := mergeConfig c in
  mk providers ∅
     (RateLimiter.new (EmailServiceConfig.rateLimitMax config)
        (EmailServiceConfig.rateLimitWindowMs config))
     ∅
     (foldl (fun m provider =>
               <[EmailProvider.name provider :=
                   CircuitBreaker.new
                     (EmailServiceConfig.circuitBreakerThreshold config)
                     (EmailServiceConfig.circuitBreakerTimeoutMs config)]> m)
            ∅ providers)
     (EmailQueue.new (EmailServiceConfig.queueMaxSize config))
     config false.

(** *** processEmail *)

(** The [while (attempt < maxRetries)] loop against one provider.
    [remaining] is [maxRetries - attempt], so the guard of the loop holds
    exactly when [remaining] is a successor.  The result says whether
    the [return status] inside the loop was taken, and gives the Status
    object, the provider's breaker and the world as the loop leaves
    them. *)
Fixpoint retryLoop (config : EmailServiceConfig.t)
    (provider : EmailProvider.t Ext) (email : EmailRequest.t)
    (remaining attempt : nat)
    (status : EmailStatus.t) (breaker : CircuitBreaker.t) (w : World)
  : bool * (EmailStatus.t * CircuitBreaker.t * World) :=
  match remaining with
  | O => (false, (status, breaker, w))
  | S remaining' =>
      let attemptStart := clock w in
      let '(outcome, latency, x) :=
        EmailProvider.send provider email (ext w) in
      let w1 := set_ext x (elapse latency w) in
      let attemptDuration := clock w1 - attemptStart in
      match outcome with
      | EmailProvider.resolved =>
          let emailAttempt :=
            EmailAttempt.mk (EmailProvider.name provider) (clock w1)
              true None attemptDuration in
          let status1 := EmailStatus.push emailAttempt status in
          let status2 := EmailStatus.set_status EmailStatus.sent status1 in
          let status3 :=
            EmailStatus.set_provider (EmailProvider.name provider) status2 in
          let status4 := EmailStatus.set_retryCount attempt status3 in
          (true, (status4, breaker, w1))
      | EmailProvider.rejected message =>
          let emailAttempt :=
            EmailAttempt.mk (EmailProvider.name provider) (clock w1)
              false (Some message) attemptDuration in
          let status1 := EmailStatus.push emailAttempt status in
          let breaker1 := CircuitBreaker.recordFailure (clock w1) breaker in
          let attempt1 := S attempt in
          let w2 :=
            if (attempt1 <? EmailServiceConfig.maxRetries config)%nat
            then sleep (EmailServiceConfig.retryDelayMs config
                        * 2 ^ (Z.of_nat attempt1 - 1)) w1
            else w1 in
          retryLoop config provider email remaining' attempt1
            status1 breaker1 w2
      end
  end.

(** How the [for (const provider of this.providers)] loop is left. *)
Inductive Exit := ExitSent | ExitExhausted | ExitThrown.

(** The loop over the providers.  A provider without a breaker in
    [breakerMap] makes [breaker.isOpen()] throw a TypeError, and a health
    check that throws is not caught either: both end the loop, and the
    call, with the exception. *)
Fixpoint tryProviders (config : EmailServiceConfig.t) (email : EmailRequest.t)
    (ps : list (EmailProvider.t Ext))
    (status : EmailStatus.t) (breakers : gmap string CircuitBreaker.t)
    (w : World)
  : Exit * (EmailStatus.t * gmap string CircuitBreaker.t * World) :=
  match ps with
  | [] => (ExitExhausted, (status, breakers, w))
  | provider :: rest =>
      let key := EmailProvider.name provider in
      match breakers !! key with
      | None => (ExitThrown, (status, breakers, w))
      | Some breaker =>
          let '(isOpen, breaker1) := CircuitBreaker.isOpen (clock w) breaker in
          let breakers1 := <[key := breaker1]> breakers in
          if isOpen then tryProviders config email rest status breakers1 w
          else
            let '(health, x) := EmailProvider.isHealthy provider (ext w) in
            let w1 := set_ext x w in
            match health with
            | EmailProvider.throws => (ExitThrown, (status, breakers1, w1))
            | EmailProvider.reports healthy =>
                if negb healthy
                then tryProviders config email rest status breakers1 w1
                else
                  let '(done, (status2, breaker2, w2)) :=
                    retryLoop config provider email
                      (EmailServiceConfig.maxRetries config) 0
                      status breaker1 w1 in
                  let breakers2 := <[key := breaker2]> breakers1 in
                  if done then (ExitSent, (status2, breakers2, w2))
                  else tryProviders config email rest status2 breakers2 w2
            end
      end
  end.

(** The Status object is created, stored under the id, and then mutated
    in place by the pipeline; the map entry is written back with the
    object's value when the call completes.  A call that throws leaves the
    Status as it was at that point, in state [pending]. *)
Definition processEmail (email : EmailRequest.t) (s : t) (w : World)
  : Completion EmailStatus.t * t * World :=
  let key := EmailRequest.id email in
  let status := EmailStatus.mk EmailStatus.pending None None (clock w) 0 [] in
  let s0 := set_statusMap (<[key := status]> (statusMap s)) s in
  let '(exit, (status1, breakers, w1)) :=
    tryProviders (config s0) email (providers s0) status (breakerMap s0) w in
  let s1 := set_breakerMap breakers s0 in
  match exit with
  | ExitSent =>
      (Returned status1,
       set_sentEmails ({[key]} ∪ sentEmails s1)
         (set_statusMap (<[key := status1]> (statusMap s1)) s1),
       w1)
  | ExitExhausted =>
      let status2 :=
        EmailStatus.set_error "All providers failed after retries"
          (EmailStatus.set_status EmailStatus.failed status1) in
      (Returned status2,
       set_statusMap (<[key := status2]> (statusMap s1)) s1, w1)
  | ExitThrown =>
      (Thrown, set_statusMap (<[key := status1]> (statusMap s1)) s1, w1)
  end.

(** *** sendEmail

    The idempotent branch returns [this.statusMap.get(email.id)!], which
    is [undefined] ([None]) when the map has no entry. *)
Definition sendEmail (email : EmailRequest.t) (s : t) (w : World)
  : Completion (option EmailStatus.t) * t * World :=
  let key := EmailRequest.id email in
  if bool_decide (key ∈ sentEmails s) then (Returned (statusMap s !! key), s, w)
  else
    let '(allowed, limiter) := RateLimiter.allow (clock w) (rateLimiter s) in
    let s1 := set_rateLimiter limiter s in
    if negb allowed then
      let status :=
        EmailStatus.mk EmailStatus.rate_limited None
          (Some "Rate limit exceeded"%string) (clock w) 0 [] in
      (Returned (Some status),
       set_statusMap (<[key := status]> (statusMap s1)) s1, w)
    else
      match processEmail email s1 w with
      | (Returned status, s2, w2) => (Returned (Some status), s2, w2)
      | (Thrown, s2, w2) => (Thrown, s2, w2)
      end.

(** *** The queue of the service *)

Definition getq (sw : t * World) : EmailQueue.t := queue sw.1.
Definition setq (q : EmailQueue.t) (sw : t * World) : t * World :=
  (set_queue q sw.1, sw.2).
Definition now (sw : t * World) : Z := clock sw.2.
Definition pause (ms : Z) (sw : t * World) : t * World := (sw.1, sleep ms sw.2).

(** The callback installed by the constructor:
    [async (email) => { await this.processEmail(email); }] *)
Definition processCallback (email : EmailRequest.t) (sw : t * World)
  : EmailQueue.Settled * (t * World) :=
  match processEmail email sw.1 sw.2 with
  | (Returned _, s, w) => (EmailQueue.Resolved, (s, w))
  | (Thrown, s, w) => (EmailQueue.Rejected, (s, w))
  end.

(** [startQueueProcessing], up to the first sleep of the queue's loop. *)
Definition startQueueProcessing (sw : t * World) : t * World :=
  if processing sw.1 then sw
  else
    EmailQueue.startProcessing getq setq now (Some processCallback)
      (set_processing true sw.1, sw.2).

(** One more turn of a loop that is running, and the sleep after it. *)
Definition drain (sw : t * World) : t * World :=
  EmailQueue.loop getq setq now pause (Some processCallback)
    (EmailServiceConfig.queueProcessIntervalMs (config sw.1)) 1 sw.

(** The body of the loop with the callback of the engine, run once. *)
Definition turn (sw : t * World) : t * World :=
  EmailQueue.cycle getq setq now (Some processCallback) sw.

Definition stopQueueProcessing (s : t) : t :=
  set_queue (EmailQueue.stopProcessing (queue s)) (set_processing false s).

(** *** queueEmail

    The Status object stored in the map is the one that is overwritten
    when [enqueue] fails, and it is the object returned.
    [startQueueProcessing] is called without [await], also after a refused
    [enqueue]: the loop takes the head of the queue before the call
    returns, and its pipeline stores a Status object of its own under the
    id of that entry.  The turn is followed to its end here; when the call
    returns, the pipeline has got as far as its first [await]. *)
Definition queueEmail (email : EmailRequest.t) (priority : option Z)
    (s : t) (w : World)
  : Completion (option EmailStatus.t) * t * World :=
  let key := EmailRequest.id email in
  if bool_decide (key ∈ sentEmails s) then (Returned (statusMap s !! key), s, w)
  else
    let status := EmailStatus.mk EmailStatus.queued None None (clock w) 0 [] in
    let s1 := set_statusMap (<[key := status]> (statusMap s)) s in
    let '(success, q) :=
      EmailQueue.enqueue email (default 0 priority) (clock w) (queue s1) in
    let s2 := set_queue q s1 in
    let status1 :=
      if success then status
      else EmailStatus.set_error "Queue is full"
             (EmailStatus.set_status EmailStatus.failed status) in
    let s3 := set_statusMap (<[key := status1]> (statusMap s2)) s2 in
    let '(s4, w4) :=
      if negb (processing s3) then startQueueProcessing (s3, w) else (s3, w) in
    (Returned (Some status1), s4, w4).

(** *** Observers and [clear] *)

Definition getStatus (emailId : string) (s : t) : option EmailStatus.t :=
  statusMap s !! emailId.

Definition getAllStatuses (s : t) : gmap string EmailStatus.t := statusMap s.

Definition getQueueStats (s : t) : EmailQueue.Stats :=
  EmailQueue.getStats (queue s).

(** [getServiceStats].  The counts scan the Status map.  The list of
    breakers is given as the map from provider name to the verdict of
    [isOpen]; evaluating [isOpen] resets the breakers whose timeout has
    gone by, so the call also returns the engine.  [successRate], a
    floating-point quotient of two of the counts, is left out. *)
Record ServiceStats := mkServiceStats {
  totalEmails : nat;
  sentCount : nat;
  failedEmails : nat;
  queuedEmails : nat;
  queueStats : EmailQueue.Stats;
  circuitBreakers : gmap string bool
}.

Definition countStatus (x : EmailStatus.State) (m : gmap string EmailStatus.t) : nat :=
  length (List.filter (fun kv => bool_decide (EmailStatus.status kv.2 = x))
            (map_to_list m)).

Definition getServiceStats (s : t) (w : World) : ServiceStats * t :=
  (mkServiceStats (size (statusMap s))
     (countStatus EmailStatus.sent (statusMap s))
     (countStatus EmailStatus.failed (statusMap s))
     (countStatus EmailStatus.queued (statusMap s))
     (EmailQueue.getStats (queue s))
     ((fun breaker => (CircuitBreaker.isOpen (clock w) breaker).1) <$> breakerMap s),
   set_breakerMap
     ((fun breaker => (CircuitBreaker.isOpen (clock w) breaker).2) <$> breakerMap s) s).

Definition clear (s : t) : t :=
  set_breakerMap (CircuitBreaker.reset <$> breakerMap s)
    (set_queue (EmailQueue.clear (queue s))
       (set_sentEmails ∅ (set_statusMap ∅ s))).

(** *** The engine as a transition system

    Each public operation runs to completion, and each turn of the
    background loop after its first is a transition of its own. *)
Inductive Op :=
| OpSendEmail (email : EmailRequest.t)
| OpQueueEmail (email : EmailRequest.t) (priority : option Z)
| OpStartQueueProcessing
| OpStopQueueProcessing
| OpGetServiceStats
| OpClear
| OpDrain
| OpWait (d : N).

Definition step (op : Op) (sw : t * World) : t * World :=
  match op with
  | OpSendEmail email =>
      let '(_, s, w) := sendEmail email sw.1 sw.2 in (s, w)
  | OpQueueEmail email priority =>
      let '(_, s, w) := queueEmail email priority sw.1 sw.2 in (s, w)
  | OpStartQueueProcessing => startQueueProcessing sw
  | OpStopQueueProcessing => (stopQueueProcessing sw.1, sw.2)
  | OpGetServiceStats => ((getServiceStats sw.1 sw.2).2, sw.2)
  | OpClear => (clear sw.1, sw.2)
  | OpDrain => drain sw
  | OpWait d => (sw.1, elapse d sw.2)
  end.

Definition steps (ops : list Op) (sw : t * World) : t * World :=
  foldl (fun sw op => step op sw) sw ops.


(** The states the engine can get to from its construction. *)
Definition reachable (sw : t * World) : Prop :=
  ∃ providers c w history, sw = steps history (new providers c, w).

(** Every Status in state [sent] belongs to an id of the sent-set. *)
Definition sent_recorded (s : t) : Prop :=
  ∀ key status,
    statusMap s !! key = Some status →
    EmailStatus.status status = EmailStatus.sent →
    key ∈ sentEmails s.

(** Every id of the sent-set has a Status. *)
Definition sent_known (s : t) : Prop :=
  ∀ key, key ∈ sentEmails s → is_Some (statusMap s !! key).

(** The only change to the Status map and the sent-set between [s] and
    [s'] is a new Status under [key], the key joining the sent-set
    exactly when that Status is in state [sent]. *)
Definition records (key : string) (s s' : t) : Prop :=
  ∃ status,
    statusMap s' = <[key := status]> (statusMap s)
    ∧ ((EmailStatus.status status = EmailStatus.sent
        ∧ sentEmails s' = {[key]} ∪ sentEmails s)
       ∨ (EmailStatus.status status ≠ EmailStatus.sent
          ∧ sentEmails s' = sentEmails s)).

(** Neither the Status map nor the sent-set differ. *)
Definition same_records (s s' : t) : Prop :=
  statusMap s' = statusMap s ∧ sentEmails s' = sentEmails s.

(** Every id of the sent-set has a Status, and it is in state [sent]. *)
Definition sent_consistent (s : t) : Prop :=
  ∀ key, key ∈ sentEmails s →
    ∃ status, statusMap s !! key = Some status
              ∧ EmailStatus.status status = EmailStatus.sent.

(** *** Vocabulary for statements about providers *)

Definition always_healthy (p : EmailProvider.t Ext) : Prop :=
  ∀ x, (EmailProvider.isHealthy p x).1 = EmailProvider.reports true.

Definition always_fails (p : EmailProvider.t Ext) : Prop :=
  ∀ email x, ∃ message,
    (EmailProvider.send p email x).1.1 = EmailProvider.rejected message.

Definition always_succeeds (p : EmailProvider.t Ext) : Prop :=
  ∀ email x, (EmailProvider.send p email x).1.1 = EmailProvider.resolved.

(** The provider has a breaker and [isOpen] says closed at [now]. *)
Definition closed_at (now : Z) (breakers : gmap string CircuitBreaker.t)
    (p : EmailProvider.t Ext) : Prop :=
  ∃ breaker, breakers !! EmailProvider.name p = Some breaker
             ∧ (CircuitBreaker.isOpen now breaker).1 = false.

Definition failed_attempt (p : EmailProvider.t Ext) (a : EmailAttempt.t) : Prop :=
  EmailAttempt.provider a = EmailProvider.name p
  ∧ EmailAttempt.success a = false.

Definition successful_attempt (p : EmailProvider.t Ext) (a : EmailAttempt.t) : Prop :=
  EmailAttempt.provider a = EmailProvider.name p
  ∧ EmailAttempt.success a = true
  ∧ EmailAttempt.error a = None.

(** *** Vocabulary for statements about the pipeline as a whole *)

Definition never_healthy (p : EmailProvider.t Ext) : Prop :=
  ∀ x, (EmailProvider.isHealthy p x).1 = EmailProvider.reports false.

(** The health check of the provider returns: it never throws. *)
Definition health_check_returns (p : EmailProvider.t Ext) : Prop :=
  ∀ x, (EmailProvider.isHealthy p x).1 ≠ EmailProvider.throws.

(** No entry of the queue is for the id [key]. *)
Definition not_queued (key : string) (s : t) : Prop :=
  Forall (fun item => EmailRequest.id (EmailQueueItem.email item) ≠ key)
    (EmailQueue.queue (queue s)).

(** The attempts of [l] were made one after the other between the times
    [from] and [upto]: each attempt started (its timestamp less its
    duration) no earlier than the one before it ended, and took no negative
    time. *)
Fixpoint chronological (from : Z) (l : list EmailAttempt.t) (upto : Z) : Prop :=
  match l with
  | [] => from ≤ upto
  | a :: l' =>
      from ≤ EmailAttempt.timestamp a - EmailAttempt.duration a
      ∧ 0 ≤ EmailAttempt.duration a
      ∧ chronological (EmailAttempt.timestamp a) l' upto
  end.

(** Two breaker maps have the same keys, and under each key breakers with
    the same threshold and timeout. *)
Definition same_gates (bm bm' : gmap string CircuitBreaker.t) : Prop :=
  ∀ key,
    match bm !! key, bm' !! key with
    | Some b, Some b' =>
        CircuitBreaker.threshold b' = CircuitBreaker.threshold b
        ∧ CircuitBreaker.timeout b' = CircuitBreaker.timeout b
    | None, None => True
    | _, _ => False
    end.

(** Every provider of the engine has a breaker, set up as configured. *)
Definition has_breakers (s : t) : Prop :=
  ∀ p, p ∈ providers s →
    ∃ b, breakerMap s !! EmailProvider.name p = Some b
         ∧ CircuitBreaker.threshold b
           = EmailServiceConfig.circuitBreakerThreshold (config s)
         ∧ CircuitBreaker.timeout b
           = EmailServiceConfig.circuitBreakerTimeoutMs (config s).

(** The engine [s'] has the providers and the configuration of [s], and
    breakers under the same keys with the same thresholds and timeouts. *)
Definition same_setup (s s' : t) : Prop :=
  providers s' = providers s ∧ config s' = config s
  ∧ same_gates (breakerMap s) (breakerMap s').

(** From some time on, the two breakers give the same verdict and are left
    in the same state by [isOpen]. *)
Definition alike (now : Z) (b b' : CircuitBreaker.t) : Prop :=
  ∀ now', now ≤ now' → CircuitBreaker.isOpen now' b' = CircuitBreaker.isOpen now' b.

Definition alike_maps (now : Z) (bm bm' : gmap string CircuitBreaker.t) : Prop :=
  ∀ key,
    match bm !! key, bm' !! key with
    | Some b, Some b' => alike now b b'
    | None, None => True
    | _, _ => False
    end.

(** The provider has a breaker, and the pipeline passes it over at time
    [now]: its breaker is open, or it never reports healthy. *)
Definition skipped (now : Z) (breakers : gmap string CircuitBreaker.t)
    (p : EmailProvider.t Ext) : Prop :=
  ∃ breaker, breakers !! EmailProvider.name p = Some breaker
             ∧ ((CircuitBreaker.isOpen now breaker).1 = true ∨ never_healthy p).

(** [sendEmail] for each request of a list, in order; the results come
    back in call order. *)
Fixpoint sendAll (emails : list EmailRequest.t) (s : t) (w : World)
  : list (Completion (option EmailStatus.t)) * (t * World) :=
  match emails with
  | [] => ([], (s, w))
  | email :: emails' =>
      let '(r, s1, w1) := sendEmail email s w in
      let '(rs, sw) := sendAll emails' s1 w1 in
      (r :: rs, sw)
  end.

Definition is_rate_limited (r : Completion (option EmailStatus.t)) : bool :=
  match r with
  | Returned (Some status) =>
      bool_decide (EmailStatus.status status = EmailStatus.rate_limited)
  | _ => false
  end.
End Engine.

Arguments World : clear implicits.
Arguments t : clear implicits.
End EmailService.

(** ** Concrete providers and requests used in examples *)

Module Scenario.
Definition request (id : string) : EmailRequest.t :=
  EmailRequest.mk id "user@example.com" "Welcome!" "Hello there!"
    None None None None None.

(** The outside world of these providers is the number of [send] calls
    made so far. *)
Definition AlwaysFails : EmailProvider.t nat :=
  EmailProvider.mk nat "AlwaysFails"
    (fun _ n => (EmailProvider.rejected "AlwaysFails is down", 5%N, S n))
    (fun n => (EmailProvider.reports true, n)).


Definition AlwaysSucceeds : EmailProvider.t nat :=
  EmailProvider.mk nat "AlwaysSucceeds"
    (fun _ n => (EmailProvider.resolved, 5%N, S n))
    (fun n => (EmailProvider.reports true, n)).

(** Delivers while fewer than [k] sends have been made, fails afterwards. *)
Definition SucceedsUntil (k : nat) : EmailProvider.t nat :=
  EmailProvider.mk nat "SucceedsUntil"
    (fun _ n =>
       (if (n <? k)%nat then EmailProvider.resolved
        else EmailProvider.rejected "SucceedsUntil is down", 5%N, S n))
    (fun n => (EmailProvider.reports true, n)).

(** Fails while fewer than [k] sends have been made, delivers afterwards. *)
Definition FailsUntil (k : nat) : EmailProvider.t nat :=
  EmailProvider.mk nat "FailsUntil"
    (fun _ n =>
       (if (n <? k)%nat then EmailProvider.rejected "FailsUntil is down"
        else EmailProvider.resolved, 5%N, S n))
    (fun n => (EmailProvider.reports true, n)).


(** A provider that would deliver, but whose health check throws. *)
Definition BrokenProbe : EmailProvider.t nat :=
  EmailProvider.mk nat "BrokenProbe"
    (fun _ n => (EmailProvider.resolved, 5%N, S n))
    (fun n => (EmailProvider.throws, n)).

Definition start : EmailService.World nat := EmailService.mkWorld 1000000 0%nat.


Definition noRetries : EmailService.PartialConfig :=
  EmailService.mkPartial (Some 0%nat) None None None None None None None.

Definition singleSlot : EmailService.PartialConfig :=
  EmailService.mkPartial None None None None None None (Some 1%nat) None.
End Scenario.

(** * Properties *)

(** ** Circuit breaker *)

Section CircuitBreakerFacts.
Import CircuitBreaker.

Lemma recordFailure_fields now cb :
  failures (recordFailure now cb) = S (failures cb)
  ∧ lastFailureTime (recordFailure now cb) = now
  ∧ threshold (recordFailure now cb) = threshold cb
  ∧ timeout (recordFailure now cb) = timeout cb.
Proof. done. Qed.

Lemma recordFailures_snoc times now cb :
  recordFailures (times ++ [now]) cb = recordFailure now (recordFailures times cb).
Proof. unfold recordFailures. by rewrite fold_left_app. Qed.

Lemma recordFailures_fields times cb :
  failures (recordFailures times cb) = (failures cb + length times)%nat
  ∧ lastFailureTime (recordFailures times cb)
    = default (lastFailureTime cb) (last times)
  ∧ threshold (recordFailures times cb) = threshold cb
  ∧ timeout (recordFailures times cb) = timeout cb.
Proof.
  induction times as [|now times IH] using rev_ind.
  - cbn. repeat split; lia.
  - rewrite recordFailures_snoc, last_snoc, length_app.
    destruct IH as (Hf & _ & Ht & Hto). cbn [length default].
    repeat split; cbn; try done. rewrite Hf. lia.
Qed.

(** A tripped breaker inside its timeout is open and is left as it is. *)
Lemma isOpen_tripped now cb :
  (threshold cb ≤ failures cb)%nat →
  now - lastFailureTime cb < timeout cb →
  isOpen now cb = (true, cb).
Proof.
  intros Hf Ht. unfold isOpen.
  destruct (Nat.leb_spec (threshold cb) (failures cb)); [|lia].
  destruct (Z.ltb_spec (now - lastFailureTime cb) (timeout cb)); [done|lia].
Qed.

(** A tripped breaker whose timeout has gone by closes and resets. *)
Lemma isOpen_expired now cb :
  (threshold cb ≤ failures cb)%nat →
  timeout cb ≤ now - lastFailureTime cb →
  isOpen now cb = (false, reset cb).
Proof.
  intros Hf Ht. unfold isOpen.
  destruct (Nat.leb_spec (threshold cb) (failures cb)); [|lia].
  destruct (Z.ltb_spec (now - lastFailureTime cb) (timeout cb)); [lia|done].
Qed.

(** A breaker below its threshold is closed and is left as it is. *)
Lemma isOpen_below now cb :
  (failures cb < threshold cb)%nat → isOpen now cb = (false, cb).
Proof.
  intros Hf. unfold isOpen.
  destruct (Nat.leb_spec (threshold cb) (failures cb)); [lia|done].
Qed.

Lemma isOpen_invariants now cb :
  threshold (isOpen now cb).2 = threshold cb
  ∧ timeout (isOpen now cb).2 = timeout cb
  ∧ lastFailureTime (isOpen now cb).2 = lastFailureTime cb
  ∧ (failures (isOpen now cb).2 ≤ failures cb)%nat.
Proof.
  unfold isOpen. repeat case_match; cbn; repeat split; lia.
Qed.

(** Once closed, closed later on as long as no failure is recorded. *)
Lemma isOpen_closed_later now now' cb :
  (isOpen now cb).1 = false → now ≤ now' → (isOpen now' cb).1 = false.
Proof.
  unfold isOpen. intros H Hle.
  destruct (Nat.leb_spec (threshold cb) (failures cb)); [|done].
  destruct (Z.ltb_spec (now - lastFailureTime cb) (timeout cb)); [done|].
  destruct (Z.ltb_spec (now' - lastFailureTime cb) (timeout cb)); [lia|done].
Qed.

Lemma evaluations_tripped evals cb :
  (threshold cb ≤ failures cb)%nat →
  Forall (fun t => t - lastFailureTime cb < timeout cb) evals →
  evaluations evals cb = (repeat true (length evals), cb).
Proof.
  intros Hf. induction 1 as [|t evals Ht _ IH]; [done|].
  cbn. by rewrite isOpen_tripped, IH.
Qed.

Lemma evaluations_app ts1 ts2 cb :
  evaluations (ts1 ++ ts2) cb =
  ((evaluations ts1 cb).1 ++ (evaluations ts2 (evaluations ts1 cb).2).1,
   (evaluations ts2 (evaluations ts1 cb).2).2).
Proof.
  revert cb. induction ts1 as [|t ts1 IH]; intros cb; cbn.
  - by destruct (evaluations ts2 cb).
  - destruct (isOpen t cb) as [o cb1]. rewrite IH.
    by destruct (evaluations ts1 cb1) as [os cb2].
Qed.
End CircuitBreakerFacts.

(** C6 (circuit breaker gate).  Take any breaker on which at least
    [threshold] failures have then been recorded.  Its failure count has
    reached the threshold and its last-failure time is the time of the last
    of these failures.  Every evaluation of [isOpen] made while less than
    [timeout] has elapsed since the last failure returns [true] and leaves the
    breaker as it is; the first evaluation made once [timeout] has elapsed
    returns [false] and resets the failure count to 0. *)
Theorem circuit_breaker_gate
    (cb0 : CircuitBreaker.t) (times evals : list Z) (now : Z) :
  let cb := CircuitBreaker.recordFailures times cb0 in
  (CircuitBreaker.threshold cb0 ≤ length times)%nat →
  Forall (fun t => t - CircuitBreaker.lastFailureTime cb < CircuitBreaker.timeout cb)
    evals →
  CircuitBreaker.timeout cb ≤ now - CircuitBreaker.lastFailureTime cb →
  (CircuitBreaker.threshold cb ≤ CircuitBreaker.failures cb)%nat
  ∧ CircuitBreaker.lastFailureTime cb
    = default (CircuitBreaker.lastFailureTime cb0) (last times)
  ∧ CircuitBreaker.evaluations evals cb = (repeat true (length evals), cb)
  ∧ CircuitBreaker.isOpen now (CircuitBreaker.evaluations evals cb).2
    = (false, CircuitBreaker.reset cb)
  ∧ CircuitBreaker.failures (CircuitBreaker.isOpen now cb).2 = 0%nat.
Proof.
  intros cb Hn Hevals Hnow.
  destruct (recordFailures_fields times cb0) as (Hf & Hl & Ht & Hto).
  assert (CircuitBreaker.threshold cb ≤ CircuitBreaker.failures cb)%nat as Htrip.
  { subst cb. rewrite Hf, Ht. lia. }
  split; [done|]. split; [done|].
  rewrite (evaluations_tripped evals cb Htrip Hevals). cbn [snd].
  rewrite (isOpen_expired now cb Htrip Hnow). done.
Qed.

Lemma circuit_breaker_gate_witness :
  CircuitBreaker.evaluations [4; 5000; 10002]
    (CircuitBreaker.recordFailures [1; 2; 3] (CircuitBreaker.new 3 10000))
  = ([true; true; true], CircuitBreaker.mk 3 3 3 10000)
  ∧ CircuitBreaker.isOpen 10003 (CircuitBreaker.mk 3 3 3 10000)
    = (false, CircuitBreaker.mk 0 3 3 10000).
Proof.
  pose proof (circuit_breaker_gate (CircuitBreaker.new 3 10000) [1; 2; 3]
                [4; 5000; 10002] 10003) as H.
  cbn zeta in H.
  destruct H as (_ & _ & H1 & H2 & _).
  - cbn. lia.
  - cbn. repeat constructor; lia.
  - cbn. lia.
  - split; [exact H1|]. rewrite H1 in H2. exact H2.
Defined.

(** ** Rate limiter *)

Section RateLimiterFacts.
Import RateLimiter.

Lemma allow_fields now rl :
  max (allow now rl).2 = max rl ∧ interval (allow now rl).2 = interval rl.
Proof. unfold allow. by case_match. Qed.

Lemma allow_admits now rl :
  (length (prune now rl) < max rl)%nat →
  allow now rl = (true, mk (prune now rl ++ [now]) (max rl) (interval rl)).
Proof.
  intros H. unfold allow.
  by destruct (Nat.ltb_spec (length (prune now rl)) (max rl)); [|lia].
Qed.

Lemma allow_denies now rl :
  (max rl ≤ length (prune now rl))%nat →
  allow now rl = (false, mk (prune now rl) (max rl) (interval rl)).
Proof.
  intros H. unfold allow.
  by destruct (Nat.ltb_spec (length (prune now rl)) (max rl)); [lia|].
Qed.

Lemma prune_spec now rl t :
  In t (prune now rl) ↔ In t (requests rl) ∧ now - t < interval rl.
Proof. unfold prune. rewrite filter_In, Z.ltb_lt. done. Qed.

(** A filter by a stronger test keeps fewer elements. *)
Lemma filter_length_le {A} (f g : A → bool) (l : list A) :
  (∀ x, f x = true → g x = true) →
  (length (List.filter f l) ≤ length (List.filter g l))%nat.
Proof.
  intros Hfg. induction l as [|x l IH]; cbn; [done|].
  destruct (f x) eqn:Hf.
  - rewrite (Hfg x Hf). cbn. lia.
  - destruct (g x); cbn; lia.
Qed.

Lemma filter_filter_weaker {A} (f g : A → bool) (l : list A) :
  (∀ x, f x = true → g x = true) →
  List.filter f (List.filter g l) = List.filter f l.
Proof.
  intros Hfg. induction l as [|x l IH]; cbn; [done|].
  destruct (g x) eqn:Hg; cbn.
  - destruct (f x); by rewrite IH.
  - destruct (f x) eqn:Hf; [|done]. rewrite (Hfg x Hf) in Hg. done.
Qed.

Lemma admitted_cons_true t log : admitted ((t, true) :: log) = t :: admitted log.
Proof. done. Qed.

Lemma admitted_cons_false t log : admitted ((t, false) :: log) = admitted log.
Proof. done. Qed.

Lemma in_window_snoc w T A t :
  in_window w T (A ++ [t]) =
  (in_window w T A + (if ((t <=? T) && (T - t <? w))%Z then 1 else 0))%nat.
Proof.
  unfold in_window. rewrite List.filter_app, length_app. cbn.
  by destruct ((t <=? T) && (T - t <? w)).
Qed.

Lemma tracks_allow now now' A rl :
  0 < interval rl → now ≤ now' → tracks now A rl →
  tracks now' (A ++ if (allow now' rl).1 then [now'] else []) (allow now' rl).2.
Proof.
  intros Hw Hle (Hreq & Hlen & Hwin).
  assert (prune now' rl = List.filter (fun t => now' - t <? interval rl) A) as Hkept.
  { unfold prune. rewrite Hreq. apply filter_filter_weaker.
    intros x. rewrite !Z.ltb_lt. lia. }
  assert (length (prune now' rl) ≤ max rl)%nat as Hkl.
  { etrans; [|exact Hlen]. rewrite Hkept, Hreq.
    apply filter_length_le. intros x. rewrite !Z.ltb_lt. lia. }
  destruct (Nat.ltb_spec (length (prune now' rl)) (max rl)) as [Hlt|Hge].
  - rewrite (allow_admits _ _ Hlt). cbn [fst snd].
    split; [|split]; cbn [requests max interval].
    + rewrite List.filter_app, <- Hkept. cbn.
      by destruct (Z.ltb_spec (now' - now') (interval rl)); [|lia].
    + rewrite length_app. cbn. lia.
    + intros T. rewrite in_window_snoc.
      destruct (Z.leb_spec now' T) as [HT|HT]; cbn [andb].
      * destruct (Z.ltb_spec (T - now') (interval rl)) as [HTw|HTw].
        -- (* the window of [T] lies inside the window of [now'] *)
           etrans; [|exact Hlt].
           rewrite Hkept. unfold in_window. rewrite Nat.add_comm. cbn.
           apply le_n_S, filter_length_le.
           intros x. rewrite andb_true_iff, Z.leb_le, !Z.ltb_lt. lia.
        -- rewrite Nat.add_0_r. apply Hwin.
      * rewrite Nat.add_0_r. apply Hwin.
  - rewrite (allow_denies _ _ Hge). cbn [fst snd]. rewrite app_nil_r.
    split; [|split]; cbn [requests max interval]; done.
Qed.

Lemma run_tracks gaps : ∀ now A rl,
  0 < interval rl → tracks now A rl →
  ∀ T, (in_window (interval rl) T (A ++ admitted (run now gaps rl).1) ≤ max rl)%nat.
Proof.
  induction gaps as [|d gaps IH]; intros now A rl Hw Htr T.
  - cbn. rewrite app_nil_r. apply Htr.
  - cbn [run].
    pose proof (tracks_allow now (now + Z.of_N d) A rl Hw ltac:(lia) Htr) as Hstep.
    pose proof (allow_fields (now + Z.of_N d) rl) as [Hmax Hint].
    destruct (allow (now + Z.of_N d) rl) as [ok rl1] eqn:Hallow.
    cbn [fst snd] in *.
    specialize (IH (now + Z.of_N d) _ rl1 ltac:(by rewrite Hint) Hstep T).
    destruct (run (now + Z.of_N d) gaps rl1) as [log rl2] eqn:Hrun.
    cbn [fst snd] in *. rewrite Hint, Hmax in IH.
    destruct ok.
    + rewrite admitted_cons_true. by rewrite <- app_assoc in IH.
    + rewrite admitted_cons_false. by rewrite app_nil_r in IH.
Qed.

Lemma in_window_empty w T A : w ≤ 0 → in_window w T A = 0%nat.
Proof.
  intros Hw. unfold in_window. induction A as [|t A IH]; cbn; [done|].
  destruct (Z.leb_spec t T); cbn; [|done].
  by destruct (Z.ltb_spec (T - t) w); [lia|].
Qed.

Lemma run_window_bound max interval now gaps T :
  (in_window interval T (admitted (run now gaps (new max interval)).1) ≤ max)%nat.
Proof.
  destruct (Z.le_gt_cases interval 0) as [Hw|Hw].
  - rewrite in_window_empty by done. lia.
  - apply (run_tracks gaps now [] (new max interval)); [cbn; lia|].
    split; [done|]. split; [cbn; lia|]. intros T'. cbn. lia.
Qed.
End RateLimiterFacts.

(** C8 (rate limiter admission).  On a call of [allow] at time [now] the
    recorded timestamps are first pruned to those of them that lie within the
    trailing window ([now - t < interval]), in their order; if fewer than
    [max] remain, [now] is recorded behind them and the call is allowed,
    otherwise the call is denied and nothing is recorded.  Hence, over any run
    of calls made from a fresh limiter as time goes forward, at most [max]
    admitted calls fall inside any trailing window of length [interval]. *)
Theorem rate_limiter_admission :
  (∀ now rl,
     let kept := RateLimiter.prune now rl in
     (∀ t, In t kept ↔ In t (RateLimiter.requests rl) ∧ now - t < RateLimiter.interval rl)
     ∧ sublist kept (RateLimiter.requests rl)
     ∧ ((length kept < RateLimiter.max rl)%nat →
        (RateLimiter.allow now rl).1 = true
        ∧ RateLimiter.requests (RateLimiter.allow now rl).2 = kept ++ [now])
     ∧ ((RateLimiter.max rl ≤ length kept)%nat →
        (RateLimiter.allow now rl).1 = false
        ∧ RateLimiter.requests (RateLimiter.allow now rl).2 = kept))
  ∧ (∀ max interval now gaps T,
       (RateLimiter.in_window interval T
          (RateLimiter.admitted
             (RateLimiter.run now gaps (RateLimiter.new max interval)).1)
        ≤ max)%nat).
Proof.
  split.
  - intros now rl kept. split; [apply prune_spec|]. split.
    { unfold kept, RateLimiter.prune.
      induction (RateLimiter.requests rl) as [|x l IH]; cbn; [constructor|].
      case_match; by constructor. }
    split; intros H.
    + by rewrite (allow_admits now rl H).
    + by rewrite (allow_denies now rl H).
  - apply run_window_bound.
Qed.

(** ** Priority queue *)

Section EmailQueueFacts.
Import EmailQueue.

Local Abbreviation prio := EmailQueueItem.priority.
Local Abbreviation desc := (fun a b : EmailQueueItem.t => prio b <= prio a).

Lemma findIndex_None {A} (f : A → bool) l :
  findIndex f l = None → Forall (fun x => f x = false) l.
Proof.
  induction l as [|x l IH]; cbn; [constructor|].
  destruct (f x) eqn:Hf; [done|].
  destruct (findIndex f l); [done|]. intros _. constructor; auto.
Qed.

(** The index found splits the array into the elements that fail the test
    and a rest that starts with the first element passing it. *)
Lemma findIndex_Some {A} (f : A → bool) l i :
  findIndex f l = Some i →
  Forall (fun x => f x = false) (take i l)
  ∧ ∃ x rest, drop i l = x :: rest ∧ f x = true.
Proof.
  revert i. induction l as [|x l IH]; intros i; cbn; [done|].
  destruct (f x) eqn:Hf.
  - intros [= <-]. cbn. split; [constructor|]. eauto.
  - destruct (findIndex f l) as [j|] eqn:Hj; [|done].
    intros [= <-]. cbn. destruct (IH j eq_refl) as [Htake Hdrop].
    split; [by constructor|done].
Qed.

Lemma sorted_strongly l : sorted l ↔ StronglySorted desc l.
Proof.
  split.
  - apply Sorted_StronglySorted. intros a b c. lia.
  - apply StronglySorted_Sorted.
Qed.

Lemma strongly_sorted_app_inv (l1 l2 : list EmailQueueItem.t) :
  StronglySorted desc (l1 ++ l2) →
  StronglySorted desc l1 ∧ StronglySorted desc l2
  ∧ ∀ a b, In a l1 → In b l2 → prio b <= prio a.
Proof.
  induction l1 as [|x l1 IH]; cbn; intros H.
  - split; [constructor|]. split; [done|]. intros a b [].
  - apply StronglySorted_inv in H as [H Hx].
    destruct (IH H) as (H1 & H2 & H12).
    rewrite Forall_app in Hx. destruct Hx as [Hx1 Hx2].
    split; [by constructor|]. split; [done|].
    intros a b [<-|Ha] Hb.
    + rewrite List.Forall_forall in Hx2. by apply Hx2.
    + by apply H12.
Qed.

Lemma strongly_sorted_insert (l1 l2 : list EmailQueueItem.t) x :
  StronglySorted desc (l1 ++ l2) →
  Forall (fun a => prio x <= prio a) l1 →
  Forall (fun b => prio b <= prio x) l2 →
  StronglySorted desc (l1 ++ x :: l2).
Proof.
  induction l1 as [|a l1 IH]; cbn; intros H H1 H2.
  - by constructor.
  - apply StronglySorted_inv in H as [H Ha].
    apply Forall_cons in H1 as [Hax H1].
    constructor; [by apply IH|].
    rewrite Forall_app in Ha. destruct Ha as [Ha1 Ha2].
    rewrite Forall_app. split; [done|]. by constructor.
Qed.

(** Where [enqueue] puts the new entry in a queue that is in order. *)
Lemma enqueue_splits q e p now :
  sorted (queue q) → (length (queue q) < maxSize q)%nat →
  ∃ front back,
    queue q = front ++ back
    ∧ enqueue e p now q
      = (true, set_queue (front ++ EmailQueueItem.mk e p now 0 :: back) q)
    ∧ Forall (fun x => p <= prio x) front
    ∧ Forall (fun x => prio x < p) back.
Proof.
  intros Hs Hlen. unfold enqueue.
  destruct (Nat.leb_spec (maxSize q) (length (queue q))); [lia|].
  destruct (findIndex _ (queue q)) as [i|] eqn:Hi.
  - apply findIndex_Some in Hi as (Htake & x & rest & Hdrop & Hx).
    exists (take i (queue q)), (drop i (queue q)).
    split; [by rewrite take_drop|]. split; [done|]. split.
    + eapply Forall_impl; [exact Htake|]. cbn. intros a Ha.
      apply Z.ltb_ge in Ha. done.
    + apply Z.ltb_lt in Hx.
      apply sorted_strongly in Hs. rewrite <- (take_drop i (queue q)) in Hs.
      apply strongly_sorted_app_inv in Hs as (_ & Hs & _).
      rewrite Hdrop in Hs |- *. apply StronglySorted_inv in Hs as [_ Hrest].
      constructor; [done|].
      eapply Forall_impl; [exact Hrest|]. cbn. intros b Hb. lia.
  - apply findIndex_None in Hi.
    exists (queue q), []. rewrite app_nil_r.
    split; [done|]. split; [done|]. split; [|constructor].
    eapply Forall_impl; [exact Hi|]. cbn. intros a Ha.
    apply Z.ltb_ge in Ha. done.
Qed.

Lemma enqueue_full q e p now :
  (maxSize q ≤ length (queue q))%nat → enqueue e p now q = (false, q).
Proof.
  intros H. unfold enqueue.
  by destruct (Nat.leb_spec (maxSize q) (length (queue q))); [|lia].
Qed.

Lemma enqueue_sorted q e p now :
  sorted (queue q) → sorted (queue (enqueue e p now q).2).
Proof.
  intros Hs.
  destruct (Nat.le_gt_cases (maxSize q) (length (queue q))) as [Hfull|Hroom].
  - by rewrite enqueue_full.
  - destruct (enqueue_splits q e p now Hs Hroom) as (front & back & Hq & -> & Hf & Hb).
    cbn. apply sorted_strongly. apply strongly_sorted_insert; [| done |].
    + rewrite <- Hq. by apply sorted_strongly.
    + eapply Forall_impl; [exact Hb|]. cbn. intros b Hb'. lia.
Qed.

Lemma enqueue_fields q e p now :
  maxSize (enqueue e p now q).2 = maxSize q
  ∧ processing (enqueue e p now q).2 = processing q
  ∧ (length (queue (enqueue e p now q).2) ≤ Nat.max (length (queue q)) (maxSize q))%nat.
Proof.
  unfold enqueue, splice_in. repeat case_match; cbn; repeat split; try lia.
  - rewrite length_app. cbn.
    pose proof (take_drop n (queue q)) as Htd.
    apply (f_equal length) in Htd. rewrite length_app in Htd.
    apply Nat.leb_gt in H. lia.
  - rewrite length_app. cbn. apply Nat.leb_gt in H. lia.
Qed.

Lemma dequeue_sorted q : sorted (queue q) → sorted (queue (dequeue q).2).
Proof.
  unfold dequeue. destruct (queue q) as [|x l] eqn:Hq; cbn.
  - by rewrite Hq.
  - intros H. by apply Sorted_inv in H as [H _].
Qed.

Lemma call_sorted c q : sorted (queue q) → sorted (queue (call c q)).
Proof.
  destruct c; cbn [call].
  - apply enqueue_sorted.
  - apply dequeue_sorted.
  - intros _. constructor.
Qed.

Lemma calls_sorted cs q : sorted (queue q) → sorted (queue (calls cs q)).
Proof.
  revert q. induction cs as [|c cs IH]; intros q Hs; [done|].
  change (calls (c :: cs) q) with (calls cs (call c q)).
  apply IH. by apply call_sorted.
Qed.

(** The capacity is never exceeded by a queue that starts empty. *)
Lemma call_within c q :
  (length (queue q) ≤ maxSize q)%nat →
  maxSize (call c q) = maxSize q
  ∧ (length (queue (call c q)) ≤ maxSize q)%nat.
Proof.
  intros H. destruct c; cbn [call].
  - destruct (enqueue_fields q email priority now) as (Hm & _ & Hl).
    split; [done|]. lia.
  - unfold dequeue. destruct (queue q) eqn:Hq; cbn in *; rewrite ?Hq; cbn; lia.
  - cbn. lia.
Qed.

Lemma calls_within cs q :
  (length (queue q) ≤ maxSize q)%nat →
  maxSize (calls cs q) = maxSize q
  ∧ (length (queue (calls cs q)) ≤ maxSize q)%nat.
Proof.
  revert q. induction cs as [|c cs IH]; intros q H; [done|].
  change (calls (c :: cs) q) with (calls cs (call c q)).
  destruct (call_within c q H) as [Hm Hl].
  destruct (IH (call c q)) as [Hm' Hl']; [lia|].
  split; [congruence|lia].
Qed.

Lemma tier_app p l1 l2 : tier p (l1 ++ l2) = tier p l1 ++ tier p l2.
Proof. apply List.filter_app. Qed.

Lemma tier_none p l : Forall (fun x => prio x ≠ p) l → tier p l = [].
Proof.
  induction 1 as [|x l Hx _ IH]; cbn; [done|].
  by destruct (Z.eqb_spec (prio x) p).
Qed.
End EmailQueueFacts.

(** C7 (priority queue ordering).  Every queue built from an empty one by
    [enqueue], [dequeue] and [clear] is sorted by descending priority, and
    [enqueue] keeps a sorted queue sorted.  An accepted entry is placed
    behind every entry whose priority is at least its own and ahead of every
    entry of lower priority, without reordering the others: within each
    priority tier the entries stay in insertion order, the new entry last.
    [dequeue] removes the head, whose priority is the highest in the queue
    and which is the first (oldest) entry of its tier.  Enqueuing priority 1
    and then priority 10 and dequeuing twice gives the priority-10 entry
    first and the priority-1 entry second. *)
Theorem priority_queue_ordering :
  (∀ n cs, EmailQueue.sorted (EmailQueue.queue (EmailQueue.calls cs (EmailQueue.new n))))
  ∧ (∀ q e p now,
       EmailQueue.sorted (EmailQueue.queue q) →
       EmailQueue.sorted (EmailQueue.queue (EmailQueue.enqueue e p now q).2)
       ∧ ((length (EmailQueue.queue q) < EmailQueue.maxSize q)%nat →
          let item := EmailQueueItem.mk e p now 0 in
          let queue' := EmailQueue.queue (EmailQueue.enqueue e p now q).2 in
          (EmailQueue.enqueue e p now q).1 = true
          ∧ (∃ front back,
               EmailQueue.queue q = front ++ back
               ∧ queue' = front ++ item :: back
               ∧ Forall (fun x => p <= EmailQueueItem.priority x) front
               ∧ Forall (fun x => EmailQueueItem.priority x < p) back)
          ∧ ∀ p', EmailQueue.tier p' queue'
                  = EmailQueue.tier p' (EmailQueue.queue q)
                    ++ (if p =? p' then [item] else [])))
  ∧ (∀ q item q',
       EmailQueue.sorted (EmailQueue.queue q) →
       EmailQueue.dequeue q = (Some item, q') →
       EmailQueue.queue q = item :: EmailQueue.queue q'
       ∧ Forall (fun x => EmailQueueItem.priority x <= EmailQueueItem.priority item)
           (EmailQueue.queue q')
       ∧ head (EmailQueue.tier (EmailQueueItem.priority item) (EmailQueue.queue q))
         = Some item
       ∧ EmailQueue.sorted (EmailQueue.queue q'))
  ∧ (∀ n e1 e2 t1 t2,
       (2 ≤ n)%nat →
       let q := EmailQueue.calls [EmailQueue.Enqueue e1 1 t1; EmailQueue.Enqueue e2 10 t2]
                  (EmailQueue.new n) in
       (EmailQueue.dequeue q).1 = Some (EmailQueueItem.mk e2 10 t2 0)
       ∧ (EmailQueue.dequeue (EmailQueue.dequeue q).2).1
         = Some (EmailQueueItem.mk e1 1 t1 0)
       ∧ (EmailQueue.dequeue (EmailQueue.dequeue (EmailQueue.dequeue q).2).2).1 = None).
Proof.
  split; [|split; [|split]].
  - intros n cs. apply calls_sorted. constructor.
  - intros q e p now Hs. split; [by apply enqueue_sorted|].
    intros Hroom item queue'.
    destruct (enqueue_splits q e p now Hs Hroom)
      as (front & back & Hq & Henq & Hf & Hb).
    subst queue'. rewrite Henq. cbn [fst snd EmailQueue.queue EmailQueue.set_queue].
    split; [done|]. split; [by exists front, back|].
    intros p'. rewrite Hq, !tier_app. cbn [EmailQueue.tier List.filter].
    fold (EmailQueue.tier p' back). cbn [EmailQueueItem.priority].
    destruct (Z.eqb_spec p p') as [->|Hne].
    + rewrite (tier_none p' back), app_nil_r; [done|].
      eapply Forall_impl; [exact Hb|]. cbn. lia.
    + by rewrite app_nil_r.
  - intros q item q' Hs Hd. unfold EmailQueue.dequeue in Hd.
    destruct (EmailQueue.queue q) as [|x l] eqn:Hq; [done|].
    injection Hd as <- <-. cbn. split; [done|].
    apply sorted_strongly in Hs. apply StronglySorted_inv in Hs as [Hs Hx].
    split; [done|]. split; [by rewrite Z.eqb_refl|].
    by apply sorted_strongly.
  - intros n e1 e2 t1 t2 Hn.
    destruct n as [|[|n]]; [lia|lia|]. done.
Qed.

(** ** The drain loop of the queue *)

Section DrainLoopFacts.
Import EmailQueue.
Context {St : Type}.
Variable getq : St → t.
Variable setq : t → St → St.
Variable now : St → Z.
Variable callback : EmailRequest.t → St → Settled * St.

(** A turn whose callback fails on an entry below the cap hands the
    request and its priority back to [enqueue]; at the cap the entry is
    dropped. *)
Lemma cycle_rejected s item rest s2 :
  queue (getq s) = item :: rest →
  callback (EmailQueueItem.email item) (setq (set_queue rest (getq s)) s)
  = (Rejected, s2) →
  cycle getq setq now (Some callback) s =
  if (EmailQueueItem.retryCount item <? 3)%nat
  then setq (enqueue (EmailQueueItem.email item) (EmailQueueItem.priority item)
               (now s2) (getq s2)).2 s2
  else s2.
Proof.
  intros Hq Hcb. unfold cycle, isEmpty, dequeue. rewrite Hq. cbn.
  by rewrite Hcb.
Qed.

Lemma cycle_resolved s item rest s2 :
  queue (getq s) = item :: rest →
  callback (EmailQueueItem.email item) (setq (set_queue rest (getq s)) s)
  = (Resolved, s2) →
  cycle getq setq now (Some callback) s = s2.
Proof.
  intros Hq Hcb. unfold cycle, isEmpty, dequeue. rewrite Hq. cbn.
  by rewrite Hcb.
Qed.

Lemma cycle_empty s :
  queue (getq s) = [] → cycle getq setq now (Some callback) s = s.
Proof. intros Hq. unfold cycle, isEmpty. by rewrite Hq. Qed.
End DrainLoopFacts.

(** C3 (queue redelivery cap): what the loop does under a callback that
    fails every time.  A queue with room for at least one entry holds a
    single request.  After any number [n] of turns of the drain loop the
    callback has been handed the request [n] times, and the request is still
    in the queue, at its priority, with a redelivery count of 0: [enqueue]
    builds a fresh entry, so the count that the loop increments never gets
    to the cap. *)
Theorem queue_redelivery_never_capped
    (n m : nat) (e : EmailRequest.t) (p t0 clock intervalMs : Z) :
  let q0 := EmailQueue.mk [EmailQueueItem.mk e p t0 0] true (S m) in
  let s := EmailQueue.sa_loop (fun _ => EmailQueue.Rejected) intervalMs n
             (EmailQueue.mkStandalone q0 clock []) in
  EmailQueue.delivered s = repeat e n
  ∧ ∃ t', EmailQueue.queue (EmailQueue.the_queue s) = [EmailQueueItem.mk e p t' 0].
Proof.
  cbn zeta.
  cut (∀ done t0 clock,
         let s := EmailQueue.sa_loop (fun _ => EmailQueue.Rejected) intervalMs n
                    (EmailQueue.mkStandalone
                       (EmailQueue.mk [EmailQueueItem.mk e p t0 0] true (S m))
                       clock done) in
         EmailQueue.delivered s = done ++ repeat e n
         ∧ ∃ t', EmailQueue.queue (EmailQueue.the_queue s)
                 = [EmailQueueItem.mk e p t' 0]).
  { intros H. apply (H [] t0 clock). }
  induction n as [|n IH]; intros done t1 c; cbn zeta.
  - cbn. rewrite app_nil_r. eauto.
  - unfold EmailQueue.sa_loop in *. cbn [EmailQueue.loop].
    cbn [EmailQueue.the_queue EmailQueue.processing].
    erewrite cycle_rejected; [| reflexivity | reflexivity].
    specialize (IH (done ++ [e]) c (c + timerDelay intervalMs)).
    cbn zeta in IH. destruct IH as [IH1 IH2].
    split; [|exact IH2].
    etrans; [exact IH1|]. by rewrite <- app_assoc.
Qed.

(** Ten turns on a queue of capacity 1000 with a callback that always
    fails: ten deliveries, and the entry is still queued. *)
Example ten_failed_turns :
  let e := Scenario.request "welcome-001" in
  let s := EmailQueue.sa_loop (fun _ => EmailQueue.Rejected) 100 10
             (EmailQueue.mkStandalone
                (EmailQueue.mk [EmailQueueItem.mk e 5 0 0] true 1000) 0 []) in
  length (EmailQueue.delivered s) = 10%nat
  ∧ EmailQueue.queue (EmailQueue.the_queue s) = [EmailQueueItem.mk e 5 900 0].
Proof. by vm_compute. Qed.

(** ** The delivery pipeline *)

Section PipelineFacts.
Import EmailService.
Context {Ext : Type}.
Implicit Types (p : EmailProvider.t Ext) (w : World Ext) (s : t Ext).
Implicit Types (status : EmailStatus.t) (b : CircuitBreaker.t).
Implicit Types (breakers : gmap string CircuitBreaker.t).

Lemma clock_elapse d w : clock (elapse d w) = clock w + Z.of_N d.
Proof. done. Qed.

Lemma clock_sleep ms w : clock w ≤ clock (sleep ms w).
Proof. unfold sleep. rewrite clock_elapse. lia. Qed.

(** Against a provider that always fails the loop uses up its whole
    budget: one failed Attempt per remaining try, nothing else changed in
    the Status. *)
Lemma retryLoop_always_fails config p email remaining :
  always_fails p →
  ∀ attempt status b w,
  ∃ fails b' w',
    retryLoop config p email remaining attempt status b w
    = (false,
       (EmailStatus.mk (EmailStatus.status status) (EmailStatus.provider status)
          (EmailStatus.error status) (EmailStatus.timestamp status)
          (EmailStatus.retryCount status) (EmailStatus.attempts status ++ fails),
        b', w'))
    ∧ length fails = remaining
    ∧ Forall (failed_attempt p) fails
    ∧ clock w ≤ clock w'.
Proof.
  intros Hfails. induction remaining as [|remaining IH]; intros attempt status b w.
  - exists [], b, w. rewrite app_nil_r. cbn. by destruct status.
  - cbn [retryLoop].
    destruct (Hfails email (ext w)) as [message Hm].
    destruct (EmailProvider.send p email (ext w)) as [[outcome latency] x].
    cbn in Hm. subst outcome.
    match goal with
    | |- context [retryLoop _ _ _ _ ?a ?st ?b1 ?w2] =>
        destruct (IH a st b1 w2) as (fails & b' & w' & -> & Hlen & Hall & Hclock)
    end.
    cbn [EmailStatus.push EmailStatus.status EmailStatus.provider
         EmailStatus.error EmailStatus.timestamp EmailStatus.retryCount
         EmailStatus.attempts] in *.
    eexists (_ :: fails), b', w'. rewrite <- app_assoc. cbn [app].
    split; [reflexivity|]. split; [cbn; lia|]. split.
    + constructor; [done|exact Hall].
    + etrans; [|exact Hclock].
      case_match; [etrans; [|apply clock_sleep]|]; cbn; lia.
Qed.

(** Against a provider that always delivers, the first try succeeds. *)
Lemma retryLoop_always_succeeds config p email remaining attempt status b w :
  always_succeeds p →
  ∃ ok w',
    retryLoop config p email (S remaining) attempt status b w
    = (true,
       (EmailStatus.mk EmailStatus.sent (Some (EmailProvider.name p))
          (EmailStatus.error status) (EmailStatus.timestamp status)
          attempt (EmailStatus.attempts status ++ [ok]),
        b, w'))
    ∧ successful_attempt p ok
    ∧ clock w ≤ clock w'.
Proof.
  intros Hok. cbn [retryLoop].
  specialize (Hok email (ext w)).
  destruct (EmailProvider.send p email (ext w)) as [[outcome latency] x].
  cbn in Hok. subst outcome.
  eexists _, _. split; [reflexivity|]. split; [done|]. cbn. lia.
Qed.


Lemma closed_at_later now now' breakers p :
  closed_at now breakers p → now ≤ now' → closed_at now' breakers p.
Proof.
  intros (b & Hb & Hc) Hle. exists b. split; [done|].
  by apply (isOpen_closed_later now).
Qed.

Lemma closed_at_other now breakers p key b :
  key ≠ EmailProvider.name p →
  closed_at now breakers p → closed_at now (<[key := b]> breakers) p.
Proof.
  intros Hne (b0 & Hb & Hc). exists b0. by rewrite lookup_insert_ne.
Qed.


End PipelineFacts.




(** C4 (fallback, first success wins): the claim fails without a retry
    budget.  With [maxRetries = 0] the providers [AlwaysFails] and
    [AlwaysSucceeds] are healthy and their breakers are closed, but the retry
    loop of neither provider is entered: no attempt is made and the Status
    is [failed]. *)
Lemma fallback_without_retry_budget :
  let s := EmailService.new [Scenario.AlwaysFails; Scenario.AlwaysSucceeds]
             Scenario.noRetries in
  let w := Scenario.start in
  Forall (fun p => EmailService.always_healthy p
                   ∧ EmailService.closed_at (EmailService.clock w)
                       (EmailService.breakerMap s) p)
    (EmailService.providers s)
  ∧ EmailService.always_fails Scenario.AlwaysFails
  ∧ EmailService.always_succeeds Scenario.AlwaysSucceeds
  ∧ (EmailService.processEmail (Scenario.request "welcome-001") s w).1.1
    = EmailService.Returned
        (EmailStatus.mk EmailStatus.failed None
           (Some "All providers failed after retries") 1000000 0 []).
Proof.
  cbn zeta. split; [|split; [|split]].
  - repeat constructor; (eexists; split; [by vm_compute|done]).
  - intros ? ?. by eexists.
  - by intros ? ?.
  - by vm_compute.
Qed.

(** C4 (fallback, first success wins), amended.  The provider list starts
    with a provider that fails every send followed by one that delivers
    every send; the two have different names, are healthy, and their
    breakers are closed when processing starts; [maxRetries] is at least 1.
    Then [processEmail] returns a [sent] Status whose provider is the second
    provider's name and whose attempts are exactly [maxRetries] failed
    attempts against the first provider followed by one successful attempt
    against the second.  The Status is stored under the id, the id joins the
    sent-set, and nothing after the success is tried: the outcome of the
    loop over the providers is the same whatever providers follow. *)
Theorem provider_fallback {Ext : Type}
    (s : EmailService.t Ext) (w : EmailService.World Ext) (email : EmailRequest.t)
    (pf ps : EmailProvider.t Ext) (rest : list (EmailProvider.t Ext)) :
  EmailService.providers s = pf :: ps :: rest →
  EmailProvider.name pf ≠ EmailProvider.name ps →
  EmailService.always_healthy pf → EmailService.always_healthy ps →
  EmailService.always_fails pf → EmailService.always_succeeds ps →
  EmailService.closed_at (EmailService.clock w) (EmailService.breakerMap s) pf →
  EmailService.closed_at (EmailService.clock w) (EmailService.breakerMap s) ps →
  (1 ≤ EmailServiceConfig.maxRetries (EmailService.config s))%nat →
  ∃ status s' w' fails ok,
    EmailService.processEmail email s w = (EmailService.Returned status, s', w')
    ∧ EmailStatus.status status = EmailStatus.sent
    ∧ EmailStatus.provider status = Some (EmailProvider.name ps)
    ∧ EmailStatus.retryCount status = 0%nat
    ∧ EmailStatus.attempts status = fails ++ [ok]
    ∧ length fails = EmailServiceConfig.maxRetries (EmailService.config s)
    ∧ Forall (EmailService.failed_attempt pf) fails
    ∧ EmailService.successful_attempt ps ok
    ∧ EmailService.statusMap s' !! EmailRequest.id email = Some status
    ∧ EmailRequest.id email ∈ EmailService.sentEmails s'
    ∧ ∀ rest',
        EmailService.tryProviders (EmailService.config s) email (pf :: ps :: rest')
          (EmailStatus.mk EmailStatus.pending None None (EmailService.clock w) 0 [])
          (EmailService.breakerMap s) w
        = (EmailService.ExitSent, (status, EmailService.breakerMap s', w')).
Proof.
  intros Hps Hne Hhf Hhs Hff Hss Hcf Hcs Hmax.
  destruct (EmailServiceConfig.maxRetries (EmailService.config s))
    as [|budget] eqn:Hbudget; [lia|].
  set (status0 := EmailStatus.mk EmailStatus.pending None None (EmailService.clock w) 0 []).
  assert (∃ status w' b1 b2 b3 fails ok,
            (∀ rest', EmailService.tryProviders (EmailService.config s) email
                        (pf :: ps :: rest') status0 (EmailService.breakerMap s) w
                      = (EmailService.ExitSent,
                         (status,
                          <[EmailProvider.name ps := b3]>
                            (<[EmailProvider.name ps := b3]>
                               (<[EmailProvider.name pf := b2]>
                                  (<[EmailProvider.name pf := b1]>
                                     (EmailService.breakerMap s)))), w')))
            ∧ status = EmailStatus.mk EmailStatus.sent (Some (EmailProvider.name ps))
                         None (EmailService.clock w) 0 (fails ++ [ok])
            ∧ length fails = S budget
            ∧ Forall (EmailService.failed_attempt pf) fails
            ∧ EmailService.successful_attempt ps ok) as Hloop.
  { destruct Hcf as (bf & Hbf & Hclosedf).
    destruct (CircuitBreaker.isOpen (EmailService.clock w) bf) as [o1 b1] eqn:Ho1.
    cbn in Hclosedf. subst o1.
    pose proof (Hhf (EmailService.ext w)) as Hh1.
    destruct (EmailProvider.isHealthy pf (EmailService.ext w)) as [h1 x1] eqn:Hx1.
    cbn in Hh1. subst h1.
    destruct (retryLoop_always_fails (EmailService.config s) pf email (S budget)
                Hff 0%nat status0 b1 (EmailService.set_ext x1 w))
      as (fails & b2 & w2 & Hrl & Hlen & Hfa & Hclock).
    set (bm2 := <[EmailProvider.name pf := b2]>
                  (<[EmailProvider.name pf := b1]> (EmailService.breakerMap s))).
    assert (EmailService.closed_at (EmailService.clock w2) bm2 ps) as (bs & Hbs & Hclosed2).
    { do 2 (apply closed_at_other; [done|]).
      eapply closed_at_later; [exact Hcs|]. cbn in Hclock. lia. }
    destruct (CircuitBreaker.isOpen (EmailService.clock w2) bs) as [o2 b3] eqn:Ho2.
    cbn in Hclosed2. subst o2.
    pose proof (Hhs (EmailService.ext w2)) as Hh2.
    destruct (EmailProvider.isHealthy ps (EmailService.ext w2)) as [h2 x2] eqn:Hx2.
    cbn in Hh2. subst h2.
    cbn [EmailStatus.status EmailStatus.provider EmailStatus.error
         EmailStatus.timestamp EmailStatus.retryCount EmailStatus.attempts
         status0 app] in Hrl.
    destruct (retryLoop_always_succeeds (EmailService.config s) ps email budget 0%nat
                (EmailStatus.mk EmailStatus.pending None None (EmailService.clock w) 0
                   fails) b3 (EmailService.set_ext x2 w2) Hss)
      as (ok & w4 & Hrs & Hok & _).
    cbn [EmailStatus.status EmailStatus.provider EmailStatus.error
         EmailStatus.timestamp EmailStatus.retryCount EmailStatus.attempts] in Hrs.
    exists (EmailStatus.mk EmailStatus.sent (Some (EmailProvider.name ps)) None
              (EmailService.clock w) 0 (fails ++ [ok])), w4, b1, b2, b3, fails, ok.
    split; [|done].
    intros rest'. cbn [EmailService.tryProviders].
    rewrite Hbf, Ho1, Hx1. cbn [negb]. rewrite Hbudget, Hrl.
    fold bm2. rewrite Hbs, Ho2, Hx2. cbn [negb]. rewrite Hrs. done. }
  destruct Hloop as (status & w' & b1 & b2 & b3 & fails & ok & Hrun & -> & Hlen & Hfa & Hok).
  unfold EmailService.processEmail.
  cbn [EmailService.config EmailService.providers EmailService.breakerMap
       EmailService.set_statusMap].
  rewrite Hps. fold status0. rewrite (Hrun rest).
  eexists _, _, _, fails, ok. split; [reflexivity|].
  cbn -[EmailService.tryProviders]. rewrite lookup_insert_eq.
  repeat (split; [done|]). split; [set_solver|].
  intros rest'. apply Hrun.
Qed.

Lemma provider_fallback_witness :
  ∃ status s' w',
    EmailService.processEmail (Scenario.request "welcome-001")
      (EmailService.new [Scenario.AlwaysFails; Scenario.AlwaysSucceeds]
         EmailService.noConfig)
      Scenario.start
    = (EmailService.Returned status, s', w')
    ∧ EmailStatus.status status = EmailStatus.sent
    ∧ EmailStatus.provider status = Some "AlwaysSucceeds"
    ∧ length (EmailStatus.attempts status) = 4%nat.
Proof.
  edestruct (provider_fallback
               (EmailService.new [Scenario.AlwaysFails; Scenario.AlwaysSucceeds]
                  EmailService.noConfig)
               Scenario.start (Scenario.request "welcome-001")
               Scenario.AlwaysFails Scenario.AlwaysSucceeds [])
    as (status & s' & w' & fails & ok & Heq & Hst & Hpr & _ & Hat & Hlen & _).
  - reflexivity.
  - by vm_compute.
  - by intros ?.
  - by intros ?.
  - intros ? ?. by eexists.
  - by intros ? ?.
  - eexists. split; [by vm_compute|done].
  - eexists. split; [by vm_compute|done].
  - cbn. lia.
  - exists status, s', w'. split; [exact Heq|]. split; [exact Hst|].
    split; [exact Hpr|]. rewrite Hat, length_app, Hlen. reflexivity.
Defined.

(** ** Bookkeeping of the engine *)

Section EngineFacts.
Import EmailService.
Context {Ext : Type}.
Implicit Types (p : EmailProvider.t Ext) (w : World Ext) (s : t Ext).
Implicit Types (sw : t Ext * World Ext) (op : Op).
Implicit Types (status : EmailStatus.t) (b : CircuitBreaker.t).

(** A retry loop that is not left by its [return] leaves the state of the
    Status as it was. *)
Lemma retryLoop_not_sent config p email remaining :
  ∀ attempt status b w status' b' w',
  retryLoop config p email remaining attempt status b w = (false, (status', b', w')) →
  EmailStatus.status status' = EmailStatus.status status.
Proof.
  induction remaining as [|remaining IH]; intros attempt status b w status' b' w'.
  - cbn. by intros [= <- _ _].
  - cbn [retryLoop].
    destruct (EmailProvider.send p email (ext w)) as [[[|message] latency] x].
    + done.
    + intros H. by apply IH in H.
Qed.

Lemma retryLoop_sent config p email remaining :
  ∀ attempt status b w status' b' w',
  retryLoop config p email remaining attempt status b w = (true, (status', b', w')) →
  EmailStatus.status status' = EmailStatus.sent.
Proof.
  induction remaining as [|remaining IH]; intros attempt status b w status' b' w'.
  - done.
  - cbn [retryLoop].
    destruct (EmailProvider.send p email (ext w)) as [[[|message] latency] x].
    + by intros [= <- _ _].
    + intros H. by apply IH in H.
Qed.

Lemma tryProviders_status config email ps :
  ∀ status breakers w exit status' breakers' w',
  tryProviders config email ps status breakers w = (exit, (status', breakers', w')) →
  if exit is ExitSent then EmailStatus.status status' = EmailStatus.sent
  else EmailStatus.status status' = EmailStatus.status status.
Proof.
  induction ps as [|p ps IH]; intros status breakers w exit status' breakers' w'.
  - cbn. by intros [= <- <- _ _].
  - cbn [tryProviders].
    destruct (breakers !! EmailProvider.name p) as [b|]; [|by intros [= <- <- _ _]].
    destruct (CircuitBreaker.isOpen (clock w) b) as [[|] b1]; [apply IH|].
    destruct (EmailProvider.isHealthy p (ext w)) as [[[|]|] x]; cbn [negb];
      [|apply IH|by intros [= <- <- _ _]].
    destruct (retryLoop config p email _ 0 status b1 (set_ext x w))
      as [[|] [[status2 b2] w2]] eqn:Hretry.
    + intros [= <- <- _ _]. by apply retryLoop_sent in Hretry.
    + intros H. apply IH in H. apply retryLoop_not_sent in Hretry.
      destruct exit; congruence.
Qed.

(** What [processEmail] touches: the Status of its own request, the
    breakers, and the sent-set, to which it can only add its own id. *)
Lemma processEmail_frame email s w :
  let s' := (processEmail email s w).1.2 in
  (∀ key, key ≠ EmailRequest.id email → statusMap s' !! key = statusMap s !! key)
  ∧ sentEmails s ⊆ sentEmails s'
  ∧ sentEmails s' ⊆ {[EmailRequest.id email]} ∪ sentEmails s
  ∧ queue s' = queue s ∧ providers s' = providers s ∧ config s' = config s
  ∧ processing s' = processing s ∧ rateLimiter s' = rateLimiter s.
Proof.
  unfold processEmail.
  destruct (tryProviders _ _ _ _ _ _) as [[| |] [[status1 bm] w1]]; cbn;
    (split; [intros key Hne; by rewrite !lookup_insert_ne|]);
    repeat split; set_solver.
Qed.


(** What the call that starts the loop does: nothing when the engine's
    flag is up; nothing but raising that flag when only the queue's flag is
    up; otherwise both flags are raised and the loop runs its first turn. *)
Lemma startQueueProcessing_turn sw :
  startQueueProcessing sw =
  if processing sw.1 then sw
  else if EmailQueue.processing (queue sw.1) then (set_processing true sw.1, sw.2)
  else turn (set_queue (EmailQueue.set_processing true (queue sw.1))
               (set_processing true sw.1), sw.2).
Proof.
  destruct sw as [s w]. unfold startQueueProcessing, EmailQueue.startProcessing, turn.
  cbn. destruct (processing s); [done|]. cbn.
  by destruct (EmailQueue.processing (queue s)).
Qed.

Lemma drain_turn sw :
  drain sw =
  if EmailQueue.processing (queue sw.1)
  then pause (EmailServiceConfig.queueProcessIntervalMs (config sw.1)) (turn sw)
  else sw.
Proof. done. Qed.

(** A turn of the loop: nothing on an empty queue; otherwise the head is
    taken off the queue and handed to the pipeline, and when the pipeline
    throws, the request goes back to [enqueue] as long as the count of the
    entry taken is below 3. *)
Lemma turn_spec sw :
  match EmailQueue.queue (queue sw.1) with
  | [] => turn sw = sw
  | item :: rest =>
      ∃ r s1 w1,
        processEmail (EmailQueueItem.email item)
          (set_queue (EmailQueue.set_queue rest (queue sw.1)) sw.1) sw.2
        = (r, s1, w1)
        ∧ turn sw =
          match r with
          | Returned _ => (s1, w1)
          | Thrown =>
              if (EmailQueueItem.retryCount item <? 3)%nat
              then (set_queue
                      (EmailQueue.enqueue (EmailQueueItem.email item)
                         (EmailQueueItem.priority item) (clock w1) (queue s1)).2 s1,
                    w1)
              else (s1, w1)
          end
  end.
Proof.
  destruct sw as [s w]. unfold turn, EmailQueue.cycle, EmailQueue.isEmpty,
    EmailQueue.dequeue, getq, setq, now, processCallback. cbn [fst snd].
  destruct (EmailQueue.queue (queue s)) as [|item rest]; [done|].
  cbn [length Nat.eqb negb].
  destruct (processEmail _ _ _) as [[[status|] s1] w1]; cbn [fst snd];
    eexists _, _, _; (split; [reflexivity|]); done.
Qed.
End EngineFacts.

(** C1 (idempotency of [sendEmail]).  When the id of the request is in the
    sent-set and the Status map holds a Status under it, [sendEmail] returns
    that Status and hands back the engine and the world exactly as they
    were: no Attempt is appended, the rate limiter is not consulted, no
    provider is invoked.  The same holds for every further call, however
    many calls came before. *)
Theorem sendEmail_idempotent {Ext : Type}
    (s : EmailService.t Ext) (w : EmailService.World Ext)
    (email : EmailRequest.t) (status : EmailStatus.t) (n : nat) :
  EmailRequest.id email ∈ EmailService.sentEmails s →
  EmailService.statusMap s !! EmailRequest.id email = Some status →
  let sw := Nat.iter n (EmailService.step (EmailService.OpSendEmail email)) (s, w) in
  sw = (s, w)
  ∧ EmailService.sendEmail email sw.1 sw.2 = (EmailService.Returned (Some status), s, w).
Proof.
  intros Hsent Hstatus.
  assert (EmailService.sendEmail email s w = (EmailService.Returned (Some status), s, w))
    as Hcall.
  { unfold EmailService.sendEmail. by rewrite bool_decide_eq_true_2, Hstatus. }
  intros sw.
  assert (sw = (s, w)) as ->; [|done].
  subst sw. induction n as [|n IH]; [done|].
  rewrite Nat.iter_succ, IH. cbn. by rewrite Hcall.
Qed.

Lemma sendEmail_idempotent_witness :
  let sw := EmailService.steps
              [EmailService.OpSendEmail (Scenario.request "welcome-001")]
              (EmailService.new [Scenario.AlwaysSucceeds] EmailService.noConfig,
               Scenario.start) in
  Nat.iter 5 (EmailService.step (EmailService.OpSendEmail (Scenario.request "welcome-001")))
    sw = sw.
Proof.
  cbn zeta.
  set (sw := EmailService.steps _ _).
  rewrite (surjective_pairing sw) at 1.
  refine (eq_trans (proj1 (sendEmail_idempotent sw.1 sw.2
                             (Scenario.request "welcome-001")
                             (EmailStatus.mk EmailStatus.sent (Some "AlwaysSucceeds")
                                None 1000000 0
                                [EmailAttempt.mk "AlwaysSucceeds" 1000005 true None 5])
                             5 _ _)) _).
  - by vm_compute.
  - by vm_compute.
  - by destruct sw.
Defined.

Section QueueEmailFacts.
Import EmailService.
Context {Ext : Type}.
Implicit Types (w : World Ext) (s : t Ext) (sw : t Ext * World Ext).

Lemma enqueue_refused q e p now :
  (EmailQueue.enqueue e p now q).1 = false →
  (EmailQueue.maxSize q ≤ length (EmailQueue.queue q))%nat.
Proof.
  unfold EmailQueue.enqueue.
  destruct (Nat.leb_spec (EmailQueue.maxSize q) (length (EmailQueue.queue q)));
    [done|].
  by case_match.
Qed.

(** [queueEmail] for an id outside the sent-set, spelled out: the Status
    is stored, the request goes to [enqueue], and the loop is started when
    the flag of the engine is down. *)
Lemma queueEmail_fresh email priority s w :
  EmailRequest.id email ∉ sentEmails s →
  let status := EmailStatus.mk EmailStatus.queued None None (clock w) 0 [] in
  let r := EmailQueue.enqueue email (default 0 priority) (clock w) (queue s) in
  let status1 :=
    if r.1 then status
    else EmailStatus.mk EmailStatus.failed None (Some "Queue is full")
           (clock w) 0 [] in
  let s3 := set_statusMap (<[EmailRequest.id email := status1]> (statusMap s))
              (set_queue r.2 s) in
  let sw' := if processing s then (s3, w) else startQueueProcessing (s3, w) in
  queueEmail email priority s w = (Returned (Some status1), sw'.1, sw'.2).
Proof.
  intros Hfresh. cbn zeta. unfold queueEmail.
  rewrite bool_decide_eq_false_2 by done.
  cbn [queue set_statusMap].
  destruct (EmailQueue.enqueue _ _ _ _) as [success q] eqn:Henq.
  unfold set_statusMap, set_queue.
  cbn [fst snd statusMap queue processing providers rateLimiter sentEmails
       breakerMap config].
  rewrite insert_insert_eq.
  assert ((if success
           then EmailStatus.mk EmailStatus.queued None None (clock w) 0 []
           else EmailStatus.set_error "Queue is full"
                  (EmailStatus.set_status EmailStatus.failed
                     (EmailStatus.mk EmailStatus.queued None None (clock w) 0 [])))
          = (if success
             then EmailStatus.mk EmailStatus.queued None None (clock w) 0 []
             else EmailStatus.mk EmailStatus.failed None (Some "Queue is full")
                    (clock w) 0 [])) as -> by (by destruct success).
  destruct (processing s); cbn [negb]; [done|].
  by destruct (startQueueProcessing _).
Qed.

(** The loop that a call starts leaves alone the Status of every id but
    the one at the head of the queue. *)
Lemma startQueueProcessing_other sw key :
  EmailQueue.next_id (queue sw.1) ≠ Some key →
  statusMap (startQueueProcessing sw).1 !! key = statusMap sw.1 !! key.
Proof.
  destruct sw as [s w]. cbn [fst]. intros Hhead.
  rewrite startQueueProcessing_turn. cbn [fst snd].
  destruct (processing s); [done|].
  destruct (EmailQueue.processing (queue s)); [done|].
  match goal with |- context [turn ?x] => pose proof (turn_spec x) as Hturn end.
  cbn [fst snd queue set_queue set_processing EmailQueue.queue
       EmailQueue.set_processing] in Hturn.
  unfold EmailQueue.next_id in Hhead.
  destruct (EmailQueue.queue (queue s)) as [|item rest]; [by rewrite Hturn|].
  destruct Hturn as (r & s1 & w1 & Hp & ->).
  match type of Hp with
  | processEmail ?e ?s0 ?w0 = _ =>
      pose proof (processEmail_frame e s0 w0) as (Hframe & _)
  end.
  rewrite Hp in Hframe. cbn [fst snd] in Hframe.
  assert (statusMap s1 !! key = statusMap s !! key) as Hs1.
  { rewrite Hframe; [done|]. intros Heq. apply Hhead. cbn. by rewrite Heq. }
  destruct r; [done|]. by destruct (_ <? 3)%nat.
Qed.
End QueueEmailFacts.

(** C9 (queue-full rejection): where the claim fails.  The queue holds one
    entry, for the request "welcome-001", and is full; the loop is stopped.
    [queueEmail] for the same request is refused by [enqueue] and returns the
    Status [failed] with the error "Queue is full".  But the call starts the
    loop, the loop takes the entry that was waiting, and its pipeline stores
    a Status of its own under the id: the Status stored is not the one
    returned, and the queue is not as it was. *)
Lemma full_queue_status_is_overwritten :
  let email := Scenario.request "welcome-001" in
  let sw := EmailService.steps
              [EmailService.OpStartQueueProcessing;
               EmailService.OpQueueEmail email None;
               EmailService.OpStopQueueProcessing]
              (EmailService.new [Scenario.AlwaysSucceeds] Scenario.singleSlot,
               Scenario.start) in
  let status := EmailStatus.mk EmailStatus.failed None (Some "Queue is full")
                  1000000 0 [] in
  let r := EmailService.queueEmail email None sw.1 sw.2 in
  EmailService.reachable sw
  ∧ EmailQueue.enqueue email 0 (EmailService.clock sw.2) (EmailService.queue sw.1)
    = (false, EmailService.queue sw.1)
  ∧ r.1.1 = EmailService.Returned (Some status)
  ∧ EmailService.statusMap r.1.2 !! "welcome-001" ≠ Some status
  ∧ (EmailStatus.error <$> EmailService.statusMap r.1.2 !! "welcome-001") = Some None
  ∧ length (EmailQueue.queue (EmailService.queue sw.1)) = 1%nat
  ∧ EmailQueue.queue (EmailService.queue r.1.2) = [].
Proof.
  cbn zeta. split; [by eexists _, _, _, _|].
  split; [by vm_compute|]. split; [by vm_compute|].
  split; [by vm_compute|]. split; [by vm_compute|]. by vm_compute.
Qed.

(** C9 (queue-full rejection), amended.  [enqueue] on a queue whose size is
    at least its capacity returns [false] and leaves the queue as it is; a
    queue built from an empty one never exceeds its capacity, so a full queue
    has exactly [maxSize] entries before and after the refused call.  When
    the [enqueue] made by [queueEmail] fails, [queueEmail] does not throw: it
    returns the Status [failed] with the error "Queue is full".  When the
    loop is running, that Status is stored under the id of the request, the
    queue is left as it is and no time goes by.  Whether the loop is running
    or not, that Status is the one stored under the id as long as the entry
    at the head of the queue is not for the same id. *)
Theorem queue_full_rejection :
  (∀ q e p now,
     (EmailQueue.maxSize q ≤ EmailQueue.size q)%nat →
     EmailQueue.enqueue e p now q = (false, q))
  ∧ (∀ n cs e p now,
       let q := EmailQueue.calls cs (EmailQueue.new n) in
       (EmailQueue.size q ≤ n)%nat
       ∧ (EmailQueue.isFull q = true →
          EmailQueue.size q = n
          ∧ EmailQueue.enqueue e p now q = (false, q)))
  ∧ (∀ (Ext : Type) (s : EmailService.t Ext) (w : EmailService.World Ext)
       email priority,
       EmailRequest.id email ∉ EmailService.sentEmails s →
       (EmailQueue.enqueue email (default 0 priority) (EmailService.clock w)
          (EmailService.queue s)).1 = false →
       let status := EmailStatus.mk EmailStatus.failed None (Some "Queue is full")
                       (EmailService.clock w) 0 [] in
       ∃ s' w',
         EmailService.queueEmail email priority s w
         = (EmailService.Returned (Some status), s', w')
         ∧ (EmailService.processing s = true →
            w' = w
            ∧ EmailService.statusMap s'
              = <[EmailRequest.id email := status]> (EmailService.statusMap s)
            ∧ EmailService.queue s' = EmailService.queue s)
         ∧ (EmailQueue.next_id (EmailService.queue s) ≠ Some (EmailRequest.id email) →
            EmailService.statusMap s' !! EmailRequest.id email = Some status)).
Proof.
  split; [|split].
  - intros q e p now H. by apply enqueue_full.
  - intros n cs e p now q.
    destruct (calls_within cs (EmailQueue.new n)) as [Hm Hl]; [cbn; lia|].
    fold q in Hm, Hl. cbn in Hm, Hl. unfold EmailQueue.size, EmailQueue.isFull.
    split; [done|]. intros Hfull. apply Nat.leb_le in Hfull. rewrite Hm in Hfull.
    split; [lia|]. apply enqueue_full. lia.
  - intros Ext s w email priority Hfresh Hfail status.
    pose proof (queueEmail_fresh email priority s w Hfresh) as Hq. cbn zeta in Hq.
    pose proof (enqueue_full _ email (default 0 priority) (EmailService.clock w)
                  (enqueue_refused _ _ _ _ Hfail)) as Hsame.
    rewrite Hsame in Hq. cbn [fst snd] in Hq. rewrite Hq.
    eexists _, _. split; [reflexivity|]. split.
    + intros ->. cbn. by destruct s.
    + intros Hhead. destruct (EmailService.processing s); cbn [fst snd].
      * cbn. by rewrite lookup_insert_eq.
      * rewrite startQueueProcessing_other.
        -- cbn. by rewrite lookup_insert_eq.
        -- cbn. by destruct s.
Qed.

(** ** The Status map and the sent-set along the transitions *)

Section RecordFacts.
Import EmailService.
Context {Ext : Type}.
Implicit Types (w : World Ext) (s : t Ext) (sw : t Ext * World Ext) (op : Op).

Lemma processEmail_records email s w :
  records (EmailRequest.id email) s (processEmail email s w).1.2.
Proof.
  unfold processEmail.
  destruct (tryProviders _ _ _ _ _ _) as [exit [[status1 bm] w1]] eqn:Hrun.
  apply tryProviders_status in Hrun.
  destruct exit; cbn in *; rewrite insert_insert_eq; eexists; (split; [done|]).
  - by left.
  - by right.
  - right. split; [congruence|done].
Qed.

Lemma sendEmail_sent email s w :
  EmailRequest.id email ∈ sentEmails s →
  sendEmail email s w = (Returned (statusMap s !! EmailRequest.id email), s, w).
Proof. intros H. unfold sendEmail. by rewrite bool_decide_eq_true_2. Qed.

Lemma sendEmail_records email s w :
  EmailRequest.id email ∉ sentEmails s →
  records (EmailRequest.id email) s (sendEmail email s w).1.2.
Proof.
  intros H. unfold sendEmail. rewrite bool_decide_eq_false_2 by done.
  destruct (RateLimiter.allow _ _) as [[|] limiter]; cbn [negb].
  - pose proof (processEmail_records email (set_rateLimiter limiter s) w) as Hrec.
    by destruct (processEmail _ _ _) as [[[status|] s2] w2].
  - eexists. split; [done|]. by right.
Qed.

Lemma queueEmail_sent email priority s w :
  EmailRequest.id email ∈ sentEmails s →
  queueEmail email priority s w
  = (Returned (statusMap s !! EmailRequest.id email), s, w).
Proof. intros H. unfold queueEmail. by rewrite bool_decide_eq_true_2. Qed.

Lemma records_sent_recorded key s s' :
  records key s s' → sent_recorded s → sent_recorded s'.
Proof.
  intros (status & Hmap & Hcase) Hinv key' status'. rewrite Hmap.
  destruct (decide (key = key')) as [<-|Hne].
  - rewrite lookup_insert_eq. intros [= <-] Hsent.
    destruct Hcase as [[_ ->]|[Hns _]]; [set_solver|done].
  - rewrite lookup_insert_ne by done. intros Hl Hsent.
    specialize (Hinv key' status' Hl Hsent).
    destruct Hcase as [[_ ->]|[_ ->]]; set_solver.
Qed.

Lemma records_sent_known key s s' :
  records key s s' → sent_known s → sent_known s'.
Proof.
  intros (status & Hmap & Hcase) Hinv key'. rewrite Hmap.
  destruct (decide (key = key')) as [<-|Hne].
  - rewrite lookup_insert_eq. eauto.
  - rewrite lookup_insert_ne by done. intros Hin. apply Hinv.
    destruct Hcase as [[_ Hs]|[_ Hs]]; rewrite Hs in Hin; [|done].
    apply elem_of_union in Hin as [Hin|Hin]; [|done].
    by apply elem_of_singleton in Hin.
Qed.

Lemma records_invariants key s s' :
  records key s s' →
  sent_recorded s ∧ sent_known s → sent_recorded s' ∧ sent_known s'.
Proof.
  intros Hrec [Hr Hk].
  split; [by eapply records_sent_recorded|by eapply records_sent_known].
Qed.

Lemma same_records_invariants s s' :
  same_records s s' →
  sent_recorded s ∧ sent_known s → sent_recorded s' ∧ sent_known s'.
Proof. intros [Hm Hs]. unfold sent_recorded, sent_known. by rewrite Hm, Hs. Qed.

(** A turn of the loop processes at most one request. *)
Lemma turn_records sw :
  same_records sw.1 (turn sw).1
  ∨ ∃ email, records (EmailRequest.id email) sw.1 (turn sw).1.
Proof.
  destruct sw as [s w]. pose proof (turn_spec (s, w)) as Hturn. cbn [fst snd] in *.
  destruct (EmailQueue.queue (queue s)) as [|item rest]; [rewrite Hturn; by left|].
  destruct Hturn as (r & s1 & w1 & Hp & ->).
  right. exists (EmailQueueItem.email item).
  match type of Hp with
  | processEmail ?e ?s0 ?w0 = _ => pose proof (processEmail_records e s0 w0) as Hrec
  end.
  rewrite Hp in Hrec. cbn [fst snd] in Hrec.
  destruct r; [exact Hrec|]. by destruct (_ <? 3)%nat.
Qed.

Lemma turn_invariants sw :
  sent_recorded sw.1 ∧ sent_known sw.1 →
  sent_recorded (turn sw).1 ∧ sent_known (turn sw).1.
Proof.
  destruct (turn_records sw) as [H|[email H]].
  - by apply same_records_invariants.
  - exact (records_invariants _ _ _ H).
Qed.

Lemma startQueueProcessing_invariants sw :
  sent_recorded sw.1 ∧ sent_known sw.1 →
  sent_recorded (startQueueProcessing sw).1 ∧ sent_known (startQueueProcessing sw).1.
Proof.
  intros Hinv. rewrite startQueueProcessing_turn.
  destruct (processing sw.1); [done|].
  destruct (EmailQueue.processing (queue sw.1)); [done|].
  by apply turn_invariants.
Qed.

Lemma step_invariants op sw :
  sent_recorded sw.1 ∧ sent_known sw.1 →
  sent_recorded (step op sw).1 ∧ sent_known (step op sw).1.
Proof.
  destruct sw as [s w]. cbn [fst]. intros Hinv.
  destruct op as [email|email priority| | | | | |d]; cbn [step fst snd].
  - destruct (decide (EmailRequest.id email ∈ sentEmails s)) as [Hin|Hout].
    + by rewrite sendEmail_sent.
    + pose proof (sendEmail_records email s w Hout) as Hrec.
      destruct (sendEmail _ _ _) as [[? ?] ?]. exact (records_invariants _ _ _ Hrec Hinv).
  - destruct (decide (EmailRequest.id email ∈ sentEmails s)) as [Hin|Hout].
    + by rewrite queueEmail_sent.
    + rewrite (queueEmail_fresh email priority s w Hout). cbn [fst snd].
      match goal with
      | |- context [startQueueProcessing (?s3, w)] =>
          assert (sent_recorded s3 ∧ sent_known s3) as Hinv3
      end.
      { eapply records_invariants; [|exact Hinv].
        eexists. split; [reflexivity|]. right. split; [|done]. by case_match. }
      destruct (processing s); [done|].
      by apply (startQueueProcessing_invariants (_, w)).
  - by apply (startQueueProcessing_invariants (s, w)).
  - done.
  - done.
  - unfold sent_recorded, sent_known. cbn. split.
    + intros key status. by rewrite lookup_empty.
    + intros key Hin. by apply not_elem_of_empty in Hin.
  - rewrite drain_turn. cbn [fst].
    destruct (EmailQueue.processing (queue s)); [|done].
    by apply (turn_invariants (s, w)).
  - done.
Qed.

Lemma steps_invariants history sw :
  sent_recorded sw.1 ∧ sent_known sw.1 →
  sent_recorded (steps history sw).1 ∧ sent_known (steps history sw).1.
Proof.
  revert sw. induction history as [|op history IH]; intros sw H; [done|].
  change (steps (op :: history) sw) with (steps history (step op sw)).
  by apply IH, step_invariants.
Qed.

(** In every reachable state a Status in state [sent] belongs to an id
    of the sent-set, and every id of the sent-set has a Status. *)
Lemma reachable_invariants sw :
  reachable sw → sent_recorded sw.1 ∧ sent_known sw.1.
Proof.
  intros (providers & c & w & history & ->).
  apply steps_invariants. unfold sent_recorded, sent_known, new. cbn. split.
  - intros key status. by rewrite lookup_empty.
  - intros key Hin. by apply not_elem_of_empty in Hin.
Qed.






End RecordFacts.


(** A [sent] Status is not safe either while an entry for its id waits in
    the queue.  The request "welcome-001" is queued, the loop is stopped, and
    the request is delivered by [sendEmail].  A [queueEmail] call for another
    request then starts the loop, which takes the entry that was waiting and
    runs the pipeline on it: the Status of "welcome-001" is no longer the
    one that [sendEmail] had stored. *)
Example queued_copy_is_processed_again :
  let email := Scenario.request "welcome-001" in
  let sw := EmailService.steps
              [EmailService.OpStartQueueProcessing;
               EmailService.OpQueueEmail email None;
               EmailService.OpStopQueueProcessing;
               EmailService.OpSendEmail email]
              (EmailService.new [Scenario.SucceedsUntil 1] EmailService.noConfig,
               Scenario.start) in
  let sw' := EmailService.steps
               [EmailService.OpQueueEmail (Scenario.request "welcome-002") None] sw in
  (EmailStatus.status <$> EmailService.statusMap sw.1 !! "welcome-001")
  = Some EmailStatus.sent
  ∧ ¬ EmailService.not_queued "welcome-001" sw.1
  ∧ (EmailStatus.status <$> EmailService.statusMap sw'.1 !! "welcome-001")
    ≠ Some EmailStatus.sent
  ∧ EmailService.statusMap sw'.1 !! "welcome-001"
    ≠ EmailService.statusMap sw.1 !! "welcome-001".
Proof.
  cbn zeta. split; [by vm_compute|]. split.
  { intros H. apply Forall_inv in H. by vm_compute in H. }
  split; by vm_compute.
Qed.



(** C10 (sent-set and Status map agree): a reachable state in which they do
    not.  The loop is running; a request is queued and then also sent with
    [sendEmail], which delivers it.  The drain loop then takes the queued
    entry and runs [processEmail] on it, which does not look at the
    sent-set: the Status under the id is overwritten, and as the provider
    now fails it ends as [failed], while the id stays in the sent-set. *)
Theorem drain_breaks_sent_consistency :
  let email := Scenario.request "welcome-001" in
  let sw := EmailService.steps
              [EmailService.OpStartQueueProcessing;
               EmailService.OpQueueEmail email None;
               EmailService.OpSendEmail email;
               EmailService.OpDrain]
              (EmailService.new [Scenario.SucceedsUntil 1] EmailService.noConfig,
               Scenario.start) in
  EmailService.reachable sw
  ∧ "welcome-001" ∈ EmailService.sentEmails sw.1
  ∧ (EmailStatus.status <$> EmailService.statusMap sw.1 !! "welcome-001")
    = Some EmailStatus.failed
  ∧ ¬ EmailService.sent_consistent sw.1.
Proof.
  cbn zeta. split; [by eexists _, _, _, _|].
  assert ("welcome-001" ∈ EmailService.sentEmails
            (EmailService.steps
               [EmailService.OpStartQueueProcessing;
                EmailService.OpQueueEmail (Scenario.request "welcome-001") None;
                EmailService.OpSendEmail (Scenario.request "welcome-001");
                EmailService.OpDrain]
               (EmailService.new [Scenario.SucceedsUntil 1] EmailService.noConfig,
                Scenario.start)).1) as Hin.
  { apply (bool_decide_unpack _). by vm_compute. }
  split; [exact Hin|]. split; [by vm_compute|].
  intros Hcons. destruct (Hcons _ Hin) as (status & Hstatus & Hsent).
  vm_compute in Hstatus. injection Hstatus as <-. discriminate Hsent.
Qed.

(** * Further properties of the code *)

(** ** The shape of what the pipeline returns *)

Section PipelineShape.
Import EmailService.
Context {Ext : Type}.
Implicit Types (p : EmailProvider.t Ext) (w : World Ext) (s : t Ext).
Implicit Types (status : EmailStatus.t) (b : CircuitBreaker.t).
Implicit Types (breakers : gmap string CircuitBreaker.t).

Lemma chronological_from from from' l upto :
  from' ≤ from → chronological from l upto → chronological from' l upto.
Proof. destruct l; cbn; intros; [lia|]. intuition lia. Qed.

Lemma chronological_le from l upto : chronological from l upto → from ≤ upto.
Proof.
  revert from. induction l as [|a l IH]; cbn; intros from; [done|].
  intros (H1 & H2 & H3). apply IH in H3. lia.
Qed.

Lemma chronological_upto from l upto upto' :
  upto ≤ upto' → chronological from l upto → chronological from l upto'.
Proof.
  intros Hle. revert from. induction l as [|a l IH]; cbn; intros from; [lia|].
  intros (H1 & H2 & H3). auto.
Qed.

Lemma chronological_app from mid upto l1 l2 :
  chronological from l1 mid → chronological mid l2 upto →
  chronological from (l1 ++ l2) upto.
Proof.
  revert from. induction l1 as [|a l1 IH]; cbn; intros from.
  - intros H. by apply chronological_from.
  - intros (H1 & H2 & H3) H. auto.
Qed.

Lemma chronological_timestamps from l upto :
  chronological from l upto →
  Forall (fun a => from ≤ EmailAttempt.timestamp a ≤ upto) l
  ∧ Sorted Z.le (EmailAttempt.timestamp <$> l).
Proof.
  revert from. induction l as [|a l IH]; cbn; intros from; [by split|].
  intros (H1 & H2 & H3). pose proof (chronological_le _ _ _ H3) as Hle.
  destruct (IH _ H3) as [Hall Hsorted]. split.
  - constructor; [lia|]. eapply Forall_impl; [exact Hall|]. cbn. lia.
  - constructor; [done|]. destruct l as [|a' l]; constructor.
    apply Forall_cons in Hall as [Ha' _]. lia.
Qed.

(** What the retry loop against one provider does, whatever the provider
    does: it appends failed attempts and possibly one final successful
    attempt; the breaker is charged once per failed attempt; a loop that is
    not left by its [return] has used its whole budget. *)
Lemma retryLoop_shape config p email remaining :
  ∀ attempt status b w,
  ∃ fails b' w',
    Forall (failed_attempt p) fails
    ∧ CircuitBreaker.failures b' = (CircuitBreaker.failures b + length fails)%nat
    ∧ CircuitBreaker.threshold b' = CircuitBreaker.threshold b
    ∧ CircuitBreaker.timeout b' = CircuitBreaker.timeout b
    ∧ ((retryLoop config p email remaining attempt status b w
        = (false,
           (EmailStatus.mk (EmailStatus.status status) (EmailStatus.provider status)
              (EmailStatus.error status) (EmailStatus.timestamp status)
              (EmailStatus.retryCount status) (EmailStatus.attempts status ++ fails),
            b', w'))
        ∧ length fails = remaining
        ∧ chronological (clock w) fails (clock w'))
       ∨ (∃ ok,
            successful_attempt p ok
            ∧ retryLoop config p email remaining attempt status b w
              = (true,
                 (EmailStatus.mk EmailStatus.sent (Some (EmailProvider.name p))
                    (EmailStatus.error status) (EmailStatus.timestamp status)
                    (attempt + length fails)
                    (EmailStatus.attempts status ++ fails ++ [ok]),
                  b', w'))
            ∧ (length fails < remaining)%nat
            ∧ chronological (clock w) (fails ++ [ok]) (clock w'))).
Proof.
  induction remaining as [|remaining IH]; intros attempt status b w.
  - exists [], b, w. rewrite app_nil_r. cbn.
    split; [constructor|]. split; [lia|]. split; [done|]. split; [done|].
    left. destruct status. cbn. split; [done|]. split; [done|lia].
  - cbn [retryLoop].
    destruct (EmailProvider.send p email (ext w)) as [[[|message] latency] x].
    + exists [], b. eexists. cbn [length app].
      split; [constructor|]. split; [lia|]. split; [done|]. split; [done|].
      right. eexists. split; [|split; [|split]].
      2:{ rewrite Nat.add_0_r. reflexivity. }
      * done.
      * lia.
      * cbn. lia.
    + match goal with
      | |- context [retryLoop _ _ _ _ ?a ?st ?b1 ?w2] =>
          destruct (IH a st b1 w2)
            as (fails & b' & w' & Hfa & Hfail & Hthr & Hto & Hcase);
          set (w2' := w2) in *
      end.
      assert (clock w + Z.of_N latency ≤ clock w2') as Hw2.
      { subst w2'. case_match; [etrans; [|apply clock_sleep]|]; cbn; lia. }
      eexists (EmailAttempt.mk (EmailProvider.name p) _ false _ _ :: fails), b', w'.
      split; [constructor; [done|exact Hfa]|].
      cbn [length CircuitBreaker.recordFailure CircuitBreaker.failures
           CircuitBreaker.threshold CircuitBreaker.timeout] in *.
      split; [lia|]. split; [done|]. split; [done|].
      cbn [EmailStatus.push EmailStatus.status EmailStatus.provider
           EmailStatus.error EmailStatus.timestamp EmailStatus.retryCount
           EmailStatus.attempts] in Hcase.
      destruct Hcase as [(Heq & Hlen & Hchr)|(ok & Hok & Heq & Hlen & Hchr)].
      * left. rewrite Heq, <- app_assoc. cbn [app].
        split; [done|]. split; [lia|].
        cbn [chronological EmailAttempt.timestamp EmailAttempt.duration].
        split; [cbn; lia|]. split; [cbn; lia|].
        eapply chronological_from; [|exact Hchr]. cbn. lia.
      * right. exists ok. split; [done|].
        rewrite Heq, <- app_assoc. cbn [app].
        split; [by rewrite Nat.add_succ_comm|]. split; [lia|].
        cbn [chronological EmailAttempt.timestamp EmailAttempt.duration].
        split; [cbn; lia|]. split; [cbn; lia|].
        eapply chronological_from; [|exact Hchr]. cbn. lia.
Qed.

Lemma same_gates_refl breakers : same_gates breakers breakers.
Proof. intros key. by destruct (breakers !! key). Qed.

Lemma same_gates_trans bm1 bm2 bm3 :
  same_gates bm1 bm2 → same_gates bm2 bm3 → same_gates bm1 bm3.
Proof.
  intros H12 H23 key. specialize (H12 key). specialize (H23 key).
  destruct (bm1 !! key), (bm2 !! key), (bm3 !! key); try done.
  destruct H12, H23. split; congruence.
Qed.

Lemma same_gates_insert breakers key b b' :
  breakers !! key = Some b →
  CircuitBreaker.threshold b' = CircuitBreaker.threshold b →
  CircuitBreaker.timeout b' = CircuitBreaker.timeout b →
  same_gates breakers (<[key := b']> breakers).
Proof.
  intros Hb Hthr Hto key'. destruct (decide (key = key')) as [<-|Hne].
  - by rewrite lookup_insert_eq, Hb.
  - rewrite lookup_insert_ne by done. by destruct (breakers !! key').
Qed.

Lemma same_gates_is_Some bm bm' key :
  same_gates bm bm' → is_Some (bm !! key) → is_Some (bm' !! key).
Proof.
  intros H [b Hb]. specialize (H key). rewrite Hb in H.
  destruct (bm' !! key); [eauto|done].
Qed.

Lemma same_gates_None bm bm' key :
  same_gates bm bm' → bm' !! key = None → bm !! key = None.
Proof.
  intros H Hnone. specialize (H key). rewrite Hnone in H.
  by destruct (bm !! key).
Qed.

(** What the loop over the providers does, whatever the providers do: it
    appends at most [maxRetries] attempts per provider, in the order in
    which they were made; it falls through with failed attempts only, or
    stops at the first successful attempt, which is then the last one, or
    is ended by an exception, which only a provider without a breaker or a
    health check that throws can raise. *)
Lemma tryProviders_shape config email ps :
  ∀ status breakers w,
  ∃ new breakers' w',
    same_gates breakers breakers'
    ∧ (length new ≤ length ps * EmailServiceConfig.maxRetries config)%nat
    ∧ Forall (fun a => EmailAttempt.provider a ∈ EmailProvider.name <$> ps) new
    ∧ chronological (clock w) new (clock w')
    ∧ ((tryProviders config email ps status breakers w
        = (ExitExhausted,
           (EmailStatus.mk (EmailStatus.status status) (EmailStatus.provider status)
              (EmailStatus.error status) (EmailStatus.timestamp status)
              (EmailStatus.retryCount status) (EmailStatus.attempts status ++ new),
            breakers', w'))
        ∧ Forall (fun a => EmailAttempt.success a = false) new)
       ∨ (∃ fails ok retries,
            new = fails ++ [ok]
            ∧ Forall (fun a => EmailAttempt.success a = false) fails
            ∧ EmailAttempt.success ok = true
            ∧ EmailAttempt.error ok = None
            ∧ (retries < EmailServiceConfig.maxRetries config)%nat
            ∧ (retries ≤ length fails)%nat
            ∧ tryProviders config email ps status breakers w
              = (ExitSent,
                 (EmailStatus.mk EmailStatus.sent (Some (EmailAttempt.provider ok))
                    (EmailStatus.error status) (EmailStatus.timestamp status)
                    retries (EmailStatus.attempts status ++ new),
                  breakers', w')))
       ∨ (tryProviders config email ps status breakers w
          = (ExitThrown,
             (EmailStatus.mk (EmailStatus.status status) (EmailStatus.provider status)
                (EmailStatus.error status) (EmailStatus.timestamp status)
                (EmailStatus.retryCount status) (EmailStatus.attempts status ++ new),
              breakers', w'))
          ∧ Forall (fun a => EmailAttempt.success a = false) new
          ∧ ∃ p, p ∈ ps
                 ∧ (breakers !! EmailProvider.name p = None
                    ∨ ¬ health_check_returns p))).
Proof.
  induction ps as [|p ps IH]; intros status breakers w.
  - exists [], breakers, w. rewrite app_nil_r. cbn.
    split; [apply same_gates_refl|]. split; [lia|]. split; [constructor|].
    split; [lia|]. left. by destruct status.
  - (* going on to the remaining providers after [new1] was appended *)
    assert (∀ new1 bm2 w2,
              same_gates breakers bm2 →
              (length new1 ≤ EmailServiceConfig.maxRetries config)%nat →
              Forall (failed_attempt p) new1 →
              chronological (clock w) new1 (clock w2) →
              ∃ new breakers' w',
                same_gates breakers breakers'
                ∧ (length new ≤ length (p :: ps) * EmailServiceConfig.maxRetries config)%nat
                ∧ Forall (fun a => EmailAttempt.provider a
                                   ∈ EmailProvider.name <$> p :: ps) new
                ∧ chronological (clock w) new (clock w')
                ∧ ((tryProviders config email ps
                      (EmailStatus.mk (EmailStatus.status status)
                         (EmailStatus.provider status) (EmailStatus.error status)
                         (EmailStatus.timestamp status) (EmailStatus.retryCount status)
                         (EmailStatus.attempts status ++ new1)) bm2 w2
                    = (ExitExhausted,
                       (EmailStatus.mk (EmailStatus.status status)
                          (EmailStatus.provider status) (EmailStatus.error status)
                          (EmailStatus.timestamp status) (EmailStatus.retryCount status)
                          (EmailStatus.attempts status ++ new),
                        breakers', w'))
                    ∧ Forall (fun a => EmailAttempt.success a = false) new)
                   ∨ (∃ fails ok retries,
                        new = fails ++ [ok]
                        ∧ Forall (fun a => EmailAttempt.success a = false) fails
                        ∧ EmailAttempt.success ok = true
                        ∧ EmailAttempt.error ok = None
                        ∧ (retries < EmailServiceConfig.maxRetries config)%nat
                        ∧ (retries ≤ length fails)%nat
                        ∧ tryProviders config email ps
                            (EmailStatus.mk (EmailStatus.status status)
                               (EmailStatus.provider status) (EmailStatus.error status)
                               (EmailStatus.timestamp status)
                               (EmailStatus.retryCount status)
                               (EmailStatus.attempts status ++ new1)) bm2 w2
                          = (ExitSent,
                             (EmailStatus.mk EmailStatus.sent
                                (Some (EmailAttempt.provider ok))
                                (EmailStatus.error status) (EmailStatus.timestamp status)
                                retries (EmailStatus.attempts status ++ new),
                              breakers', w')))
                   ∨ (tryProviders config email ps
                        (EmailStatus.mk (EmailStatus.status status)
                           (EmailStatus.provider status) (EmailStatus.error status)
                           (EmailStatus.timestamp status) (EmailStatus.retryCount status)
                           (EmailStatus.attempts status ++ new1)) bm2 w2
                      = (ExitThrown,
                         (EmailStatus.mk (EmailStatus.status status)
                            (EmailStatus.provider status) (EmailStatus.error status)
                            (EmailStatus.timestamp status)
                            (EmailStatus.retryCount status)
                            (EmailStatus.attempts status ++ new),
                          breakers', w'))
                      ∧ Forall (fun a => EmailAttempt.success a = false) new
                      ∧ ∃ q, q ∈ p :: ps
                             ∧ (breakers !! EmailProvider.name q = None
                                ∨ ¬ health_check_returns q)))) as Hgo.
    { intros new1 bm2 w2 Hgates Hlen1 Hfa1 Hchr1.
      edestruct (IH (EmailStatus.mk (EmailStatus.status status)
                       (EmailStatus.provider status) (EmailStatus.error status)
                       (EmailStatus.timestamp status) (EmailStatus.retryCount status)
                       (EmailStatus.attempts status ++ new1)) bm2 w2)
        as (new & bm' & w' & Hg & Hlen & Hprov & Hchr & Hcase).
      cbn [EmailStatus.status EmailStatus.provider EmailStatus.error
           EmailStatus.timestamp EmailStatus.retryCount EmailStatus.attempts] in Hcase.
      assert (Forall (fun a => EmailAttempt.success a = false) new1) as Hfs1.
      { eapply Forall_impl; [exact Hfa1|]. by intros a [_ Ha]. }
      exists (new1 ++ new), bm', w'.
      split; [by eapply same_gates_trans|].
      split; [rewrite length_app; cbn [length]; lia|].
      split.
      { apply Forall_app. split.
        - eapply Forall_impl; [exact Hfa1|]. intros a [-> _]. rewrite fmap_cons. by left.
        - eapply Forall_impl; [exact Hprov|]. intros a Ha. rewrite fmap_cons. by right. }
      split; [by eapply chronological_app|].
      rewrite !app_assoc.
      destruct Hcase
        as [[Heq Hall]
           |[(fails & ok & retries & -> & Hfs & Hok & Herr & Hr & Hrl & Heq)
            |(Heq & Hall & q & Hq & Hwhy)]].
      - left. split; [exact Heq|]. by apply Forall_app.
      - right. left. exists (new1 ++ fails), ok, retries.
        split; [by rewrite app_assoc|].
        split; [by apply Forall_app|].
        split; [done|]. split; [done|]. split; [done|].
        split; [rewrite length_app; lia|].
        by rewrite <- !app_assoc in Heq |- *.
      - right. right. split; [exact Heq|]. split; [by apply Forall_app|].
        exists q. split; [by right|].
        destruct Hwhy as [Hnone|Hthrows]; [left|by right].
        by eapply same_gates_None. }
    cbn [tryProviders].
    destruct (breakers !! EmailProvider.name p) as [b|] eqn:Hb.
    2:{ exists [], breakers, w. rewrite app_nil_r.
        split; [apply same_gates_refl|]. split; [cbn; lia|]. split; [constructor|].
        split; [cbn; lia|]. right. right. destruct status. cbn.
        split; [done|]. split; [constructor|]. exists p. split; [by left|by left]. }
    pose proof (isOpen_invariants (clock w) b) as (Hthr & Hto & _).
    destruct (CircuitBreaker.isOpen (clock w) b) as [o b1]. cbn [snd] in Hthr, Hto.
    pose proof (same_gates_insert breakers _ b b1 Hb Hthr Hto) as Hg1.
    destruct o.
    { destruct (Hgo [] (<[EmailProvider.name p := b1]> breakers) w Hg1)
        as (new & bm' & w' & H); [cbn; lia|constructor|cbn; lia|].
      rewrite app_nil_r in H. destruct status. by exists new, bm', w'. }
    destruct (EmailProvider.isHealthy p (ext w)) as [[[|]|] x] eqn:Hhealth; cbn [negb].
    2:{ destruct (Hgo [] (<[EmailProvider.name p := b1]> breakers) (set_ext x w) Hg1)
          as (new & bm' & w' & H); [cbn; lia|constructor|cbn; lia|].
        rewrite app_nil_r in H. destruct status. by exists new, bm', w'. }
    2:{ exists [], (<[EmailProvider.name p := b1]> breakers), (set_ext x w).
        rewrite app_nil_r.
        split; [done|]. split; [cbn; lia|]. split; [constructor|].
        split; [cbn; lia|]. right. right. destruct status. cbn.
        split; [done|]. split; [constructor|]. exists p. split; [by left|right].
        intros Hret. apply (Hret (ext w)). by rewrite Hhealth. }
    destruct (retryLoop_shape config p email (EmailServiceConfig.maxRetries config)
                0%nat status b1 (set_ext x w))
      as (fails & b2 & w2 & Hfa & Hfail & Hthr2 & Hto2 & Hcase).
    assert (same_gates breakers
              (<[EmailProvider.name p := b2]> (<[EmailProvider.name p := b1]> breakers)))
      as Hg2.
    { eapply same_gates_trans; [exact Hg1|].
      eapply same_gates_insert; [apply lookup_insert_eq|done|done]. }
    destruct Hcase as [(-> & Hlen & Hchr)|(ok & Hok & -> & Hlen & Hchr)].
    + destruct (Hgo fails _ w2 Hg2) as (new & bm' & w' & H); [lia|done|done|].
      by exists new, bm', w'.
    + exists (fails ++ [ok]), (<[EmailProvider.name p := b2]>
                                (<[EmailProvider.name p := b1]> breakers)), w2.
      split; [done|]. split; [rewrite length_app; cbn; lia|].
      split.
      { apply Forall_app. split.
        - eapply Forall_impl; [exact Hfa|]. intros a [-> _]. rewrite fmap_cons. by left.
        - constructor; [|constructor]. destruct Hok as (-> & _). rewrite fmap_cons. by left. }
      split; [done|]. right. left. exists fails, ok, (length fails).
      destruct Hok as (Hn & Hs & He).
      split; [done|]. split; [eapply Forall_impl; [exact Hfa|]; by intros a [_ Ha]|].
      split; [done|]. split; [done|]. split; [lia|]. split; [done|].
      by rewrite Hn.
Qed.
End PipelineShape.

Section OutcomeFacts.
Import EmailService.
Context {Ext : Type}.
Implicit Types (p : EmailProvider.t Ext) (w : World Ext) (s : t Ext).
Implicit Types (sw : t Ext * World Ext) (op : Op).

Lemma has_breakers_is_Some s p :
  has_breakers s → p ∈ providers s → is_Some (breakerMap s !! EmailProvider.name p).
Proof. intros H Hp. destruct (H p Hp) as (b & Hb & _). eauto. Qed.

(** [processEmail], whatever the providers do.  [status] is the Status
    that the call leaves under the id of the request. *)
Lemma processEmail_shape email s w :
  ∃ r status s' w' new,
    processEmail email s w = (r, s', w')
    ∧ statusMap s' = <[EmailRequest.id email := status]> (statusMap s)
    ∧ same_setup s s'
    ∧ queue s' = queue s ∧ processing s' = processing s
    ∧ rateLimiter s' = rateLimiter s
    ∧ EmailStatus.timestamp status = clock w
    ∧ EmailStatus.attempts status = new
    ∧ (length new ≤ length (providers s)
                    * EmailServiceConfig.maxRetries (config s))%nat
    ∧ Forall (fun a => EmailAttempt.provider a ∈ EmailProvider.name <$> providers s) new
    ∧ chronological (clock w) new (clock w')
    ∧ ((r = Returned status
        ∧ EmailStatus.status status = EmailStatus.failed
        ∧ sentEmails s' = sentEmails s
        ∧ EmailStatus.error status = Some "All providers failed after retries"
        ∧ EmailStatus.provider status = None
        ∧ EmailStatus.retryCount status = 0%nat
        ∧ Forall (fun a => EmailAttempt.success a = false) new)
       ∨ (r = Returned status
          ∧ ∃ fails ok,
            new = fails ++ [ok]
            ∧ Forall (fun a => EmailAttempt.success a = false) fails
            ∧ EmailAttempt.success ok = true
            ∧ EmailAttempt.error ok = None
            ∧ EmailStatus.status status = EmailStatus.sent
            ∧ sentEmails s' = {[EmailRequest.id email]} ∪ sentEmails s
            ∧ EmailStatus.error status = None
            ∧ EmailStatus.provider status = Some (EmailAttempt.provider ok)
            ∧ (EmailStatus.retryCount status
               < EmailServiceConfig.maxRetries (config s))%nat
            ∧ (EmailStatus.retryCount status ≤ length fails)%nat)
       ∨ (r = Thrown
          ∧ EmailStatus.status status = EmailStatus.pending
          ∧ sentEmails s' = sentEmails s
          ∧ EmailStatus.error status = None
          ∧ EmailStatus.provider status = None
          ∧ EmailStatus.retryCount status = 0%nat
          ∧ Forall (fun a => EmailAttempt.success a = false) new
          ∧ ∃ p, p ∈ providers s
                 ∧ (breakerMap s !! EmailProvider.name p = None
                    ∨ ¬ health_check_returns p))).
Proof.
  unfold processEmail.
  cbn [config providers breakerMap set_statusMap].
  edestruct (tryProviders_shape (config s) email (providers s)
               (EmailStatus.mk EmailStatus.pending None None (clock w) 0 [])
               (breakerMap s) w)
    as (new & bm & w' & Hg & Hlen & Hprov & Hchr & Hcase).
  cbn [EmailStatus.status EmailStatus.provider EmailStatus.error
       EmailStatus.timestamp EmailStatus.retryCount EmailStatus.attempts app] in Hcase.
  destruct Hcase
    as [[-> Hall]
       |[(fails & ok & retries & Hnew & Hfs & Hok & Herr & Hr & Hrl & ->)
        |(-> & Hall & Hwhy)]].
  - eexists _, _, _, w', new. split; [reflexivity|].
    cbn. rewrite insert_insert_eq.
    repeat (split; [done|]). left. done.
  - eexists _, _, _, w', new. split; [reflexivity|].
    cbn. rewrite insert_insert_eq.
    repeat (split; [done|]). right. left. split; [done|]. exists fails, ok. done.
  - eexists _, _, _, w', new. split; [reflexivity|].
    cbn. rewrite insert_insert_eq.
    repeat (split; [done|]). right. right. done.
Qed.

(** [processEmail] on an engine whose providers all have a breaker and a
    health check that returns: the call returns. *)
Lemma processEmail_returns email s w :
  (∀ p, p ∈ providers s → is_Some (breakerMap s !! EmailProvider.name p)) →
  Forall health_check_returns (providers s) →
  ∃ status s' w' new,
    processEmail email s w = (Returned status, s', w')
    ∧ statusMap s' = <[EmailRequest.id email := status]> (statusMap s)
    ∧ same_setup s s'
    ∧ queue s' = queue s ∧ processing s' = processing s
    ∧ rateLimiter s' = rateLimiter s
    ∧ EmailStatus.timestamp status = clock w
    ∧ EmailStatus.attempts status = new
    ∧ (length new ≤ length (providers s)
                    * EmailServiceConfig.maxRetries (config s))%nat
    ∧ Forall (fun a => EmailAttempt.provider a ∈ EmailProvider.name <$> providers s) new
    ∧ chronological (clock w) new (clock w')
    ∧ ((EmailStatus.status status = EmailStatus.failed
        ∧ sentEmails s' = sentEmails s
        ∧ EmailStatus.error status = Some "All providers failed after retries"
        ∧ EmailStatus.provider status = None
        ∧ EmailStatus.retryCount status = 0%nat
        ∧ Forall (fun a => EmailAttempt.success a = false) new)
       ∨ (∃ fails ok,
            new = fails ++ [ok]
            ∧ Forall (fun a => EmailAttempt.success a = false) fails
            ∧ EmailAttempt.success ok = true
            ∧ EmailAttempt.error ok = None
            ∧ EmailStatus.status status = EmailStatus.sent
            ∧ sentEmails s' = {[EmailRequest.id email]} ∪ sentEmails s
            ∧ EmailStatus.error status = None
            ∧ EmailStatus.provider status = Some (EmailAttempt.provider ok)
            ∧ (EmailStatus.retryCount status
               < EmailServiceConfig.maxRetries (config s))%nat
            ∧ (EmailStatus.retryCount status ≤ length fails)%nat)).
Proof.
  intros Hhas Hret.
  destruct (processEmail_shape email s w)
    as (r & status & s' & w' & new & Heq & Hmap & Hsetup & Hq & Hp & Hrl & Hts & Hat
        & Hlen & Hprov & Hchr & Hcase).
  destruct Hcase as [(-> & H)|[(-> & H)|(_ & _ & _ & _ & _ & _ & _ & p & Hin & Hwhy)]].
  - exists status, s', w', new. repeat (split; [done|]). by left.
  - exists status, s', w', new. repeat (split; [done|]). by right.
  - exfalso. destruct Hwhy as [Hnone|Hthrows].
    + destruct (Hhas p Hin) as [b Hb]. congruence.
    + rewrite Forall_forall in Hret. by apply Hthrows, Hret.
Qed.

Lemma same_setup_refl s : same_setup s s.
Proof. split; [done|]. split; [done|]. apply same_gates_refl. Qed.

Lemma same_setup_eq s s' :
  providers s' = providers s → config s' = config s → breakerMap s' = breakerMap s →
  same_setup s s'.
Proof.
  intros Hp Hc Hb. split; [done|]. split; [done|]. rewrite Hb. apply same_gates_refl.
Qed.

Lemma same_setup_trans s1 s2 s3 :
  same_setup s1 s2 → same_setup s2 s3 → same_setup s1 s3.
Proof.
  intros (Hp & Hc & Hg) (Hp' & Hc' & Hg').
  split; [congruence|]. split; [congruence|]. by eapply same_gates_trans.
Qed.

Lemma same_setup_has_breakers s s' :
  same_setup s s' → has_breakers s → has_breakers s'.
Proof.
  intros (Hp & Hc & Hg) Hhas p Hin. rewrite Hp in Hin.
  destruct (Hhas p Hin) as (b & Hb & Hthr & Hto).
  specialize (Hg (EmailProvider.name p)). rewrite Hb in Hg.
  destruct (breakerMap s' !! EmailProvider.name p) as [b'|]; [|done].
  destruct Hg as [Hthr' Hto']. exists b'. rewrite Hc. split; [done|]. split; congruence.
Qed.

Lemma same_gates_fmap (f : CircuitBreaker.t → CircuitBreaker.t) breakers :
  (∀ b, CircuitBreaker.threshold (f b) = CircuitBreaker.threshold b
        ∧ CircuitBreaker.timeout (f b) = CircuitBreaker.timeout b) →
  same_gates breakers (f <$> breakers).
Proof.
  intros Hf key. rewrite lookup_fmap. destruct (breakers !! key) as [b|]; cbn; [|done].
  apply Hf.
Qed.

(** What [processEmail] never changes, and how it leaves the clock. *)
Lemma processEmail_setup email s w :
  let r := processEmail email s w in
  same_setup s r.1.2 ∧ clock w ≤ clock r.2
  ∧ queue r.1.2 = queue s ∧ processing r.1.2 = processing s
  ∧ rateLimiter r.1.2 = rateLimiter s.
Proof.
  destruct (processEmail_shape email s w)
    as (r & status & s' & w' & new & -> & _ & Hsetup & Hq & Hp & Hrl & _ & _ & _ & _
        & Hchr & _).
  cbn. split; [done|]. split; [by apply chronological_le in Hchr|]. done.
Qed.

(** [sendEmail]: time does not go back, and the queue and the set-up of
    the engine are left alone. *)
Lemma sendEmail_setup email s w :
  let r := sendEmail email s w in
  same_setup s r.1.2 ∧ clock w ≤ clock r.2
  ∧ queue r.1.2 = queue s ∧ processing r.1.2 = processing s.
Proof.
  unfold sendEmail. case_bool_decide.
  - cbn. split; [apply same_setup_refl|]. by split; [lia|].
  - destruct (RateLimiter.allow _ _) as [[|] limiter]; cbn [negb].
    + pose proof (processEmail_setup email (set_rateLimiter limiter s) w)
        as (Hsetup & Hc & Hq & Hp & _).
      by destruct (processEmail _ _ _) as [[[status|] s'] w'].
    + cbn. split; [split; [done|]; split; [done|]; apply same_gates_refl|].
      by split; [lia|].
Qed.

(** A turn of the loop: the set-up, the rate limiter, the flags and the
    capacity of the queue are left alone, and time does not go back. *)
Lemma turn_setup sw :
  same_setup sw.1 (turn sw).1 ∧ clock sw.2 ≤ clock (turn sw).2
  ∧ rateLimiter (turn sw).1 = rateLimiter sw.1
  ∧ processing (turn sw).1 = processing sw.1
  ∧ EmailQueue.processing (queue (turn sw).1) = EmailQueue.processing (queue sw.1)
  ∧ EmailQueue.maxSize (queue (turn sw).1) = EmailQueue.maxSize (queue sw.1).
Proof.
  destruct sw as [s w]. pose proof (turn_spec (s, w)) as Hturn. cbn [fst snd] in *.
  destruct (EmailQueue.queue (queue s)) as [|item rest].
  { rewrite Hturn. cbn. split; [apply same_setup_refl|]. by split; [lia|]. }
  destruct Hturn as (r & s1 & w1 & Hp & ->).
  match type of Hp with
  | processEmail ?e ?s0 ?w0 = _ =>
      pose proof (processEmail_setup e s0 w0) as (Hsetup & Hc & Hq & Hpr & Hrl)
  end.
  rewrite Hp in Hsetup, Hc, Hq, Hpr, Hrl. cbn [fst snd] in *.
  assert (same_setup s s1) as Hsetup' by exact Hsetup.
  cbn [rateLimiter processing set_queue] in Hrl, Hpr.
  pose proof (enqueue_fields (queue s1) (EmailQueueItem.email item)
                (EmailQueueItem.priority item) (clock w1)) as (Hm & Hf & _).
  rewrite Hq in Hm, Hf. cbn in Hm, Hf.
  destruct r; [|destruct (_ <? 3)%nat]; cbn [fst snd];
    repeat (split; [done|]); try (by rewrite Hq); cbn; by rewrite ?Hq.
Qed.

Lemma startQueueProcessing_setup sw :
  same_setup sw.1 (startQueueProcessing sw).1
  ∧ clock sw.2 ≤ clock (startQueueProcessing sw).2
  ∧ rateLimiter (startQueueProcessing sw).1 = rateLimiter sw.1
  ∧ processing (startQueueProcessing sw).1 = true
  ∧ (processing sw.1 = EmailQueue.processing (queue sw.1) →
     EmailQueue.processing (queue (startQueueProcessing sw).1) = true).
Proof.
  destruct sw as [s w]. rewrite startQueueProcessing_turn. cbn [fst snd].
  destruct (processing s) eqn:Hp.
  { cbn. split; [apply same_setup_refl|]. split; [lia|]. done. }
  destruct (EmailQueue.processing (queue s)) eqn:Hq.
  { cbn. split; [split; [done|]; split; [done|]; apply same_gates_refl|].
    split; [lia|]. done. }
  match goal with |- context [turn ?x] => pose proof (turn_setup x) as H end.
  cbn [fst snd] in H. destruct H as (Hs & Hc & Hrl & Hpr & Hqp & _).
  split; [exact Hs|]. split; [exact Hc|]. split; [exact Hrl|]. by split.
Qed.

Lemma queueEmail_setup email priority s w :
  ∃ r s' w',
    queueEmail email priority s w = (Returned r, s', w')
    ∧ same_setup s s' ∧ rateLimiter s' = rateLimiter s ∧ clock w ≤ clock w'.
Proof.
  destruct (decide (EmailRequest.id email ∈ sentEmails s)) as [Hin|Hout].
  - rewrite queueEmail_sent by done. eexists _, s, w. split; [done|].
    split; [apply same_setup_refl|]. by split; [|lia].
  - rewrite (queueEmail_fresh email priority s w Hout). cbn [fst snd].
    eexists _, _, _. split; [reflexivity|].
    destruct (processing s).
    + cbn. split; [by apply same_setup_eq|]. by split; [|lia].
    + match goal with
      | |- context [startQueueProcessing ?x] =>
          pose proof (startQueueProcessing_setup x) as (Hs & Hc & Hrl & _)
      end.
      split; [|by split].
      eapply same_setup_trans; [|exact Hs]. by apply same_setup_eq.
Qed.

Lemma drain_setup sw :
  same_setup sw.1 (drain sw).1 ∧ clock sw.2 ≤ clock (drain sw).2.
Proof.
  rewrite drain_turn.
  destruct (EmailQueue.processing _); [|split; [apply same_setup_refl|lia]].
  destruct (turn_setup sw) as (Hs & Hc & _).
  split; [exact Hs|]. etrans; [exact Hc|]. apply clock_sleep.
Qed.

(** No transition changes the providers, the configuration or the gates of
    the breakers, and none moves the clock back. *)
Lemma step_setup op sw :
  same_setup sw.1 (step op sw).1 ∧ clock sw.2 ≤ clock (step op sw).2.
Proof.
  destruct sw as [s w].
  destruct op as [email|email priority| | | | | |d]; cbn [step fst snd].
  - pose proof (sendEmail_setup email s w) as (Hs & Hc & _).
    by destruct (sendEmail _ _ _) as [[r s'] w'].
  - by destruct (queueEmail_setup email priority s w) as (r & s' & w' & -> & Hs & _ & Hc).
  - by destruct (startQueueProcessing_setup (s, w)) as (Hs & Hc & _).
  - split; [|cbn; lia]. split; [done|]. split; [done|]. apply same_gates_refl.
  - split; [|cbn; lia]. split; [done|]. split; [done|].
    apply same_gates_fmap. intros b.
    destruct (isOpen_invariants (clock w) b) as (H1 & H2 & _). by split.
  - split; [|cbn; lia]. split; [done|]. split; [done|].
    by apply same_gates_fmap.
  - apply drain_setup.
  - split; [apply same_setup_refl|]. cbn. lia.
Qed.

Lemma steps_setup history sw :
  same_setup sw.1 (steps history sw).1 ∧ clock sw.2 ≤ clock (steps history sw).2.
Proof.
  revert sw. induction history as [|op history IH]; intros sw.
  - split; [apply same_setup_refl|]. cbn. lia.
  - change (steps (op :: history) sw) with (steps history (step op sw)).
    destruct (step_setup op sw) as [Hs Hc].
    destruct (IH (step op sw)) as [Hs' Hc'].
    split; [by eapply same_setup_trans|lia].
Qed.

(** The constructor gives every provider a fresh breaker under its name. *)
Lemma new_breakers (ps : list (EmailProvider.t Ext)) c key :
  breakerMap (new ps c) !! key =
  if bool_decide (key ∈ EmailProvider.name <$> ps)
  then Some (CircuitBreaker.new
               (EmailServiceConfig.circuitBreakerThreshold (mergeConfig c))
               (EmailServiceConfig.circuitBreakerTimeoutMs (mergeConfig c)))
  else None.
Proof.
  unfold new. cbn [breakerMap].
  set (fresh := CircuitBreaker.new _ _).
  assert (∀ m : gmap string CircuitBreaker.t,
            foldl (fun m provider => <[EmailProvider.name provider := fresh]> m) m ps
            !! key
            = if bool_decide (key ∈ EmailProvider.name <$> ps) then Some fresh
              else m !! key) as Hfold.
  { induction ps as [|p ps IH]; intros m; cbn [foldl].
    - rewrite bool_decide_eq_false_2; [done|]. cbn. apply not_elem_of_nil.
    - rewrite IH, fmap_cons. destruct (decide (key ∈ EmailProvider.name <$> ps)) as [Hin|Hout].
      + rewrite !bool_decide_eq_true_2; [done| by right |done].
      + rewrite (bool_decide_eq_false_2 _ Hout).
        destruct (decide (EmailProvider.name p = key)) as [Heq|Hne].
        * rewrite Heq, lookup_insert_eq, bool_decide_eq_true_2; [done|by left].
        * rewrite lookup_insert_ne by done.
          rewrite bool_decide_eq_false_2; [done|].
          intros [?|?]%elem_of_cons; congruence. }
  rewrite Hfold. by case_bool_decide.
Qed.

Lemma new_has_breakers (ps : list (EmailProvider.t Ext)) c : has_breakers (new ps c).
Proof.
  intros p Hp. rewrite new_breakers.
  rewrite bool_decide_eq_true_2 by (by apply list_elem_of_fmap_2).
  eexists. split; [done|]. done.
Qed.

Lemma reachable_has_breakers sw : reachable sw → has_breakers sw.1.
Proof.
  intros (ps & c & w & history & ->).
  eapply same_setup_has_breakers; [|apply new_has_breakers].
  apply (steps_setup history (new ps c, w)).
Qed.
End OutcomeFacts.

(** X1 (every provider has its breaker).  The constructor stores a fresh
    breaker, with the configured threshold and timeout, under the name of
    each provider and under no other key; and in every state the engine can
    reach each provider still has a breaker under its name with that
    threshold and timeout, so the lookup [breakerMap.get(provider.name)!]
    of the pipeline never comes back empty. *)
Theorem breakers_always_present :
  (∀ (Ext : Type) (ps : list (EmailProvider.t Ext)) c key,
     EmailService.breakerMap (EmailService.new ps c) !! key
     = if bool_decide (key ∈ EmailProvider.name <$> ps)
       then Some (CircuitBreaker.mk 0 0
                    (EmailServiceConfig.circuitBreakerThreshold
                       (EmailService.mergeConfig c))
                    (EmailServiceConfig.circuitBreakerTimeoutMs
                       (EmailService.mergeConfig c)))
       else None)
  ∧ (∀ (Ext : Type) (sw : EmailService.t Ext * EmailService.World Ext),
       EmailService.reachable sw → EmailService.has_breakers sw.1).
Proof.
  split.
  - intros Ext ps c key. apply new_breakers.
  - intros Ext sw. apply reachable_has_breakers.
Qed.



(** A health check that throws: [sendEmail] throws, no provider is
    called, and the Status of the request stays [pending]. *)
Example sendEmail_throws_after_health_check :
  let r := EmailService.sendEmail (Scenario.request "welcome-001")
             (EmailService.new [Scenario.BrokenProbe; Scenario.AlwaysSucceeds]
                EmailService.noConfig)
             Scenario.start in
  r.1.1 = EmailService.Thrown
  ∧ EmailService.statusMap r.1.2 !! "welcome-001"
    = Some (EmailStatus.mk EmailStatus.pending None None 1000000 0 [])
  ∧ r.2 = Scenario.start.
Proof. by vm_compute. Qed.

(** X3 (what the pipeline can return).  On an engine whose providers have
    their breakers and health checks that return, [processEmail] returns a
    Status that it has stored under the id of the request and whose
    timestamp is the time of the call.  The Status holds at most
    [providers.length * maxRetries] attempts, each against one of the
    providers.  It is either [failed], with the error "All providers failed
    after retries", no provider, a [retryCount] of 0, only failed attempts,
    and the sent-set as it was; or [sent], with no error, exactly one
    successful attempt, the last one, the provider of that attempt, a
    [retryCount] below [maxRetries], and the id added to the sent-set. *)
Theorem pipeline_outcome {Ext : Type}
    (s : EmailService.t Ext) (w : EmailService.World Ext) (email : EmailRequest.t) :
  EmailService.has_breakers s →
  Forall EmailService.health_check_returns (EmailService.providers s) →
  ∃ status s' w',
    EmailService.processEmail email s w = (EmailService.Returned status, s', w')
    ∧ EmailService.statusMap s' !! EmailRequest.id email = Some status
    ∧ EmailStatus.timestamp status = EmailService.clock w
    ∧ (length (EmailStatus.attempts status)
       ≤ length (EmailService.providers s)
         * EmailServiceConfig.maxRetries (EmailService.config s))%nat
    ∧ Forall (fun a => EmailAttempt.provider a
                       ∈ EmailProvider.name <$> EmailService.providers s)
        (EmailStatus.attempts status)
    ∧ ((EmailStatus.status status = EmailStatus.failed
        ∧ EmailService.sentEmails s' = EmailService.sentEmails s
        ∧ EmailStatus.error status = Some "All providers failed after retries"
        ∧ EmailStatus.provider status = None
        ∧ EmailStatus.retryCount status = 0%nat
        ∧ Forall (fun a => EmailAttempt.success a = false) (EmailStatus.attempts status))
       ∨ (∃ fails ok,
            EmailStatus.attempts status = fails ++ [ok]
            ∧ Forall (fun a => EmailAttempt.success a = false) fails
            ∧ EmailAttempt.success ok = true
            ∧ EmailStatus.status status = EmailStatus.sent
            ∧ EmailService.sentEmails s'
              = {[EmailRequest.id email]} ∪ EmailService.sentEmails s
            ∧ EmailStatus.error status = None
            ∧ EmailStatus.provider status = Some (EmailAttempt.provider ok)
            ∧ (EmailStatus.retryCount status
               < EmailServiceConfig.maxRetries (EmailService.config s))%nat)).
Proof.
  intros Hhas Hret.
  destruct (processEmail_returns email s w)
    as (status & s' & w' & new & Heq & Hmap & _ & _ & _ & _ & Hts & Hat & Hlen & Hprov & _ & Hcase);
    [|exact Hret|].
  { intros p Hp. by apply has_breakers_is_Some. }
  exists status, s', w'. split; [exact Heq|].
  split; [by rewrite Hmap, lookup_insert_eq|]. split; [exact Hts|].
  rewrite Hat. split; [exact Hlen|]. split; [exact Hprov|].
  destruct Hcase as [H|(fails & ok & H1 & H2 & H3 & _ & H4 & H5 & H6 & H7 & H8 & _)].
  - by left.
  - right. by exists fails, ok.
Qed.

Lemma pipeline_outcome_witness :
  ∃ status s' w',
    EmailService.processEmail (Scenario.request "welcome-001")
      (EmailService.new [Scenario.FailsUntil 4; Scenario.AlwaysSucceeds]
         EmailService.noConfig)
      Scenario.start
    = (EmailService.Returned status, s', w')
    ∧ (length (EmailStatus.attempts status) ≤ 2 * 3)%nat.
Proof.
  edestruct (pipeline_outcome
               (EmailService.new [Scenario.FailsUntil 4; Scenario.AlwaysSucceeds]
                  EmailService.noConfig)
               Scenario.start (Scenario.request "welcome-001"))
    as (status & s' & w' & Heq & _ & _ & Hlen & _).
  - intros p Hp. apply list_elem_of_In in Hp.
    destruct Hp as [<-|[<-|[]]]; (eexists; split; [by vm_compute|done]).
  - repeat constructor; by intros x.
  - exists status, s', w'. split; [exact Heq|exact Hlen].
Defined.

(** X4 (attempts are recorded in the order in which they were made).  On
    an engine whose providers have their breakers and health checks that
    return: in the Status that [processEmail] returns, the first attempt
    starts no earlier than the Status was created, every attempt starts no
    earlier than the one before it ended and takes no negative time, and the
    last one ends no later than the call; so the timestamps of the attempts
    never decrease along the list. *)
Theorem attempts_in_order {Ext : Type}
    (s : EmailService.t Ext) (w : EmailService.World Ext) (email : EmailRequest.t) :
  EmailService.has_breakers s →
  Forall EmailService.health_check_returns (EmailService.providers s) →
  ∃ status s' w',
    EmailService.processEmail email s w = (EmailService.Returned status, s', w')
    ∧ EmailService.chronological (EmailStatus.timestamp status)
        (EmailStatus.attempts status) (EmailService.clock w')
    ∧ Sorted Z.le (EmailAttempt.timestamp <$> EmailStatus.attempts status)
    ∧ Forall (fun a => EmailStatus.timestamp status ≤ EmailAttempt.timestamp a
                       ≤ EmailService.clock w')
        (EmailStatus.attempts status).
Proof.
  intros Hhas Hret.
  destruct (processEmail_returns email s w)
    as (status & s' & w' & new & Heq & _ & _ & _ & _ & _ & Hts & Hat & _ & _ & Hchr & _);
    [|exact Hret|].
  { intros p Hp. by apply has_breakers_is_Some. }
  exists status, s', w'. split; [exact Heq|]. rewrite Hat, Hts.
  split; [exact Hchr|]. apply chronological_timestamps in Hchr as [Hall Hsorted].
  by split.
Qed.

Lemma attempts_in_order_witness :
  ∃ status s' w',
    EmailService.processEmail (Scenario.request "welcome-001")
      (EmailService.new [Scenario.FailsUntil 4; Scenario.AlwaysSucceeds]
         EmailService.noConfig)
      Scenario.start
    = (EmailService.Returned status, s', w')
    ∧ Sorted Z.le (EmailAttempt.timestamp <$> EmailStatus.attempts status).
Proof.
  edestruct (attempts_in_order
               (EmailService.new [Scenario.FailsUntil 4; Scenario.AlwaysSucceeds]
                  EmailService.noConfig)
               Scenario.start (Scenario.request "welcome-001"))
    as (status & s' & w' & Heq & _ & Hsorted & _).
  - intros p Hp. apply list_elem_of_In in Hp.
    destruct Hp as [<-|[<-|[]]]; (eexists; split; [by vm_compute|done]).
  - repeat constructor; by intros x.
  - exists status, s', w'. split; [exact Heq|exact Hsorted].
Defined.

(** ** More on the circuit breaker *)

(** X5 (when a breaker is open).  After a [reset], and then failures
    recorded at the times [times], [isOpen] at time [now] returns [true]
    exactly when at least [threshold] failures were recorded and less than
    [timeout] has gone by since the last of them (since the breaker's earlier
    last-failure time when none was recorded). *)
Theorem breaker_verdict (cb : CircuitBreaker.t) (times : list Z) (now : Z) :
  (CircuitBreaker.isOpen now
     (CircuitBreaker.recordFailures times (CircuitBreaker.reset cb))).1 = true
  ↔ (CircuitBreaker.threshold cb ≤ length times)%nat
    ∧ now - default (CircuitBreaker.lastFailureTime cb) (last times)
      < CircuitBreaker.timeout cb.
Proof.
  destruct (recordFailures_fields times (CircuitBreaker.reset cb)) as (Hf & Hl & Ht & Hto).
  cbn [CircuitBreaker.reset CircuitBreaker.failures CircuitBreaker.lastFailureTime
       CircuitBreaker.threshold CircuitBreaker.timeout] in *.
  unfold CircuitBreaker.isOpen. rewrite Hf, Hl, Ht, Hto. cbn [Nat.add].
  destruct (Nat.leb_spec (CircuitBreaker.threshold cb) (length times));
    [|split; [done|lia]].
  destruct (Z.ltb_spec
              (now - default (CircuitBreaker.lastFailureTime cb) (last times))
              (CircuitBreaker.timeout cb)); cbn; split; try done; lia.
Qed.

Lemma isOpen_transparent (cb : CircuitBreaker.t) (now now' : Z) :
  now ≤ now' →
  CircuitBreaker.isOpen now' (CircuitBreaker.isOpen now cb).2
  = CircuitBreaker.isOpen now' cb.
Proof.
  intros Hle. unfold CircuitBreaker.isOpen.
  destruct (Nat.leb_spec (CircuitBreaker.threshold cb) (CircuitBreaker.failures cb))
    as [Htrip|Hbelow].
  - destruct (Z.ltb_spec (now - CircuitBreaker.lastFailureTime cb)
                (CircuitBreaker.timeout cb)) as [Hin|Hout]; cbn [snd].
    + destruct (Nat.leb_spec (CircuitBreaker.threshold cb) (CircuitBreaker.failures cb));
        [done|lia].
    + cbn [CircuitBreaker.reset CircuitBreaker.failures CircuitBreaker.threshold
           CircuitBreaker.lastFailureTime CircuitBreaker.timeout].
      destruct (Z.ltb_spec (now' - CircuitBreaker.lastFailureTime cb)
                  (CircuitBreaker.timeout cb)); [lia|].
      by destruct (CircuitBreaker.threshold cb <=? 0)%nat.
  - cbn [snd].
    by destruct (Nat.leb_spec (CircuitBreaker.threshold cb) (CircuitBreaker.failures cb));
      [lia|].
Qed.

(** X6 (evaluating a breaker does not change what it will say).  For a
    breaker on which no failure is recorded in between: the state that an
    evaluation of [isOpen] leaves behind gives, at any later time, the same
    verdict and the same state as the untouched breaker would; and once
    [isOpen] has returned [false] it returns [false] at every later time. *)
Theorem breaker_evaluation_is_transparent (cb : CircuitBreaker.t) (now now' : Z) :
  now ≤ now' →
  CircuitBreaker.isOpen now' (CircuitBreaker.isOpen now cb).2
  = CircuitBreaker.isOpen now' cb
  ∧ ((CircuitBreaker.isOpen now cb).1 = false →
     (CircuitBreaker.isOpen now' cb).1 = false).
Proof.
  intros Hle. split; [by apply isOpen_transparent|].
  intros H. by apply (isOpen_closed_later now).
Qed.

Lemma breaker_evaluation_is_transparent_witness :
  CircuitBreaker.isOpen 20000
    (CircuitBreaker.isOpen 15000 (CircuitBreaker.mk 3 1000 3 10000)).2
  = CircuitBreaker.isOpen 20000 (CircuitBreaker.mk 3 1000 3 10000).
Proof.
  refine (proj1 (breaker_evaluation_is_transparent
                   (CircuitBreaker.mk 3 1000 3 10000) 15000 20000 _)).
  lia.
Defined.

(** ** Reading the statistics does not disturb the pipeline *)

Section StatsFacts.
Import EmailService.
Context {Ext : Type}.
Implicit Types (p : EmailProvider.t Ext) (w : World Ext) (s : t Ext).
Implicit Types (bm : gmap string CircuitBreaker.t).

Lemma alike_maps_refl now bm : alike_maps now bm bm.
Proof. intros key. destruct (bm !! key); [|done]. by intros now' _. Qed.

Lemma alike_maps_insert now bm bm' key b :
  alike_maps now bm bm' → alike_maps now (<[key := b]> bm) (<[key := b]> bm').
Proof.
  intros H key'. destruct (decide (key = key')) as [<-|Hne].
  - rewrite !lookup_insert_eq. by intros now' _.
  - rewrite !lookup_insert_ne by done. apply H.
Qed.

Lemma retryLoop_clock config p email remaining attempt status b w :
  clock w ≤ clock (retryLoop config p email remaining attempt status b w).2.2.
Proof.
  destruct (retryLoop_shape config p email remaining attempt status b w)
    as (fails & b' & w' & _ & _ & _ & _ & [(-> & _ & Hchr)|(ok & _ & -> & _ & Hchr)]);
    by apply chronological_le in Hchr.
Qed.

(** Breaker maps that are alike lead the loop over the providers to the
    same exit, the same Status and the same world. *)
Lemma tryProviders_alike config email ps :
  ∀ status bm bm' w now,
  alike_maps now bm bm' → now ≤ clock w →
  ∃ exit status' bm1 bm1' w',
    tryProviders config email ps status bm w = (exit, (status', bm1, w'))
    ∧ tryProviders config email ps status bm' w = (exit, (status', bm1', w'))
    ∧ alike_maps now bm1 bm1'.
Proof.
  induction ps as [|p ps IH]; intros status bm bm' w now Hal Hnow.
  - by eexists _, _, _, _, _.
  - cbn [tryProviders]. pose proof (Hal (EmailProvider.name p)) as Hp.
    destruct (bm !! EmailProvider.name p) as [b|], (bm' !! EmailProvider.name p) as [b'|];
      try done; [|by eexists _, _, _, _, _].
    rewrite (Hp (clock w) Hnow).
    destruct (CircuitBreaker.isOpen (clock w) b) as [o b1].
    pose proof (alike_maps_insert now bm bm' (EmailProvider.name p) b1 Hal) as Hal1.
    destruct o; [by apply IH|].
    destruct (EmailProvider.isHealthy p (ext w)) as [[[|]|] x]; cbn [negb];
      [|by apply IH|by eexists _, _, _, _, _].
    pose proof (retryLoop_clock config p email (EmailServiceConfig.maxRetries config)
                  0 status b1 (set_ext x w)) as Hclock.
    destruct (retryLoop _ _ _ _ _ _ _ _) as [done [[status2 b2] w2]].
    cbn in Hclock.
    pose proof (alike_maps_insert now _ _ (EmailProvider.name p) b2 Hal1) as Hal2.
    destruct done; [by eexists _, _, _, _, _|].
    apply IH; [done|lia].
Qed.

Lemma getServiceStats_alike s w :
  alike_maps (clock w) (breakerMap s) (breakerMap (getServiceStats s w).2).
Proof.
  intros key. cbn. rewrite lookup_fmap.
  destruct (breakerMap s !! key) as [b|]; cbn; [|done].
  intros now' Hle. by apply isOpen_transparent.
Qed.
End StatsFacts.

(** X7 (reading the statistics does not disturb later sends).
    [getServiceStats] evaluates [isOpen] on every breaker, which resets the
    breakers whose timeout has gone by.  Whatever [sendEmail] call is made
    afterwards, at that time or later, it returns the same result, records
    the same Status, and leaves the sent-set, the rate limiter, the queue and
    the outside world in the same state as it would have without the
    statistics having been read; [getServiceStats] itself changes neither the
    Status map nor the sent-set nor the queue. *)
Theorem statistics_are_transparent {Ext : Type}
    (s : EmailService.t Ext) (w0 w : EmailService.World Ext) (email : EmailRequest.t) :
  EmailService.clock w0 ≤ EmailService.clock w →
  let s0 := (EmailService.getServiceStats s w0).2 in
  let r := EmailService.sendEmail email s w in
  let r0 := EmailService.sendEmail email s0 w in
  EmailService.statusMap s0 = EmailService.statusMap s
  ∧ EmailService.sentEmails s0 = EmailService.sentEmails s
  ∧ EmailService.queue s0 = EmailService.queue s
  ∧ r0.1.1 = r.1.1 ∧ r0.2 = r.2
  ∧ EmailService.statusMap r0.1.2 = EmailService.statusMap r.1.2
  ∧ EmailService.sentEmails r0.1.2 = EmailService.sentEmails r.1.2
  ∧ EmailService.rateLimiter r0.1.2 = EmailService.rateLimiter r.1.2
  ∧ EmailService.queue r0.1.2 = EmailService.queue r.1.2.
Proof.
  intros Hle s0 r r0. split; [done|]. split; [done|]. split; [done|].
  subst r r0. unfold EmailService.sendEmail.
  change (EmailService.sentEmails s0) with (EmailService.sentEmails s).
  change (EmailService.rateLimiter s0) with (EmailService.rateLimiter s).
  change (EmailService.statusMap s0) with (EmailService.statusMap s).
  case_bool_decide; [done|].
  destruct (RateLimiter.allow _ _) as [[|] limiter]; cbn [negb]; [|done].
  unfold EmailService.processEmail.
  cbn [EmailService.config EmailService.providers EmailService.breakerMap
       EmailService.set_statusMap EmailService.set_rateLimiter].
  destruct (tryProviders_alike (EmailService.config s) email (EmailService.providers s)
              (EmailStatus.mk EmailStatus.pending None None (EmailService.clock w) 0 [])
              (EmailService.breakerMap s) (EmailService.breakerMap s0) w
              (EmailService.clock w0) (getServiceStats_alike s w0) Hle)
    as (exit & status' & bm1 & bm1' & w' & H1 & H2 & _).
  change (EmailService.config s0) with (EmailService.config s).
  change (EmailService.providers s0) with (EmailService.providers s).
  rewrite H1, H2. by destruct exit.
Qed.

Lemma statistics_are_transparent_witness :
  let s := (EmailService.steps
              [EmailService.OpSendEmail (Scenario.request "welcome-001");
               EmailService.OpWait 20000]
              (EmailService.new [Scenario.AlwaysFails; Scenario.AlwaysSucceeds]
                 EmailService.noConfig, Scenario.start)) in
  (EmailService.sendEmail (Scenario.request "welcome-002")
     (EmailService.getServiceStats s.1 s.2).2 s.2).1.1
  = (EmailService.sendEmail (Scenario.request "welcome-002") s.1 s.2).1.1.
Proof.
  cbn zeta.
  refine (proj1 (proj2 (proj2 (proj2 (statistics_are_transparent _ _ _ _ _))))).
  lia.
Defined.

Section CountFacts.
Import EmailService.
Context {Ext : Type}.
Implicit Types (s : t Ext) (m : gmap string EmailStatus.t).

Lemma filter_fst_NoDup {A B} (f : A * B → bool) (l : list (A * B)) :
  NoDup (l.*1) → NoDup ((List.filter f l).*1).
Proof.
  induction l as [|x l IH]; cbn; [done|].
  intros [Hx Hl]%NoDup_cons. destruct (f x); cbn; [|auto].
  apply NoDup_cons. split; [|auto].
  intros (y & Hy & Hin)%list_elem_of_fmap. apply Hx.
  apply list_elem_of_fmap. exists y. split; [done|].
  apply list_elem_of_In. apply list_elem_of_In, filter_In in Hin. tauto.
Qed.

Lemma three_states_length (l : list (string * EmailStatus.t)) :
  (length (List.filter (fun kv => bool_decide (EmailStatus.status kv.2 = EmailStatus.sent)) l)
   + length (List.filter (fun kv => bool_decide (EmailStatus.status kv.2 = EmailStatus.failed)) l)
   + length (List.filter (fun kv => bool_decide (EmailStatus.status kv.2 = EmailStatus.queued)) l)
   ≤ length l)%nat.
Proof.
  induction l as [|[key status] l IH]; cbn [List.filter length snd]; [lia|].
  repeat case_bool_decide; cbn [length]; try lia; congruence.
Qed.

Lemma countStatus_sent_le s :
  sent_recorded s →
  (countStatus EmailStatus.sent (statusMap s) ≤ size (sentEmails s))%nat.
Proof.
  intros Hrec. unfold countStatus.
  rewrite <- (length_fmap fst).
  apply submseteq_length, NoDup_submseteq.
  - apply filter_fst_NoDup, NoDup_fst_map_to_list.
  - intros key (kv & -> & Hin)%list_elem_of_fmap.
    apply list_elem_of_In, filter_In in Hin as [Hin Hsent].
    apply list_elem_of_In in Hin. destruct kv as [key status].
    apply elem_of_map_to_list in Hin. apply bool_decide_eq_true in Hsent.
    apply elem_of_elements. by apply (Hrec key status).
Qed.
End CountFacts.

(** X8 (the counts of the statistics).  [totalEmails] is the number of
    entries of the Status map, and the counts of sent, failed and queued
    Statuses together never exceed it, so that the quotient behind
    [successRate] lies between 0 and 1.  In every state the engine can
    reach, the count of sent Statuses is at most the number of ids in the
    sent-set. *)
Theorem statistics_counts :
  (∀ (Ext : Type) (s : EmailService.t Ext) (w : EmailService.World Ext),
     let stats := (EmailService.getServiceStats s w).1 in
     EmailService.totalEmails stats = size (EmailService.statusMap s)
     ∧ (EmailService.sentCount stats + EmailService.failedEmails stats
        + EmailService.queuedEmails stats ≤ EmailService.totalEmails stats)%nat)
  ∧ (∀ (Ext : Type) (sw : EmailService.t Ext * EmailService.World Ext),
       EmailService.reachable sw →
       (EmailService.sentCount (EmailService.getServiceStats sw.1 sw.2).1
        ≤ size (EmailService.sentEmails sw.1))%nat).
Proof.
  split.
  - intros Ext s w stats. split; [done|]. subst stats. cbn.
    unfold EmailService.countStatus. rewrite <- length_map_to_list.
    apply three_states_length.
  - intros Ext sw Hreach. cbn. apply countStatus_sent_le.
    by apply reachable_invariants.
Qed.

(** ** Draining *)

(** X9 (a working callback drains the queue in queue order).  With a
    callback that resolves every time, [n] turns of the running loop hand the
    first [n] entries of the queue to the callback, each once and in queue
    order, leave the remaining entries queued in the same order, re-queue
    nothing, and sleep after every turn, also after the turns that find the
    queue empty.  Each sleep lasts [intervalMs], or 1 ms when [intervalMs] is
    below 1 or above 2^31 - 1, which is what the timer makes of such a
    delay. *)
Theorem drain_in_queue_order
    (n maxSize : nat) (items : list EmailQueueItem.t)
    (done : list EmailRequest.t) (clock intervalMs : Z) :
  let s := EmailQueue.sa_loop (fun _ => EmailQueue.Resolved) intervalMs n
             (EmailQueue.mkStandalone (EmailQueue.mk items true maxSize) clock done) in
  EmailQueue.delivered s = done ++ (EmailQueueItem.email <$> take n items)
  ∧ EmailQueue.the_queue s = EmailQueue.mk (drop n items) true maxSize
  ∧ EmailQueue.the_clock s
    = clock + Z.of_nat n * (if (1 <=? intervalMs) && (intervalMs <=? 2147483647)
                            then intervalMs else 1).
Proof.
  cbn zeta. change (if (1 <=? intervalMs) && (intervalMs <=? 2147483647)
                    then intervalMs else 1) with (timerDelay intervalMs).
  revert items done clock.
  induction n as [|n IH]; intros items done clock.
  - cbn. rewrite app_nil_r. split; [done|]. split; [done|]. lia.
  - unfold EmailQueue.sa_loop in *. cbn [EmailQueue.loop].
    cbn [EmailQueue.the_queue EmailQueue.processing].
    destruct items as [|item items].
    + rewrite cycle_empty by done.
      destruct (IH [] done (clock + timerDelay intervalMs)) as (H1 & H2 & H3).
      rewrite take_nil, drop_nil in *.
      split; [exact H1|]. split; [exact H2|]. etrans; [exact H3|]. lia.
    + erewrite cycle_resolved; [|reflexivity|reflexivity].
      destruct (IH items (done ++ [EmailQueueItem.email item])
                  (clock + timerDelay intervalMs)) as (H1 & H2 & H3).
      split; [|split; [exact H2|]].
      * etrans; [exact H1|]. by rewrite <- app_assoc.
      * etrans; [exact H3|]. lia.
Qed.

(** X10 (a turn of the engine's loop).  In a state the engine can reach,
    with the loop running and a non-empty queue, a turn of the loop removes
    the head of the queue and runs the pipeline on its request; the Status
    of no other id changes, and the clock does not go back.  When the health
    check of every provider returns, the pipeline ends [sent] or [failed],
    which is recorded under the id of the request, and the queue is left
    with the other entries: the head is not re-queued.  Otherwise the queue
    is either left with the other entries, or, the health check of some
    provider having thrown on an entry whose count is below 3, the Status of
    the request is left [pending] and the request is handed to [enqueue]
    again. *)
Theorem drain_processes_head {Ext : Type}
    (sw : EmailService.t Ext * EmailService.World Ext)
    (item : EmailQueueItem.t) (rest : list EmailQueueItem.t) :
  EmailService.reachable sw →
  EmailQueue.processing (EmailService.queue sw.1) = true →
  EmailQueue.queue (EmailService.queue sw.1) = item :: rest →
  let sw' := EmailService.drain sw in
  let key := EmailRequest.id (EmailQueueItem.email item) in
  (Forall EmailService.health_check_returns (EmailService.providers sw.1) →
   EmailQueue.queue (EmailService.queue sw'.1) = rest
   ∧ ∃ status,
       EmailService.statusMap sw'.1 !! key = Some status
       ∧ (EmailStatus.status status = EmailStatus.sent
          ∨ EmailStatus.status status = EmailStatus.failed))
  ∧ (EmailQueue.queue (EmailService.queue sw'.1) = rest
     ∨ ((EmailQueueItem.retryCount item < 3)%nat
        ∧ (∃ p, p ∈ EmailService.providers sw.1
                ∧ ¬ EmailService.health_check_returns p)
        ∧ (EmailStatus.status <$> EmailService.statusMap sw'.1 !! key)
          = Some EmailStatus.pending
        ∧ ∃ now',
            EmailQueue.queue (EmailService.queue sw'.1)
            = EmailQueue.queue
                (EmailQueue.enqueue (EmailQueueItem.email item)
                   (EmailQueueItem.priority item) now'
                   (EmailQueue.set_queue rest (EmailService.queue sw.1))).2))
  ∧ (∀ key', key' ≠ key →
       EmailService.statusMap sw'.1 !! key' = EmailService.statusMap sw.1 !! key')
  ∧ EmailService.clock sw.2 ≤ EmailService.clock sw'.2.
Proof.
  intros Hreach Hproc Hq sw' key.
  pose proof (reachable_has_breakers _ Hreach) as Hhas.
  subst sw'. rewrite drain_turn, Hproc.
  pose proof (turn_spec sw) as Hturn. rewrite Hq in Hturn.
  destruct Hturn as (r & s1 & w1 & Hp & ->).
  destruct (processEmail_shape (EmailQueueItem.email item)
              (EmailService.set_queue
                 (EmailQueue.set_queue rest (EmailService.queue sw.1)) sw.1) sw.2)
    as (r' & status & s1' & w1' & new & Heq & Hmap & _ & Hqueue & _ & _ & _ & _ & _ & _
        & Hchr & Hcase).
  rewrite Hp in Heq. injection Heq as <- <- <-.
  assert (EmailService.clock sw.2
          ≤ EmailService.clock
              (EmailService.sleep
                 (EmailServiceConfig.queueProcessIntervalMs (EmailService.config sw.1))
                 w1)) as Hclock.
  { apply chronological_le in Hchr. etrans; [exact Hchr|apply clock_sleep]. }
  cbn [EmailService.statusMap EmailService.set_queue EmailService.queue
       EmailService.providers EmailService.breakerMap] in Hmap, Hqueue, Hcase.
  assert (∀ key', key' ≠ key →
            EmailService.statusMap s1 !! key' = EmailService.statusMap sw.1 !! key')
    as Hframe.
  { intros key' Hne. rewrite Hmap. by rewrite lookup_insert_ne. }
  assert (EmailService.statusMap s1 !! key = Some status) as Hown.
  { rewrite Hmap. apply lookup_insert_eq. }
  destruct Hcase
    as [(-> & Hst & _)
       |[(-> & fails & ok & _ & _ & _ & _ & Hst & _)
        |(-> & Hst & _ & _ & _ & _ & _ & p & Hin & Hwhy)]];
    cbn [fst snd EmailService.pause].
  - split; [|split; [|split]]; [| |done|done].
    + intros _. rewrite Hqueue. split; [done|]. exists status. by split; [|right].
    + left. by rewrite Hqueue.
  - split; [|split; [|split]]; [| |done|done].
    + intros _. rewrite Hqueue. split; [done|]. exists status. by split; [|left].
    + left. by rewrite Hqueue.
  - assert (¬ EmailService.health_check_returns p) as Hthrows.
    { destruct Hwhy as [Hnone|Hthrows]; [|done].
      destruct (Hhas p Hin) as (b & Hb & _). congruence. }
    split; [|split; [|split]].
    + intros Hret. rewrite Forall_forall in Hret. by destruct (Hthrows (Hret p Hin)).
    + destruct (Nat.ltb_spec (EmailQueueItem.retryCount item) 3) as [Hlt|Hge];
        cbn [fst snd]; [|left; by rewrite Hqueue].
      right. split; [done|]. split; [by exists p|].
      cbn [EmailService.statusMap EmailService.set_queue EmailService.queue].
      split; [by rewrite Hown, <- Hst|].
      exists (EmailService.clock w1). by rewrite Hqueue.
    + intros key' Hne. rewrite <- Hframe by done. by destruct (_ <? 3)%nat.
    + by destruct (_ <? 3)%nat.
Qed.

Lemma drain_processes_head_witness :
  let sw := EmailService.steps
              [EmailService.OpStartQueueProcessing;
               EmailService.OpQueueEmail (Scenario.request "welcome-001") (Some 5);
               EmailService.OpQueueEmail (Scenario.request "welcome-002") (Some 9)]
              (EmailService.new [Scenario.AlwaysSucceeds] EmailService.noConfig,
               Scenario.start) in
  EmailQueue.queue (EmailService.queue (EmailService.drain sw).1)
  = [EmailQueueItem.mk (Scenario.request "welcome-001") 5 1000000 0].
Proof.
  cbn zeta.
  refine (proj1 (proj1 (drain_processes_head _
                          (EmailQueueItem.mk (Scenario.request "welcome-002") 9 1000000 0)
                          [EmailQueueItem.mk (Scenario.request "welcome-001") 5 1000000 0]
                          _ _ _) _)).
  - by eexists _, _, _, _.
  - by vm_compute.
  - by vm_compute.
  - repeat constructor; by intros x.
Defined.

(** An engine whose only provider has a health check that throws: the
    request queued is handed to the pipeline at every turn and goes back to
    the queue every time, with a fresh count of 0; after five turns it is
    still there, its Status [pending]. *)
Example throwing_health_check_requeues :
  let sw := EmailService.steps
              [EmailService.OpStartQueueProcessing;
               EmailService.OpQueueEmail (Scenario.request "welcome-001") None;
               EmailService.OpDrain; EmailService.OpDrain; EmailService.OpDrain;
               EmailService.OpDrain; EmailService.OpDrain]
              (EmailService.new [Scenario.BrokenProbe] EmailService.noConfig,
               Scenario.start) in
  EmailQueue.queue (EmailService.queue sw.1)
  = [EmailQueueItem.mk (Scenario.request "welcome-001") 0 1000400 0]
  ∧ (EmailStatus.status <$> EmailService.statusMap sw.1 !! "welcome-001")
    = Some EmailStatus.pending.
Proof. by vm_compute. Qed.

(** ** Providers that are passed over, and [clear] *)

Section SkipFacts.
Import EmailService.
Context {Ext : Type}.
Implicit Types (p : EmailProvider.t Ext) (w : World Ext) (s : t Ext).
Implicit Types (bm : gmap string CircuitBreaker.t).

Lemma skipped_insert now bm p (q : EmailProvider.t Ext) b :
  bm !! EmailProvider.name p = Some b →
  skipped now bm q →
  skipped now (<[EmailProvider.name p := (CircuitBreaker.isOpen now b).2]> bm) q.
Proof.
  intros Hb (b' & Hb' & Hcase).
  destruct (decide (EmailProvider.name p = EmailProvider.name q)) as [Heq|Hne].
  - rewrite Heq in *. rewrite Hb in Hb'. injection Hb' as <-.
    eexists. split; [apply lookup_insert_eq|].
    destruct Hcase as [Hopen|Hnever]; [left|by right].
    by rewrite isOpen_transparent.
  - exists b'. rewrite lookup_insert_ne by done. done.
Qed.

(** When every provider is passed over, the loop falls through without an
    attempt and without time going by. *)
Lemma tryProviders_all_skipped config email ps :
  ∀ status bm w,
  Forall (skipped (clock w) bm) ps →
  ∃ bm' w',
    tryProviders config email ps status bm w = (ExitExhausted, (status, bm', w'))
    ∧ clock w' = clock w
    ∧ ∀ key b', bm' !! key = Some b' →
        ∃ b, bm !! key = Some b
             ∧ (CircuitBreaker.failures b' ≤ CircuitBreaker.failures b)%nat.
Proof.
  induction ps as [|p ps IH]; intros status bm w Hall.
  - exists bm, w. split; [done|]. split; [done|]. eauto.
  - apply Forall_cons in Hall as [(b & Hb & Hcase) Hall].
    cbn [tryProviders]. rewrite Hb.
    assert (Forall (skipped (clock w)
                      (<[EmailProvider.name p := (CircuitBreaker.isOpen (clock w) b).2]> bm))
              ps) as Hall'.
    { eapply Forall_impl; [exact Hall|]. intros q. by apply skipped_insert. }
    pose proof (isOpen_invariants (clock w) b) as (_ & _ & _ & Hfail).
    assert (∀ key b', <[EmailProvider.name p := (CircuitBreaker.isOpen (clock w) b).2]> bm
                      !! key = Some b' →
              ∃ b0, bm !! key = Some b0
                    ∧ (CircuitBreaker.failures b' ≤ CircuitBreaker.failures b0)%nat) as Hle.
    { intros key b'. destruct (decide (EmailProvider.name p = key)) as [<-|Hne].
      - rewrite lookup_insert_eq. intros [= <-]. eauto.
      - rewrite lookup_insert_ne by done. eauto. }
    destruct (CircuitBreaker.isOpen (clock w) b) as [o b1] eqn:Ho. cbn [fst snd] in *.
    assert (∀ w1, clock w1 = clock w →
              ∃ bm' w',
                tryProviders config email ps status
                  (<[EmailProvider.name p := b1]> bm) w1
                = (ExitExhausted, (status, bm', w'))
                ∧ clock w' = clock w
                ∧ ∀ key b', bm' !! key = Some b' →
                    ∃ b0, bm !! key = Some b0
                          ∧ (CircuitBreaker.failures b' ≤ CircuitBreaker.failures b0)%nat)
      as Hgo.
    { intros w1 Hw1. destruct (IH status (<[EmailProvider.name p := b1]> bm) w1)
        as (bm' & w' & Heq & Hclock & Hf); [by rewrite Hw1|].
      exists bm', w'. split; [done|]. split; [congruence|].
      intros key b' Hb'. destruct (Hf key b' Hb') as (b0 & Hb0 & Hle0).
      destruct (Hle key b0 Hb0) as (b00 & Hb00 & Hle00). exists b00. split; [done|lia]. }
    destruct o; [by apply Hgo|].
    destruct Hcase as [Hopen|Hnever]; [done|].
    specialize (Hnever (ext w)).
    destruct (EmailProvider.isHealthy p (ext w)) as [h x]. cbn in Hnever. subst h.
    cbn [negb]. by apply Hgo.
Qed.
End SkipFacts.

(** X11 (providers that are passed over are not called).  When the breaker
    of every provider is open or the provider reports unhealthy, which
    includes an engine without providers, [processEmail] makes no attempt
    and takes no time: it returns a [failed] Status with an empty attempt
    list and the error "All providers failed after retries", the sent-set is
    as it was, and no breaker is charged with a failure. *)
Theorem passed_over_providers_are_not_called {Ext : Type}
    (s : EmailService.t Ext) (w : EmailService.World Ext) (email : EmailRequest.t) :
  Forall (EmailService.skipped (EmailService.clock w) (EmailService.breakerMap s))
    (EmailService.providers s) →
  ∃ s' w',
    EmailService.processEmail email s w
    = (EmailService.Returned
         (EmailStatus.mk EmailStatus.failed None
            (Some "All providers failed after retries") (EmailService.clock w) 0 []),
       s', w')
    ∧ EmailService.clock w' = EmailService.clock w
    ∧ EmailService.sentEmails s' = EmailService.sentEmails s
    ∧ ∀ key b', EmailService.breakerMap s' !! key = Some b' →
        ∃ b, EmailService.breakerMap s !! key = Some b
             ∧ (CircuitBreaker.failures b' ≤ CircuitBreaker.failures b)%nat.
Proof.
  intros Hall. unfold EmailService.processEmail.
  cbn [EmailService.config EmailService.providers EmailService.breakerMap
       EmailService.set_statusMap].
  destruct (tryProviders_all_skipped (EmailService.config s) email
              (EmailService.providers s)
              (EmailStatus.mk EmailStatus.pending None None (EmailService.clock w) 0 [])
              (EmailService.breakerMap s) w Hall)
    as (bm' & w' & -> & Hclock & Hf).
  by eexists _, w'.
Qed.

Lemma passed_over_providers_are_not_called_witness :
  let sw := EmailService.steps
              [EmailService.OpSendEmail (Scenario.request "welcome-001")]
              (EmailService.new [Scenario.AlwaysFails] EmailService.noConfig,
               Scenario.start) in
  (EmailService.processEmail (Scenario.request "welcome-002") sw.1 sw.2).1.1
  = EmailService.Returned
      (EmailStatus.mk EmailStatus.failed None
         (Some "All providers failed after retries") 1000315 0 []).
Proof.
  cbn zeta.
  edestruct (passed_over_providers_are_not_called
               (EmailService.steps
                  [EmailService.OpSendEmail (Scenario.request "welcome-001")]
                  (EmailService.new [Scenario.AlwaysFails] EmailService.noConfig,
                   Scenario.start)).1
               (EmailService.steps
                  [EmailService.OpSendEmail (Scenario.request "welcome-001")]
                  (EmailService.new [Scenario.AlwaysFails] EmailService.noConfig,
                   Scenario.start)).2
               (Scenario.request "welcome-002"))
    as (s' & w' & Heq & _).
  - repeat constructor. eexists. split; [by vm_compute|]. left. by vm_compute.
  - rewrite Heq. reflexivity.
Defined.

(** X12 ([clear] closes every circuit).  In a state the engine can reach,
    with a breaker threshold of at least 1, after [clear] the Status map, the
    sent-set and the queue are empty, and the breaker of every provider
    reports closed at any time, whatever failures were recorded before; the
    rate limiter is not reset. *)
Theorem clear_closes_every_circuit {Ext : Type}
    (sw : EmailService.t Ext * EmailService.World Ext) (now : Z) :
  EmailService.reachable sw →
  (1 ≤ EmailServiceConfig.circuitBreakerThreshold (EmailService.config sw.1))%nat →
  let s' := EmailService.clear sw.1 in
  EmailService.statusMap s' = ∅
  ∧ EmailService.sentEmails s' = ∅
  ∧ EmailQueue.queue (EmailService.queue s') = []
  ∧ EmailService.rateLimiter s' = EmailService.rateLimiter sw.1
  ∧ Forall (EmailService.closed_at now (EmailService.breakerMap s'))
      (EmailService.providers s').
Proof.
  intros Hreach Hthr s'. repeat (split; [done|]).
  pose proof (reachable_has_breakers _ Hreach) as Hhas.
  apply Forall_forall. intros p Hp.
  destruct (Hhas p Hp) as (b & Hb & Hbthr & _).
  exists (CircuitBreaker.reset b). split.
  - cbn. by rewrite lookup_fmap, Hb.
  - rewrite isOpen_below; [done|]. cbn. lia.
Qed.

Lemma clear_closes_every_circuit_witness :
  let sw := EmailService.steps
              [EmailService.OpSendEmail (Scenario.request "welcome-001")]
              (EmailService.new [Scenario.AlwaysFails] EmailService.noConfig,
               Scenario.start) in
  EmailService.closed_at 1000315 (EmailService.breakerMap (EmailService.clear sw.1))
    Scenario.AlwaysFails.
Proof.
  cbn zeta.
  pose proof (clear_closes_every_circuit
                (EmailService.steps
                   [EmailService.OpSendEmail (Scenario.request "welcome-001")]
                   (EmailService.new [Scenario.AlwaysFails] EmailService.noConfig,
                    Scenario.start))
                1000315) as H.
  cbn zeta in H. destruct H as (_ & _ & _ & _ & H).
  - by eexists _, _, _, _.
  - vm_compute. lia.
  - rewrite Forall_forall in H. apply H. apply list_elem_of_In. vm_compute. by left.
Defined.

(** ** Queueing a request *)

Section QueueAcceptFacts.
Import EmailService.
Context {Ext : Type}.
Implicit Types (w : World Ext) (s : t Ext) (sw : t Ext * World Ext).

(** An accepted entry is added to the entries that were there. *)
Lemma enqueue_permutation q e p now :
  (length (EmailQueue.queue q) < EmailQueue.maxSize q)%nat →
  (EmailQueue.enqueue e p now q).1 = true
  ∧ EmailQueue.queue (EmailQueue.enqueue e p now q).2
    ≡ₚ EmailQueueItem.mk e p now 0 :: EmailQueue.queue q.
Proof.
  intros Hroom. unfold EmailQueue.enqueue, EmailQueue.splice_in.
  destruct (Nat.leb_spec (EmailQueue.maxSize q) (length (EmailQueue.queue q))); [lia|].
  destruct (EmailQueue.findIndex _ _) as [i|]; cbn; (split; [done|]).
  - rewrite <- Permutation_middle. by rewrite take_drop.
  - by rewrite Permutation_app_comm.
Qed.

(** The first turn of a loop that a call starts: the pipeline runs on the
    request at the head of the queue and stores a Status of its own under
    its id; the Status of no other id changes; and when the pipeline
    returns, the queue is left with the other entries. *)
Lemma startQueueProcessing_first sw head rest :
  processing sw.1 = false → EmailQueue.processing (queue sw.1) = false →
  EmailQueue.queue (queue sw.1) = head :: rest →
  let sw' := startQueueProcessing sw in
  let key := EmailRequest.id (EmailQueueItem.email head) in
  (∃ status,
     statusMap sw'.1 !! key = Some status
     ∧ EmailStatus.status status ≠ EmailStatus.queued
     ∧ EmailStatus.error status ≠ Some "Queue is full"%string)
  ∧ (∀ key', key' ≠ key → statusMap sw'.1 !! key' = statusMap sw.1 !! key')
  ∧ (has_breakers sw.1 → Forall health_check_returns (providers sw.1) →
     EmailQueue.queue (queue sw'.1) = rest).
Proof.
  destruct sw as [s w]. cbn [fst snd]. intros Hp Hqp Hq. cbn zeta.
  rewrite startQueueProcessing_turn. cbn [fst snd]. rewrite Hp, Hqp.
  match goal with |- context [turn ?x] => pose proof (turn_spec x) as Hturn end.
  cbn [fst snd queue set_queue set_processing EmailQueue.queue
       EmailQueue.set_processing] in Hturn.
  rewrite Hq in Hturn. destruct Hturn as (r & s1 & w1 & Hrun & ->).
  match type of Hrun with
  | processEmail ?e ?s0 ?w0 = _ =>
      destruct (processEmail_shape e s0 w0)
        as (r' & status & s1' & w1' & new & Heq & Hmap & _ & Hqueue & _ & _ & _ & _ & _ & _
            & _ & Hcase)
  end.
  rewrite Hrun in Heq. injection Heq as <- <- <-.
  cbn [statusMap set_queue set_processing queue providers breakerMap] in Hmap, Hqueue, Hcase.
  assert (statusMap s1 !! EmailRequest.id (EmailQueueItem.email head) = Some status) as Hown.
  { rewrite Hmap. apply lookup_insert_eq. }
  split; [|split].
  - exists status. split.
    { destruct r; [done|]. by destruct (_ <? 3)%nat. }
    destruct Hcase
      as [(_ & -> & _ & -> & _)
         |[(_ & fails & ok & _ & _ & _ & _ & -> & _ & -> & _)
          |(_ & -> & _ & -> & _)]]; done.
  - intros key' Hne.
    assert (statusMap s1 !! key' = statusMap s !! key') as <-.
    { rewrite Hmap. by rewrite lookup_insert_ne. }
    destruct r; [done|]. by destruct (_ <? 3)%nat.
  - intros Hhas Hret.
    destruct Hcase as [(-> & _)|[(-> & _)|(_ & _ & _ & _ & _ & _ & _ & p & Hin & Hwhy)]].
    + cbn. by rewrite Hqueue.
    + cbn. by rewrite Hqueue.
    + exfalso. destruct Hwhy as [Hnone|Hthrows].
      * destruct (Hhas p Hin) as (b & Hb & _). congruence.
      * rewrite Forall_forall in Hret. by apply Hthrows, Hret.
Qed.
End QueueAcceptFacts.

(** X13 ([queueEmail] accepts without admission control).  For an id
    outside the sent-set and a queue with room, [queueEmail] returns a
    [queued] Status with no attempts, without consulting the rate limiter,
    and leaves the flag of the engine up (and that of the queue, if the two
    flags agreed before).  When the loop is running, the Status is stored
    under the id, the queue holds the entries it held plus one entry for the
    request, with the given priority (0 when none is given), the time of the
    call and a count of 0, no breaker is touched and no time goes by.  When
    the loop is not running, the call starts it, and the loop at once hands
    the head of the queue, which on an empty queue is the new entry itself,
    to the pipeline: the Status returned is the one stored only if that head
    is for another id, and when the pipeline returns, the head has left the
    queue. *)
Theorem queueEmail_accepts {Ext : Type}
    (s : EmailService.t Ext) (w : EmailService.World Ext)
    (email : EmailRequest.t) (priority : option Z) :
  EmailRequest.id email ∉ EmailService.sentEmails s →
  (EmailQueue.size (EmailService.queue s)
   < EmailQueue.maxSize (EmailService.queue s))%nat →
  let status := EmailStatus.mk EmailStatus.queued None None (EmailService.clock w) 0 [] in
  let item := EmailQueueItem.mk email (default 0 priority) (EmailService.clock w) 0 in
  let extended := EmailQueue.queue
                    (EmailQueue.enqueue email (default 0 priority)
                       (EmailService.clock w) (EmailService.queue s)).2 in
  ∃ s' w',
    EmailService.queueEmail email priority s w
    = (EmailService.Returned (Some status), s', w')
    ∧ extended ≡ₚ item :: EmailQueue.queue (EmailService.queue s)
    ∧ EmailService.rateLimiter s' = EmailService.rateLimiter s
    ∧ EmailService.processing s' = true
    ∧ (EmailService.processing s = EmailQueue.processing (EmailService.queue s) →
       EmailQueue.processing (EmailService.queue s') = true)
    ∧ EmailService.clock w ≤ EmailService.clock w'
    ∧ (EmailService.processing s = true →
       w' = w
       ∧ EmailService.statusMap s'
         = <[EmailRequest.id email := status]> (EmailService.statusMap s)
       ∧ EmailQueue.queue (EmailService.queue s') = extended
       ∧ EmailService.breakerMap s' = EmailService.breakerMap s
       ∧ EmailService.sentEmails s' = EmailService.sentEmails s)
    ∧ (EmailService.processing s = false →
       EmailQueue.processing (EmailService.queue s) = false →
       ∃ head rest,
         extended = head :: rest
         ∧ (EmailQueue.queue (EmailService.queue s) = [] → head = item)
         ∧ (EmailRequest.id (EmailQueueItem.email head) ≠ EmailRequest.id email →
            EmailService.statusMap s' !! EmailRequest.id email = Some status)
         ∧ (EmailRequest.id (EmailQueueItem.email head) = EmailRequest.id email →
            EmailService.statusMap s' !! EmailRequest.id email ≠ Some status)
         ∧ (EmailService.has_breakers s →
            Forall EmailService.health_check_returns (EmailService.providers s) →
            EmailQueue.queue (EmailService.queue s') = rest)).
Proof.
  intros Hfresh Hroom status item extended.
  destruct (enqueue_permutation (EmailService.queue s) email (default 0 priority)
              (EmailService.clock w) Hroom) as [Hok Hperm].
  pose proof (enqueue_fields (EmailService.queue s) email (default 0 priority)
                (EmailService.clock w)) as (_ & Hflag & _).
  pose proof (queueEmail_fresh email priority s w Hfresh) as Heq. cbn zeta in Heq.
  rewrite Hok in Heq. rewrite Heq. clear Heq.
  set (s3 := EmailService.set_statusMap _ _).
  eexists _, _. split; [reflexivity|]. split; [exact Hperm|].
  destruct (EmailService.processing s) eqn:Hp; cbn [fst snd].
  - split; [done|]. split; [done|]. split.
    { intros Hagree. subst s3. cbn. by rewrite Hflag. }
    split; [lia|]. split; [done|]. done.
  - destruct (startQueueProcessing_setup (s3, w)) as (_ & Hc & Hrl & Hproc & Hqproc).
    cbn [fst snd] in *.
    split; [exact Hrl|]. split; [exact Hproc|].
    split. { intros Hagree. apply Hqproc. subst s3. cbn. by rewrite Hflag, Hp. }
    split; [exact Hc|]. split; [done|].
    intros _ Hqp.
    assert (∃ head rest, extended = head :: rest) as (head & rest & Hext).
    { subst extended. revert Hperm.
      destruct (EmailQueue.queue _) as [|head rest]; [|by eauto].
      intros Hperm. apply Permutation_length in Hperm. cbn in Hperm. lia. }
    exists head, rest. split; [exact Hext|].
    destruct (startQueueProcessing_first (s3, w) head rest)
      as ((st & Hst & Hnq & _) & Hother & Hrest).
    { subst s3. cbn. exact Hp. }
    { subst s3. cbn. by rewrite Hflag. }
    { exact Hext. }
    cbn [fst snd] in *. split; [|split; [|split]].
    + intros Hempty. subst extended. rewrite Hempty in Hperm.
      rewrite Hext in Hperm. symmetry in Hperm.
      apply Permutation_singleton_l in Hperm. injection Hperm as Hhead _.
      by rewrite <- Hhead.
    + intros Hne. rewrite Hother by done. subst s3. cbn. apply lookup_insert_eq.
    + intros Hsame. rewrite <- Hsame, Hst. intros [= ->]. by apply Hnq.
    + intros Hhas Hret. apply Hrest; [|exact Hret]. exact Hhas.
Qed.

Lemma queueEmail_accepts_witness :
  ∃ s' w',
    EmailService.queueEmail (Scenario.request "welcome-001") None
      (EmailService.stopQueueProcessing
         (EmailService.new [Scenario.AlwaysSucceeds] EmailService.noConfig))
      Scenario.start
    = (EmailService.Returned
         (Some (EmailStatus.mk EmailStatus.queued None None 1000000 0 [])),
       s', w')
    ∧ EmailService.processing s' = true
    ∧ EmailQueue.queue (EmailService.queue s') = []
    ∧ EmailService.statusMap s' !! "welcome-001"
      ≠ Some (EmailStatus.mk EmailStatus.queued None None 1000000 0 []).
Proof.
  edestruct (queueEmail_accepts
               (EmailService.stopQueueProcessing
                  (EmailService.new [Scenario.AlwaysSucceeds] EmailService.noConfig))
               Scenario.start (Scenario.request "welcome-001") None)
    as (s' & w' & Heq & _ & _ & Hp & _ & _ & _ & Hstopped).
  - apply (bool_decide_unpack _). by vm_compute.
  - vm_compute. lia.
  - destruct Hstopped as (head & rest & Hext & Hhead & _ & Hown & Hrest);
      [reflexivity|reflexivity|].
    specialize (Hhead eq_refl). subst head.
    injection Hext as <-.
    exists s', w'. split; [exact Heq|]. split; [exact Hp|]. split.
    + apply Hrest.
      * apply (new_has_breakers [Scenario.AlwaysSucceeds] EmailService.noConfig).
      * repeat constructor; by intros x.
    + by apply Hown.
Defined.

(** ** Admission over a burst of calls *)

Section AdmissionFacts.
Import EmailService.
Context {Ext : Type}.
Implicit Types (w : World Ext) (s : t Ext) (emails : list EmailRequest.t).

(** [sendEmail] for an id outside the sent-set: the limiter decides, and
    the result is [rate_limited] exactly when it denies. *)
Lemma sendEmail_fresh_cases email s w :
  EmailRequest.id email ∉ sentEmails s →
  ∃ r s' w',
    sendEmail email s w = (r, s', w')
    ∧ rateLimiter s' = (RateLimiter.allow (clock w) (rateLimiter s)).2
    ∧ sentEmails s' ⊆ {[EmailRequest.id email]} ∪ sentEmails s
    ∧ clock w ≤ clock w'
    ∧ is_rate_limited r = negb (RateLimiter.allow (clock w) (rateLimiter s)).1.
Proof.
  intros Hfresh. unfold sendEmail. rewrite bool_decide_eq_false_2 by done.
  destruct (RateLimiter.allow _ _) as [[|] limiter]; cbn [negb fst snd].
  - destruct (processEmail_shape email (set_rateLimiter limiter s) w)
      as (r & status & s' & w' & new & -> & _ & _ & _ & _ & Hrl & _ & _ & _ & _ & Hchr
          & Hcase).
    assert (sentEmails s' ⊆ {[EmailRequest.id email]} ∪ sentEmails s) as Hsub.
    { destruct Hcase
        as [(_ & _ & -> & _)
           |[(_ & fails & ok & _ & _ & _ & _ & _ & -> & _)|(_ & _ & -> & _)]];
        cbn; set_solver. }
    assert (is_rate_limited
              match r with Returned st => Returned (Some st) | Thrown => Thrown end
            = false) as Hnot.
    { destruct Hcase
        as [(-> & Hst & _)|[(-> & fails & ok & _ & _ & _ & _ & Hst & _)|(-> & _)]];
        cbn; [| |done]; apply bool_decide_eq_false_2; congruence. }
    apply chronological_le in Hchr.
    destruct r; eexists _, s', w'; (split; [done|]); by repeat split.
  - eexists _, _, w. split; [done|]. split; [done|].
    split; [cbn; set_solver|]. split; [lia|done].
Qed.

Lemma sendAll_clock emails :
  ∀ s w, clock w ≤ clock (sendAll emails s w).2.2.
Proof.
  induction emails as [|email emails IH]; intros s w; cbn [sendAll]; [cbn; lia|].
  pose proof (sendEmail_setup email s w) as (_ & Hc & _).
  destruct (sendEmail email s w) as [[r s'] w']. cbn [fst snd] in Hc.
  specialize (IH s' w').
  destruct (sendAll emails s' w') as [rs sw]. cbn [fst snd] in *. lia.
Qed.

Lemma filter_all {A} (f : A → bool) (l : list A) :
  Forall (fun x => f x = true) l → List.filter f l = l.
Proof. induction 1 as [|x l Hx _ IH]; cbn; [done|]. by rewrite Hx, IH. Qed.

(** The timestamps from [t0] on survive a pruning made before [t0 + w]. *)
Lemma prune_keeps_recent now t0 rl :
  now - t0 < RateLimiter.interval rl →
  List.filter (fun t => (t0 <=? t)%Z) (RateLimiter.prune now rl)
  = List.filter (fun t => (t0 <=? t)%Z) (RateLimiter.requests rl).
Proof.
  intros Hw. unfold RateLimiter.prune.
  induction (RateLimiter.requests rl) as [|t l IH]; cbn; [done|].
  destruct (Z.ltb_spec (now - t) (RateLimiter.interval rl)); cbn.
  - by rewrite IH.
  - destruct (Z.leb_spec t0 t); [lia|done].
Qed.

Lemma filter_le_length {A} (f : A → bool) (l : list A) :
  (length (List.filter f l) ≤ length l)%nat.
Proof. induction l as [|x l IH]; cbn; [done|]. destruct (f x); cbn; lia. Qed.

(** Among calls with fresh, pairwise different ids that all fall within
    one window, those that are not turned away fit into what the limiter
    has left. *)
Lemma sendAll_admits t0 emails :
  ∀ s w (k : nat),
  NoDup (EmailRequest.id <$> emails) →
  (∀ email, email ∈ emails → EmailRequest.id email ∉ sentEmails s) →
  t0 ≤ clock w →
  clock (sendAll emails s w).2.2 - t0 < RateLimiter.interval (rateLimiter s) →
  (k ≤ length (List.filter (fun t => (t0 <=? t)%Z) (RateLimiter.requests (rateLimiter s))))%nat →
  (k ≤ RateLimiter.max (rateLimiter s))%nat →
  (length emails - length (List.filter is_rate_limited (sendAll emails s w).1) + k
   ≤ RateLimiter.max (rateLimiter s))%nat.
Proof.
  induction emails as [|email emails IH]; intros s w k Hnodup Hfresh Ht0 Hwin Hk Hkmax.
  - cbn. lia.
  - rewrite fmap_cons in Hnodup. apply NoDup_cons in Hnodup as [Hnotin Hnodup].
    destruct (sendEmail_fresh_cases email s w)
      as (r & s1 & w1 & Heq & Hrl & Hsent & Hclock & Hlimited).
    { apply Hfresh. by left. }
    pose proof (sendAll_clock emails s1 w1) as Hfinal.
    pose proof (allow_fields (clock w) (rateLimiter s)) as [Hmax Hint].
    cbn [sendAll] in Hwin |- *. rewrite Heq in Hwin |- *.
    specialize (IH s1 w1).
    destruct (sendAll emails s1 w1) as [rs sw] eqn:Hrun. cbn [fst snd] in *.
    assert (∀ e, e ∈ emails → EmailRequest.id e ∉ sentEmails s1) as Hfresh1.
    { intros e He Hin. apply Hsent in Hin.
      apply elem_of_union in Hin as [Hin|Hin].
      - apply elem_of_singleton in Hin. apply Hnotin. rewrite <- Hin.
        by apply list_elem_of_fmap_2.
      - revert Hin. apply Hfresh. by right. }
    pose proof (prune_keeps_recent (clock w) t0 (rateLimiter s) ltac:(lia)) as Hkeep.
    pose proof (filter_le_length (fun t => (t0 <=? t)%Z)
                  (RateLimiter.prune (clock w) (rateLimiter s))) as Hfl.
    rewrite Hkeep in Hfl.
    rewrite Hrl, Hint, Hmax in IH.
    unfold RateLimiter.allow in Hlimited, IH.
    destruct (Nat.ltb_spec (length (RateLimiter.prune (clock w) (rateLimiter s)))
                (RateLimiter.max (rateLimiter s))) as [Hadm|Hden];
      cbn [fst snd negb RateLimiter.requests] in Hlimited, IH;
      cbn [List.filter]; rewrite Hlimited.
    + specialize (IH (S k) Hnodup Hfresh1 ltac:(lia) Hwin).
      rewrite List.filter_app, length_app, Hkeep in IH. cbn [List.filter] in IH.
      destruct (Z.leb_spec t0 (clock w)); [|lia]. cbn [length] in IH.
      specialize (IH ltac:(lia) ltac:(lia)). cbn [length]. lia.
    + specialize (IH k Hnodup Hfresh1 ltac:(lia) Hwin).
      rewrite Hkeep in IH. specialize (IH Hk Hkmax). cbn [length]. lia.
Qed.
End AdmissionFacts.

(** X14 (admission over a burst).  In a state the engine can reach, take
    [sendEmail] calls for requests with pairwise different ids, none of them
    in the sent-set.  If the last call ends less than the limiter's window
    after the first one began, then at most [max] of the calls get through to
    the pipeline: at least [emails.length - max] of the results are
    [rate_limited]. *)
Theorem burst_is_rate_limited {Ext : Type}
    (sw : EmailService.t Ext * EmailService.World Ext)
    (emails : list EmailRequest.t) :
  EmailService.reachable sw →
  NoDup (EmailRequest.id <$> emails) →
  (∀ email, email ∈ emails → EmailRequest.id email ∉ EmailService.sentEmails sw.1) →
  let r := EmailService.sendAll emails sw.1 sw.2 in
  EmailService.clock r.2.2 - EmailService.clock sw.2
  < RateLimiter.interval (EmailService.rateLimiter sw.1) →
  (length emails - RateLimiter.max (EmailService.rateLimiter sw.1)
   ≤ length (List.filter EmailService.is_rate_limited r.1))%nat.
Proof.
  intros Hreach Hnodup Hfresh r Hwin.
  pose proof (sendAll_admits (EmailService.clock sw.2) emails sw.1 sw.2 0
                Hnodup Hfresh ltac:(lia) Hwin ltac:(lia) ltac:(lia)) as H.
  fold r in H. lia.
Qed.

Lemma burst_is_rate_limited_witness :
  let emails := Scenario.request <$> ["a"; "b"; "c"; "d"; "e"; "f"; "g"; "h";
                                      "i"; "j"; "k"; "l"] in
  (2 ≤ length
         (List.filter EmailService.is_rate_limited
            (EmailService.sendAll emails
               (EmailService.new [Scenario.AlwaysSucceeds] EmailService.noConfig)
               Scenario.start).1))%nat.
Proof.
  cbn zeta.
  refine (burst_is_rate_limited
            (EmailService.new [Scenario.AlwaysSucceeds] EmailService.noConfig,
             Scenario.start)
            (Scenario.request <$> ["a"; "b"; "c"; "d"; "e"; "f"; "g"; "h";
                                    "i"; "j"; "k"; "l"]) _ _ _ _).
  - by eexists _, _, _, [].
  - apply (bool_decide_unpack _). by vm_compute.
  - intros email _. cbn. apply not_elem_of_empty.
  - vm_compute. reflexivity.
Defined.

(** ** Backoff *)

Section BackoffFacts.
Import EmailService.
Context {Ext : Type}.
Implicit Types (p : EmailProvider.t Ext) (w : World Ext).

Lemma pow2_succ (a : nat) : 2 ^ Z.of_nat (S a) = 2 * 2 ^ Z.of_nat a.
Proof. rewrite Nat2Z.inj_succ, Z.pow_succ_r; lia. Qed.

Lemma pow2_pos (a : nat) : 0 < 2 ^ Z.of_nat a.
Proof. apply Z.pow_pos_nonneg; lia. Qed.

Lemma timerDelay_cases ms :
  (1 ≤ ms ≤ TIMEOUT_MAX ∧ timerDelay ms = ms)
  ∨ ((ms < 1 ∨ TIMEOUT_MAX < ms) ∧ timerDelay ms = 1).
Proof.
  unfold timerDelay.
  destruct (Z.leb_spec 1 ms); destruct (Z.leb_spec ms TIMEOUT_MAX); cbn;
    [left|right|right|right]; split; (done || lia).
Qed.

Lemma clock_sleep_delay ms w : clock (sleep ms w) = clock w + timerDelay ms.
Proof.
  unfold sleep. rewrite clock_elapse, Z2N.id; [done|].
  destruct (timerDelay_cases ms) as [[? ->]|[_ ->]]; lia.
Qed.

(** A loop that uses up its budget has slept after every failed attempt
    but the last one, each time twice as long as the time before, as long as
    the delays are within the range of the timer. *)
Lemma retryLoop_backoff config p email remaining :
  ∀ attempt status b w status' b' w',
  0 ≤ EmailServiceConfig.retryDelayMs config →
  EmailServiceConfig.retryDelayMs config
  * 2 ^ (Z.of_nat (EmailServiceConfig.maxRetries config) - 2) ≤ TIMEOUT_MAX →
  (attempt + remaining = EmailServiceConfig.maxRetries config)%nat →
  (1 ≤ remaining)%nat →
  retryLoop config p email remaining attempt status b w = (false, (status', b', w')) →
  clock w + EmailServiceConfig.retryDelayMs config
            * (2 ^ Z.of_nat (attempt + remaining - 1) - 2 ^ Z.of_nat attempt)
  ≤ clock w'.
Proof.
  induction remaining as [|remaining IH];
    intros attempt status b w status' b' w' Hdelay Hrange Hsum Hpos; [lia|].
  cbn [retryLoop].
  destruct (EmailProvider.send p email (ext w)) as [[[|message] latency] x]; [done|].
  destruct remaining as [|remaining].
  - (* the last attempt: no sleep *)
    destruct (Nat.ltb_spec (S attempt) (EmailServiceConfig.maxRetries config)); [lia|].
    cbn [retryLoop]. intros [= _ _ <-]. cbn.
    replace (attempt + 1 - 1)%nat with attempt by lia. lia.
  - destruct (Nat.ltb_spec (S attempt) (EmailServiceConfig.maxRetries config)); [|lia].
    intros Hrun. apply IH in Hrun; [|done|done|lia|lia].
    rewrite clock_sleep_delay in Hrun.
    replace (Z.of_nat (S attempt) - 1) with (Z.of_nat attempt) in Hrun by lia.
    assert (EmailServiceConfig.retryDelayMs config * 2 ^ Z.of_nat attempt
            ≤ timerDelay (EmailServiceConfig.retryDelayMs config * 2 ^ Z.of_nat attempt))
      as Hslept.
    { assert (2 ^ Z.of_nat attempt
              ≤ 2 ^ (Z.of_nat (EmailServiceConfig.maxRetries config) - 2)) as Hpow.
      { apply Z.pow_le_mono_r; lia. }
      pose proof (pow2_pos attempt).
      destruct (timerDelay_cases
                  (EmailServiceConfig.retryDelayMs config * 2 ^ Z.of_nat attempt))
        as [[_ ->]|[[Hlow|Hhigh] ->]]; [lia|lia|nia]. }
    cbn [clock set_ext elapse] in Hrun.
    replace (S attempt + S remaining - 1)%nat with (S (attempt + remaining)) in Hrun by lia.
    replace (attempt + S (S remaining) - 1)%nat with (S (attempt + remaining)) by lia.
    rewrite (pow2_succ attempt) in Hrun.
    pose proof (pow2_pos attempt). pose proof (pow2_pos (S (attempt + remaining))).
    nia.
Qed.

(** With a base delay beyond the range of the timer every sleep of the
    loop lasts 1 ms: the loop takes the time of its attempts and one
    millisecond per sleep. *)
Lemma retryLoop_clamped config p email remaining :
  ∀ attempt status b w status' b' w',
  TIMEOUT_MAX < EmailServiceConfig.retryDelayMs config →
  (attempt + remaining = EmailServiceConfig.maxRetries config)%nat →
  (1 ≤ remaining)%nat →
  retryLoop config p email remaining attempt status b w = (false, (status', b', w')) →
  ∃ fails,
    EmailStatus.attempts status' = EmailStatus.attempts status ++ fails
    ∧ clock w' = clock w + foldr Z.add 0 (EmailAttempt.duration <$> fails)
                 + (Z.of_nat remaining - 1).
Proof.
  induction remaining as [|remaining IH];
    intros attempt status b w status' b' w' Hdelay Hsum Hpos; [lia|].
  cbn [retryLoop].
  destruct (EmailProvider.send p email (ext w)) as [[[|message] latency] x]; [done|].
  destruct remaining as [|remaining].
  - destruct (Nat.ltb_spec (S attempt) (EmailServiceConfig.maxRetries config)); [lia|].
    cbn [retryLoop]. intros [= <- _ <-]. eexists [_]. split; [done|]. cbn. lia.
  - destruct (Nat.ltb_spec (S attempt) (EmailServiceConfig.maxRetries config)); [|lia].
    intros Hrun. apply IH in Hrun as (fails & Hat & Hclock); [|done|lia|lia].
    rewrite clock_sleep_delay in Hclock.
    replace (Z.of_nat (S attempt) - 1) with (Z.of_nat attempt) in Hclock by lia.
    pose proof (pow2_pos attempt).
    destruct (timerDelay_cases
                (EmailServiceConfig.retryDelayMs config * 2 ^ Z.of_nat attempt))
      as [[Hin _]|[_ Hone]]; [nia|].
    rewrite Hone in Hclock.
    eexists (_ :: fails). cbn [EmailStatus.push EmailStatus.attempts] in Hat.
    rewrite Hat, <- app_assoc. split; [done|].
    rewrite Hclock. cbn. lia.
Qed.
End BackoffFacts.

(** X15 (exponential backoff).  Take a retry loop with a budget of at least
    one try that uses up its budget against a provider.  When the base delay
    is not negative and the longest delay, [retryDelayMs * 2^(maxRetries-2)],
    is within the range of the timer, the loop has waited at least
    [retryDelayMs * 2^(k-1)] after its [k]-th failed attempt for every
    attempt but the last, so between its start and its end at least
    [retryDelayMs * (2^(maxRetries-1) - 1)] milliseconds have gone by.  When
    the base delay is beyond the range of the timer, every wait lasts 1 ms:
    the loop takes the time of its attempts and [maxRetries - 1]
    milliseconds. *)
Theorem backoff_lower_bound {Ext : Type}
    (config : EmailServiceConfig.t) (p : EmailProvider.t Ext) (email : EmailRequest.t)
    (status status' : EmailStatus.t) (b b' : CircuitBreaker.t)
    (w w' : EmailService.World Ext) :
  (1 ≤ EmailServiceConfig.maxRetries config)%nat →
  EmailService.retryLoop config p email (EmailServiceConfig.maxRetries config) 0
    status b w = (false, (status', b', w')) →
  (0 ≤ EmailServiceConfig.retryDelayMs config →
   EmailServiceConfig.retryDelayMs config
   * 2 ^ (Z.of_nat (EmailServiceConfig.maxRetries config) - 2) ≤ 2147483647 →
   EmailService.clock w
   + EmailServiceConfig.retryDelayMs config
     * (2 ^ (Z.of_nat (EmailServiceConfig.maxRetries config) - 1) - 1)
   ≤ EmailService.clock w')
  ∧ (2147483647 < EmailServiceConfig.retryDelayMs config →
     ∃ fails,
       EmailStatus.attempts status' = EmailStatus.attempts status ++ fails
       ∧ EmailService.clock w'
         = EmailService.clock w
           + foldr Z.add 0 (EmailAttempt.duration <$> fails)
           + (Z.of_nat (EmailServiceConfig.maxRetries config) - 1)).
Proof.
  intros Hmax Hrun. split.
  - intros Hdelay Hrange.
    pose proof (retryLoop_backoff config p email
                  (EmailServiceConfig.maxRetries config) 0%nat status b w status' b' w'
                  Hdelay Hrange eq_refl Hmax Hrun) as H.
    cbn [Nat.add] in H.
    replace (Z.of_nat (EmailServiceConfig.maxRetries config - 1))
      with (Z.of_nat (EmailServiceConfig.maxRetries config) - 1) in H by lia.
    exact H.
  - intros Hdelay.
    exact (retryLoop_clamped config p email (EmailServiceConfig.maxRetries config)
             0%nat status b w status' b' w' Hdelay eq_refl Hmax Hrun).
Qed.

Lemma backoff_lower_bound_witness :
  1000000 + 100 * (2 ^ (3 - 1) - 1)
  ≤ EmailService.clock
      (EmailService.retryLoop (EmailService.mergeConfig EmailService.noConfig)
         Scenario.AlwaysFails (Scenario.request "welcome-001") 3 0
         (EmailStatus.mk EmailStatus.pending None None 1000000 0 [])
         (CircuitBreaker.new 3 10000) Scenario.start).2.2.
Proof.
  refine (proj1 (backoff_lower_bound (EmailService.mergeConfig EmailService.noConfig)
                   Scenario.AlwaysFails (Scenario.request "welcome-001")
                   (EmailStatus.mk EmailStatus.pending None None 1000000 0 []) _
                   (CircuitBreaker.new 3 10000) _ Scenario.start _ _ _) _ _).
  - cbn. lia.
  - by vm_compute.
  - cbn. lia.
  - by vm_compute.
Defined.

(** ** More on the queue and the rate limiter *)

(** X16 ([enqueue] followed by [dequeue]).  On a queue with room, when the
    queue is empty or the new priority is higher than the priority of the
    head, [dequeue] right after [enqueue] returns the new entry and gives
    back the queue exactly as it was before; otherwise it returns the old
    head, and the new entry stays queued. *)
Theorem enqueue_then_dequeue
    (q : EmailQueue.t) (e : EmailRequest.t) (p now : Z) :
  (EmailQueue.size q < EmailQueue.maxSize q)%nat →
  let item := EmailQueueItem.mk e p now 0 in
  let q1 := (EmailQueue.enqueue e p now q).2 in
  match EmailQueue.queue q with
  | [] => EmailQueue.dequeue q1 = (Some item, q)
  | h :: rest =>
      if EmailQueueItem.priority h <? p
      then EmailQueue.dequeue q1 = (Some item, q)
      else (EmailQueue.dequeue q1).1 = Some h
           ∧ item ∈ EmailQueue.queue (EmailQueue.dequeue q1).2
           ∧ EmailQueue.size (EmailQueue.dequeue q1).2 = EmailQueue.size q
  end.
Proof.
  unfold EmailQueue.size. intros Hroom. cbv zeta.
  unfold EmailQueue.enqueue.
  destruct (Nat.leb_spec (EmailQueue.maxSize q) (length (EmailQueue.queue q))); [lia|].
  destruct q as [items processing maxSize]. cbn [EmailQueue.queue] in *.
  destruct items as [|h rest]; [done|].
  cbn [EmailQueue.findIndex]. destruct (EmailQueueItem.priority h <? p); [done|].
  destruct (EmailQueue.findIndex _ rest) as [i|]; cbn.
  - split; [done|]. unfold EmailQueue.splice_in. split.
    + apply elem_of_app. right. by left.
    + rewrite length_app. cbn.
      pose proof (take_drop i rest) as Htd. apply (f_equal length) in Htd.
      rewrite length_app in Htd. lia.
  - split; [done|]. split.
    + apply elem_of_app. right. by left.
    + rewrite length_app. cbn. lia.
Qed.

Lemma enqueue_then_dequeue_witness :
  EmailQueue.dequeue
    (EmailQueue.enqueue (Scenario.request "welcome-002") 9 20
       (EmailQueue.mk [EmailQueueItem.mk (Scenario.request "welcome-001") 5 10 0]
          false 1000)).2
  = (Some (EmailQueueItem.mk (Scenario.request "welcome-002") 9 20 0),
     EmailQueue.mk [EmailQueueItem.mk (Scenario.request "welcome-001") 5 10 0]
       false 1000).
Proof.
  refine (enqueue_then_dequeue
            (EmailQueue.mk [EmailQueueItem.mk (Scenario.request "welcome-001") 5 10 0]
               false 1000)
            (Scenario.request "welcome-002") 9 20 _).
  cbn. lia.
Defined.

Section LimiterRecovery.
Import RateLimiter.

Lemma run_all_admitted ds :
  ∀ now rl t1,
  Forall (fun t => t1 ≤ t) (requests rl) →
  (length (requests rl) + length ds ≤ max rl)%nat →
  t1 ≤ now →
  now - t1 + Z.of_N (foldr N.add 0%N ds) < interval rl →
  Forall (fun x => x.2 = true) (run now ds rl).1.
Proof.
  induction ds as [|d ds IH]; intros now rl t1 Hall Hlen Ht1 Hwin; [constructor|].
  cbn [run foldr length] in *.
  assert (prune (now + Z.of_N d) rl = requests rl) as Hkeep.
  { unfold prune. apply filter_all. eapply Forall_impl; [exact Hall|].
    cbn. intros t Ht. apply Z.ltb_lt. lia. }
  rewrite allow_admits by (rewrite Hkeep; lia).
  specialize (IH (now + Z.of_N d)
                (mk (prune (now + Z.of_N d) rl ++ [now + Z.of_N d]) (max rl) (interval rl))
                t1).
  destruct (run _ ds _) as [log rl']. cbn [fst snd] in *.
  constructor; [done|]. apply IH.
  - rewrite Hkeep. apply Forall_app. split; [done|]. constructor; [lia|constructor].
  - cbn [requests max]. rewrite Hkeep, length_app. cbn. lia.
  - lia.
  - cbn [interval]. lia.
Qed.
End LimiterRecovery.

(** X17 (the limiter recovers).  When every recorded timestamp is at least
    [interval] old at the time of a call, the old timestamps are dropped
    and the limiter starts over: that call and the calls after it are all
    admitted, as long as they are no more than [max] and the last of them
    comes less than [interval] after the first. *)
Theorem limiter_recovers (rl : RateLimiter.t) (now : Z) (d : N) (ds : list N) :
  Forall (fun t => RateLimiter.interval rl ≤ now + Z.of_N d - t)
    (RateLimiter.requests rl) →
  (S (length ds) ≤ RateLimiter.max rl)%nat →
  Z.of_N (foldr N.add 0%N ds) < RateLimiter.interval rl →
  Forall (fun x => x.2 = true) (RateLimiter.run now (d :: ds) rl).1
  ∧ RateLimiter.requests (RateLimiter.allow (now + Z.of_N d) rl).2 = [now + Z.of_N d].
Proof.
  intros Hold Hlen Hwin.
  assert (RateLimiter.prune (now + Z.of_N d) rl = []) as Hprune.
  { unfold RateLimiter.prune.
    induction Hold as [|t l Ht _ IH]; cbn; [done|].
    by destruct (Z.ltb_spec (now + Z.of_N d - t) (RateLimiter.interval rl)); [lia|]. }
  cbn [RateLimiter.run].
  rewrite allow_admits by (rewrite Hprune; cbn; lia).
  rewrite Hprune. cbn [app RateLimiter.requests snd]. split; [|done].
  pose proof (run_all_admitted ds (now + Z.of_N d)
                (RateLimiter.mk [now + Z.of_N d] (RateLimiter.max rl)
                   (RateLimiter.interval rl)) (now + Z.of_N d)) as Hrun.
  destruct (RateLimiter.run _ ds _) as [log rl']. cbn [fst snd] in *.
  constructor; [done|]. apply Hrun.
  - constructor; [lia|constructor].
  - cbn. lia.
  - lia.
  - cbn. lia.
Qed.

Lemma limiter_recovers_witness :
  Forall (fun x => x.2 = true)
    (RateLimiter.run 3000 [0%N; 10%N; 10%N]
       (RateLimiter.mk [1000; 1500; 1900] 3 1000)).1.
Proof.
  refine (proj1 (limiter_recovers (RateLimiter.mk [1000; 1500; 1900] 3 1000)
                   3000 0 [10%N; 10%N] _ _ _)).
  - cbn. repeat constructor; lia.
  - cbn. lia.
  - cbn. lia.
Defined.

(** X18 (what a call returns and what is stored).  Whenever [sendEmail]
    returns, [getStatus] for the id of the request gives, on the engine as
    the call left it, the very result of the call.  So it does after
    [queueEmail] when the id is in the sent-set, or the loop is running, or
    the entry at the head of the queue, once the request has gone to
    [enqueue], is not for the same id.  In the remaining case the call has
    started the loop, the loop has handed that entry to the pipeline, and
    [getStatus] gives the Status of the pipeline, which is not the one
    returned. *)
Theorem returned_status_is_stored {Ext : Type}
    (s s' : EmailService.t Ext) (w w' : EmailService.World Ext)
    (email : EmailRequest.t) (priority : option Z) (r : option EmailStatus.t) :
  (EmailService.sendEmail email s w = (EmailService.Returned r, s', w') →
   EmailService.getStatus (EmailRequest.id email) s' = r)
  ∧ (EmailService.queueEmail email priority s w = (EmailService.Returned r, s', w') →
     let extended := (EmailQueue.enqueue email (default 0 priority)
                        (EmailService.clock w) (EmailService.queue s)).2 in
     (EmailRequest.id email ∈ EmailService.sentEmails s
      ∨ EmailService.processing s = true
      ∨ EmailQueue.processing (EmailService.queue s) = true
      ∨ EmailQueue.next_id extended ≠ Some (EmailRequest.id email) →
      EmailService.getStatus (EmailRequest.id email) s' = r)
     ∧ (EmailRequest.id email ∉ EmailService.sentEmails s →
        EmailService.processing s = false →
        EmailQueue.processing (EmailService.queue s) = false →
        EmailQueue.next_id extended = Some (EmailRequest.id email) →
        EmailService.getStatus (EmailRequest.id email) s' ≠ r)).
Proof.
  unfold EmailService.getStatus. split.
  - intros Hsend. unfold EmailService.sendEmail in Hsend. case_bool_decide.
    + by injection Hsend as <- <- _.
    + destruct (RateLimiter.allow _ _) as [[|] limiter]; cbn [negb] in Hsend.
      * unfold EmailService.processEmail in Hsend.
        destruct (EmailService.tryProviders _ _ _ _ _ _) as [[| |] [[status1 bm] w1]];
          [| |done]; injection Hsend as <- <- _; cbn; by rewrite lookup_insert_eq.
      * injection Hsend as <- <- _. cbn. by rewrite lookup_insert_eq.
  - intros Hqueue.
    set (extended := (EmailQueue.enqueue email (default 0 priority)
                        (EmailService.clock w) (EmailService.queue s)).2).
    destruct (decide (EmailRequest.id email ∈ EmailService.sentEmails s)) as [Hin|Hout].
    { rewrite queueEmail_sent in Hqueue by done. injection Hqueue as <- <- _.
      split; [done|]. by intros Hfresh. }
    rewrite (queueEmail_fresh email priority s w Hout) in Hqueue.
    pose proof (enqueue_fields (EmailService.queue s) email (default 0 priority)
                  (EmailService.clock w)) as (_ & Hflag & _).
    fold extended in Hflag.
    revert Hqueue.
    set (status1 :=
           if (EmailQueue.enqueue email (default 0 priority) (EmailService.clock w)
                 (EmailService.queue s)).1
           then EmailStatus.mk EmailStatus.queued None None (EmailService.clock w) 0 []
           else EmailStatus.mk EmailStatus.failed None (Some "Queue is full"%string)
                  (EmailService.clock w) 0 []).
    set (s3 := EmailService.set_statusMap _ _).
    assert (EmailService.statusMap s3 !! EmailRequest.id email = Some status1) as Hs3.
    { subst s3. cbn. apply lookup_insert_eq. }
    assert (EmailService.queue s3 = extended) as Hq3 by done.
    assert (EmailService.processing s3 = EmailService.processing s) as Hp3 by done.
    intros Hqueue. split.
    + intros Hcase. destruct (EmailService.processing s) eqn:Hp.
      { by injection Hqueue as <- <- _. }
      injection Hqueue as <- <- _.
      destruct (EmailQueue.processing (EmailService.queue s)) eqn:Hqp.
      { rewrite startQueueProcessing_turn. cbn [fst snd].
        by rewrite Hp3, Hq3, Hflag. }
      destruct Hcase as [?|[?|[?|Hhead]]]; try done.
      rewrite startQueueProcessing_other; [done|]. cbn [fst]. by rewrite Hq3.
    + intros _ Hp Hqp Hhead. rewrite Hp in Hqueue. injection Hqueue as <- <- _.
      unfold EmailQueue.next_id in Hhead.
      destruct (EmailQueue.queue extended) as [|head rest] eqn:Hext; [done|].
      injection Hhead as Hid.
      destruct (startQueueProcessing_first (s3, w) head rest)
        as ((st & Hst & Hnq & Hnf) & _).
      { cbn [fst]. by rewrite Hp3. }
      { cbn [fst]. by rewrite Hq3, Hflag. }
      { cbn [fst]. by rewrite Hq3. }
      cbn [fst snd] in Hst. rewrite Hid in Hst. rewrite Hst.
      intros [= ->]. subst status1. by destruct (_.1).
Qed.

Lemma returned_status_is_stored_witness :
  EmailService.getStatus "welcome-001"
    (EmailService.sendEmail (Scenario.request "welcome-001")
       (EmailService.new [Scenario.AlwaysSucceeds] EmailService.noConfig)
       Scenario.start).1.2
  = Some (EmailStatus.mk EmailStatus.sent (Some "AlwaysSucceeds") None 1000000 0
            [EmailAttempt.mk "AlwaysSucceeds" 1000005 true None 5]).
Proof.
  refine (proj1 (returned_status_is_stored
                   (EmailService.new [Scenario.AlwaysSucceeds] EmailService.noConfig) _
                   Scenario.start
                   (EmailService.sendEmail (Scenario.request "welcome-001")
                      (EmailService.new [Scenario.AlwaysSucceeds] EmailService.noConfig)
                      Scenario.start).2
                   (Scenario.request "welcome-001") None _) _).
  by vm_compute.
Defined.
